(** * viper build script ([build.cjs]): a shallow embedding

    The build script is a Node.js program.  Its own code is short; most of
    what it does is done by calls into the JavaScript language
    ([String.prototype.replace], property assignment on objects, [JSON]),
    into Node's [fs] module and into the packages [glob], [tar] and
    [jsonfile].  The embedding below gives each of these calls the meaning
    its documentation (ECMA-262, the Node.js manual, the packages' READMEs)
    gives it, restricted to the way the script calls it, and then transcribes
    the script's functions [readFile], [genTranslations], [genManifest],
    [genTar], [combine], [run] and [main] on top of them. *)

From Stdlib Require Import NArith Lia Ascii.
From stdpp Require Import gmap strings list fin_maps sorting.

Set Warnings "-register-all".

Open Scope string_scope.
Open Scope list_scope.
Open Scope nat_scope.

(** ** JavaScript strings *)

(** A JavaScript string is a finite sequence of 16-bit code units. *)
Module JsString.

Definition code_unit : Type := N.
Definition jsstring : Type := list code_unit.

(** The code units of a source-text literal. *)
Fixpoint units (s : string) : jsstring :=
  match s with
  | EmptyString => []
  | String a r => N_of_ascii a :: units r
  end.

Definition LF : code_unit := 10%N.
Definition DOLLAR : code_unit := 36%N.      (* $ *)
Definition AMPERSAND : code_unit := 38%N.   (* & *)
Definition APOSTROPHE : code_unit := 39%N.  (* ' *)
Definition BACKTICK : code_unit := 96%N.    (* ` *)

(** [starts_with pat s]: [pat] is a prefix of [s]. *)
Fixpoint starts_with (pat s : jsstring) : bool :=
  match pat, s with
  | [], _ => true
  | _ :: _, [] => false
  | a :: pat', b :: s' => (a =? b)%N && starts_with pat' s'
  end.

(** StringIndexOf(string, searchValue, fromIndex) of ECMA-262, counting from
    [i]: the least index at which [pat] occurs, if any. *)
Fixpoint indexOf_from (s pat : jsstring) (i : nat) : option nat :=
  if starts_with pat s then Some i
  else match s with
       | [] => None
       | _ :: s' => indexOf_from s' pat (S i)
       end.

Definition indexOf (s pat : jsstring) : option nat := indexOf_from s pat 0.

(** GetSubstitution(matched, str, position, captures, namedCaptures,
    replacementTemplate) of ECMA-262 for a string pattern: [captures] is
    empty and [namedCaptures] is undefined.  In the template, [$$] stands for
    a dollar sign, [$&] for the matched substring, [$`] for the part of [str]
    before the match and [$'] for the part after it.  With no captures,
    [$n], [$nn] and [$<] are copied as they are, like a dollar sign followed by
    any other code unit or by nothing. *)
Fixpoint GetSubstitution (matched str : jsstring) (position : nat)
    (template : jsstring) : jsstring :=
  match template with
  | [] => []
  | c :: rest =>
      if (c =? DOLLAR)%N then
        match rest with
        | [] => [DOLLAR]
        | d :: rest' =>
            if (d =? DOLLAR)%N then
              DOLLAR :: GetSubstitution matched str position rest'
            else if (d =? BACKTICK)%N then
              take position str ++ GetSubstitution matched str position rest'
            else if (d =? AMPERSAND)%N then
              matched ++ GetSubstitution matched str position rest'
            else if (d =? APOSTROPHE)%N then
              drop (position + length matched `min` length str) str
                ++ GetSubstitution matched str position rest'
            else
              DOLLAR :: GetSubstitution matched str position rest
        end
      else c :: GetSubstitution matched str position rest
  end.

(** [String.prototype.replace(searchValue, replaceValue)] where both
    arguments are strings: only the first occurrence is replaced, and the
    replacement is the expansion of [replaceValue] by [GetSubstitution]. *)
Definition replace (s searchString replaceValue : jsstring) : jsstring :=
  match indexOf s searchString with
  | None => s
  | Some position =>
      let preceding := take position s in
      let following := drop (position + length searchString) s in
      preceding
        ++ GetSubstitution searchString s position replaceValue
        ++ following
  end.

(** [pat] occurs in [s] at index [i]. *)
Definition occurs_at (pat : jsstring) (i : nat) (s : jsstring) : Prop :=
  ∃ before after, s = before ++ pat ++ after ∧ length before = i.

(** The number of indices at which [pat] occurs in [s]. *)
Fixpoint count_occ (pat s : jsstring) : nat :=
  (if starts_with pat s then 1 else 0) +
  match s with
  | [] => 0
  | _ :: s' => count_occ pat s'
  end.

End JsString.
Export JsString.

(** ** JavaScript values and JSON documents *)

Module JsValue.

(** A Number is an IEEE 754 binary64 value, kept as its 64-bit pattern. *)
Definition number : Type := N.

Definition is_finite (x : number) : bool :=
  negb (N.land (N.shiftr x 52) 2047 =? 2047)%N.

Definition negative_zero : number := N.shiftl 1 63.

(** A JSON document as it stands in a file, after lexing: the members of an
    object are in the order of the text, and a key may occur twice. *)
Inductive json : Type :=
| JNull
| JBool (b : bool)
| JNumber (x : number)
| JString (s : jsstring)
| JArray (items : list json)
| JObject (members : list (string * json)).

(** The values the script handles.  An ordinary object has a prototype slot
    and own properties, kept here in creation order; all of them are writable
    enumerable data properties, as [JSON.parse] and assignment create them. *)
Inductive value : Type :=
| VUndefined
| VNull
| VBool (b : bool)
| VNumber (x : number)
| VString (s : jsstring)
| VArray (items : list value)
| VObject (proto : prototype) (props : list (string * value))
with prototype : Type :=
| ObjectPrototype            (* %Object.prototype%, of [{}] and of parsed objects *)
| NullPrototype
| ValuePrototype (v : value) (* an object or array installed through [__proto__] *).

Definition properties : Type := list (string * value).

Fixpoint get_own {A} (k : string) (props : list (string * A)) : option A :=
  match props with
  | [] => None
  | (k', v) :: rest => if bool_decide (k' = k) then Some v else get_own k rest
  end.

Definition has_own {A} (k : string) (props : list (string * A)) : bool :=
  bool_decide (is_Some (get_own k props)).

(** CreateDataProperty: a new key goes last, an existing key keeps its place
    and takes the new value. *)
Fixpoint define {A} (k : string) (v : A) (props : list (string * A))
    : list (string * A) :=
  match props with
  | [] => [(k, v)]
  | (k', v') :: rest =>
      if bool_decide (k' = k) then (k, v) :: rest
      else (k', v') :: define k v rest
  end.

(** *** Array indices and the order of own property keys *)

Definition digit_of (a : ascii) : option N :=
  let n := N_of_ascii a in
  if (48 <=? n)%N && (n <=? 57)%N then Some (n - 48)%N else None.

Fixpoint decimal_from (acc : N) (s : string) : option N :=
  match s with
  | EmptyString => Some acc
  | String a r =>
      match digit_of a with
      | Some d => decimal_from (10 * acc + d)%N r
      | None => None
      end
  end.

(** An array index is a canonical numeric string (no sign, no leading zero)
    whose value is at most 2^32 - 2. *)
Definition array_index (k : string) : option N :=
  match k with
  | EmptyString => None
  | String a r =>
      if bool_decide (a = "0"%char) && negb (bool_decide (r = EmptyString))
      then None
      else match decimal_from 0 k with
           | Some n => if (n <? 4294967295)%N then Some n else None
           | None => None
           end
  end.

Fixpoint insert_index {A} (n : N) (x : A) (l : list (N * A)) : list (N * A) :=
  match l with
  | [] => [(n, x)]
  | (m, y) :: rest =>
      if (n <? m)%N then (n, x) :: l else (m, y) :: insert_index n x rest
  end.

Definition indexed {A} (props : list (string * A)) : list (N * (string * A)) :=
  foldr (λ kv acc,
           match array_index kv.1 with
           | Some n => insert_index n kv acc
           | None => acc
           end) [] props.

Definition named {A} (props : list (string * A)) : list (string * A) :=
  filter (λ kv, array_index kv.1 = None) props.

(** OrdinaryOwnPropertyKeys: array indices in ascending numeric order, then
    the other keys in the order of their creation. *)
Definition own_properties {A} (props : list (string * A)) : list (string * A) :=
  (snd <$> indexed props) ++ named props.

Definition ownKeys {A} (props : list (string * A)) : list string :=
  fst <$> own_properties props.

(** *** JSON.parse and JSON.stringify, without the text *)

(** The object that [JSON.parse] builds for a document: members become own
    properties in the order of the text. *)
Fixpoint internalize (j : json) : value :=
  match j with
  | JNull => VNull
  | JBool b => VBool b
  | JNumber x => VNumber x
  | JString s => VString s
  | JArray items => VArray (map internalize items)
  | JObject members =>
      VObject ObjectPrototype
        ((fix members_in (ms : list (string * json)) (acc : properties)
            : properties :=
            match ms with
            | [] => acc
            | (k, j') :: rest => members_in rest (define k (internalize j') acc)
            end) members [])
  end.

(** The members that are not undefined. *)
Definition present {A} (ms : list (string * option A)) : list (string * A) :=
  omap (λ kv, pair kv.1 <$> kv.2) ms.

(** SerializeJSONProperty: the document that [JSON.stringify] writes for a
    value, [None] where it yields undefined.  An object contributes its own
    properties in [ownKeys] order, leaving out those that serialize to
    undefined; its prototype contributes nothing. *)
Fixpoint externalize (v : value) : option json :=
  match v with
  | VUndefined => None
  | VNull => Some JNull
  | VBool b => Some (JBool b)
  | VNumber x =>
      Some (if is_finite x
            then JNumber (if (x =? negative_zero)%N then 0%N else x)
            else JNull)
  | VString s => Some (JString s)
  | VArray items =>
      Some (JArray (map (λ v', default JNull (externalize v')) items))
  | VObject _ props =>
      Some (JObject (present (own_properties
        ((fix each (ps : properties) : list (string * option json) :=
            match ps with
            | [] => []
            | (k, v') :: rest => (k, externalize v') :: each rest
            end) props))))
  end.

(** *** Reading and assigning properties *)

(** What [[Set]] meets when it climbs the prototype chain for a key the
    receiver does not own: a writable data property or the end of the chain
    (either way the receiver gets an own property), or the [__proto__]
    accessor of %Object.prototype%, the only accessor on the chain. *)
Inductive set_target : Type := DataProperty | ProtoAccessor.

Fixpoint climb (p : prototype) (k : string) : set_target :=
  match p with
  | NullPrototype => DataProperty
  | ObjectPrototype =>
      if bool_decide (k = "__proto__") then ProtoAccessor else DataProperty
  | ValuePrototype v => climb_value v k
  end
with climb_value (v : value) (k : string) : set_target :=
  match v with
  | VObject p props => if has_own k props then DataProperty else climb p k
  | VArray _ =>
      (* an array owns its indices and [length]; above it are
         %Array.prototype% and %Object.prototype% *)
      if bool_decide (k = "__proto__") then ProtoAccessor else DataProperty
  | _ => DataProperty
  end.

(** [receiver[k] = v] on an ordinary object, OrdinarySet of ECMA-262.  The
    [__proto__] setter installs an object or null as the prototype and
    ignores any other value; it creates no own property.  (It throws on a
    cyclic chain, which a freshly parsed [v] cannot close.) *)
Definition obj_set (proto : prototype) (props : properties) (k : string)
    (v : value) : prototype * properties :=
  if has_own k props then (proto, define k v props)
  else
    match climb proto k with
    | DataProperty => (proto, define k v props)
    | ProtoAccessor =>
        match v with
        | VObject _ _ | VArray _ => (ValuePrototype v, props)
        | VNull => (NullPrototype, props)
        | _ => (proto, props)
        end
    end.

(** [target.k = v] in sloppy mode, for a name [k] that is neither an array
    index nor [length]: a TypeError ([None]) on undefined and null, no effect
    on a primitive, and on an array a named property that [JSON.stringify]
    does not write, so the array is kept as it is. *)
Definition value_set (target : value) (k : string) (v : value) : option value :=
  match target with
  | VUndefined | VNull => None
  | VObject proto props =>
      let '(proto', props') := obj_set proto props k v in
      Some (VObject proto' props')
  | _ => Some target
  end.

(** [target.k] for a name [k] that no built-in prototype defines: a TypeError
    ([None]) on undefined and null, else the own property or the one found on
    the prototype chain, else undefined. *)
Fixpoint get_from (p : prototype) (k : string) : value :=
  match p with
  | NullPrototype | ObjectPrototype => VUndefined
  | ValuePrototype v => get_value v k
  end
with get_value (v : value) (k : string) : value :=
  match v with
  | VObject p props =>
      match get_own k props with
      | Some x => x
      | None => get_from p k
      end
  | _ => VUndefined
  end.

Definition value_get (target : value) (k : string) : option value :=
  match target with
  | VUndefined | VNull => None
  | _ => Some (get_value target k)
  end.

End JsValue.
Export JsValue.

(** ** The file system *)

(** The files below the working directory of the process: a finite map from
    relative paths to nodes.  A path is the list of its components, so
    ["./build/assets"] and ["build/assets"] are the same path; the working
    directory itself is the empty path and is a directory.  A file holds
    text, the code units that reading it as UTF-8 yields and that writing
    stores. *)
Module Fs.

Abbreviation path := (list string).

Fixpoint segments (cs cur : list ascii) : list (list ascii) :=
  match cs with
  | [] => [reverse cur]
  | c :: rest =>
      if bool_decide (c = "/"%char) then reverse cur :: segments rest []
      else segments rest (c :: cur)
  end.

(** The path a string of the script names (no [..] occurs in the script). *)
Definition path_of (s : string) : path :=
  filter (λ seg, seg ≠ EmptyString ∧ seg ≠ ".")
    (String.string_of_list_ascii <$> segments (String.list_ascii_of_string s) []).

(** [the_path "build/assets"]: the path named by a string of the script,
    worked out where it is written. *)
Notation "'the_path' s" :=
  (ltac:(let p := eval vm_compute in (path_of s) in exact p))
  (at level 10, s at level 0, only parsing).

(** What [fs.Stats] tells about a node, as far as archives care. *)
Record stat : Type := Stat {
  st_mode : N;
  st_uid : N;
  st_gid : N;
  st_mtime : N;
  st_ctime : N;
}.

Inductive node : Type :=
| File (meta : stat) (data : jsstring)
| Dir (meta : stat).

Abbreviation files := (gmap path node).

Inductive kind : Type := KFile | KDir.

Definition kind_at (fs : files) (p : path) : option kind :=
  match p with
  | [] => Some KDir
  | _ => match fs !! p with
         | Some (File _ _) => Some KFile
         | Some (Dir _) => Some KDir
         | None => None
         end
  end.

(** The file at [p], if [p] is a file: its metadata and its text. *)
Definition file_at (fs : files) (p : path) : option (stat * jsstring) :=
  match p with
  | [] => None
  | _ => match fs !! p with
         | Some (File m data) => Some (m, data)
         | _ => None
         end
  end.

Definition parent (p : path) : path := take (length p - 1) p.

(** [relative root p]: the rest of [p] below [root], if [p] is [root] or
    lies below it. *)
Fixpoint relative (root p : path) : option path :=
  match root, p with
  | [], _ => Some p
  | _ :: _, [] => None
  | r :: root', x :: p' =>
      if bool_decide (r = x) then relative root' p' else None
  end.

(** The nodes at and below [root], each with its path relative to [root], in
    the order of the map. *)
Definition subtree (fs : files) (root : path) : list (path * node) :=
  omap (λ kv, (λ rel, (rel, kv.2)) <$> relative root kv.1) (map_to_list fs).

(** The order in which a directory is listed.  Node reads a directory with
    libuv's [uv_fs_scandir], which sorts the names it has read byte by byte
    ([strcmp]): the listing depends on the names alone, not on where the
    directory is or how it came about. *)
Fixpoint name_leb (a b : string) : bool :=
  match a, b with
  | EmptyString, _ => true
  | String _ _, EmptyString => false
  | String x a', String y b' =>
      if (N_of_ascii x <? N_of_ascii y)%N then true
      else if (N_of_ascii x =? N_of_ascii y)%N then name_leb a' b'
      else false
  end.

Definition name_le (a b : string) : Prop := name_leb a b = true.

#[global] Instance name_le_dec a b : Decision (name_le a b) :=
  decide (name_leb a b = true).

(** The names of the immediate entries of [p], as [p] is listed. *)
Definition entries (fs : files) (p : path) : list string :=
  merge_sort name_le
    (omap (λ kv, match kv.1 with [name] => Some name | _ => None end)
       (subtree fs p)).

Section Operations.

(** Owner, permissions and clock that a node created by the process gets. *)
Variable now : stat.

Definition touched (m : stat) : stat :=
  Stat (st_mode m) (st_uid m) (st_gid m) (st_mtime now) (st_ctime now).

Definition created_like (m : stat) : stat :=
  Stat (st_mode m) (st_uid now) (st_gid now) (st_mtime now) (st_ctime now).

(** [fs.existsSync(p)] *)
Definition existsSync (fs : files) (p : path) : bool :=
  bool_decide (is_Some (kind_at fs p)).

(** [fs.readFileSync(p, "utf8")]; [None] when it throws. *)
Definition readFileSync (fs : files) (p : path) : option jsstring :=
  snd <$> file_at fs p.

(** [fs.writeFileSync(p, data, "utf8")]: creates or truncates the file;
    throws on a directory and where the parent directory is missing. *)
Definition writeFileSync (fs : files) (p : path) (data : jsstring)
    : option files :=
  match kind_at fs p with
  | Some KDir => None
  | Some KFile =>
      match file_at fs p with
      | Some (m, _) => Some (<[p := File (touched m) data]> fs)
      | None => None
      end
  | None =>
      match kind_at fs (parent p) with
      | Some KDir => Some (<[p := File now data]> fs)
      | _ => None
      end
  end.

(** [fs.unlinkSync(p)]: throws unless [p] is a file. *)
Definition unlinkSync (fs : files) (p : path) : option files :=
  match kind_at fs p with
  | Some KFile => Some (delete p fs)
  | _ => None
  end.

(** [fs.rmSync(p, { recursive: true, force: true })]: removes [p] and all
    below it; a missing [p] is no error. *)
Definition rmSync (fs : files) (p : path) : files :=
  filter (λ kv, relative p kv.1 = None) fs.

(** [fs.mkdirSync(p, { recursive: true })]: creates the missing
    directories along [p] ([todo] below [base]); throws where a file is in
    the way. *)
Fixpoint mkdirs (fs : files) (base todo : path) : option files :=
  match todo with
  | [] => Some fs
  | name :: rest =>
      let q := base ++ [name] in
      match kind_at fs q with
      | Some KFile => None
      | Some KDir => mkdirs fs q rest
      | None => mkdirs (<[q := Dir now]> fs) q rest
      end
  end.

Definition mkdirSync (fs : files) (p : path) : option files :=
  mkdirs fs [] p.

(** [fs.copyFileSync(src, dst)]: [src] must be a file, [dst] must not be a
    directory and its parent must exist; an existing [dst] is
    overwritten. *)
Definition copyFileSync (fs : files) (src dst : path) : option files :=
  match file_at fs src with
  | Some (m, data) =>
      match kind_at fs dst with
      | Some KDir => None
      | Some KFile => Some (<[dst := File (created_like m) data]> fs)
      | None =>
          match kind_at fs (parent dst) with
          | Some KDir => Some (<[dst := File (created_like m) data]> fs)
          | _ => None
          end
      end
  | None => None
  end.

(** [fs.readdirSync(p)]: throws unless [p] is a directory. *)
Definition readdirSync (fs : files) (p : path) : option (list string) :=
  match kind_at fs p with
  | Some KDir => Some (entries fs p)
  | _ => None
  end.

(** The options of [fs.cpSync] that decide what happens to an existing
    destination.  The Node.js manual: [force] "overwrite existing file or
    directory. The copy operation will ignore errors if you set this to
    false and the destination exists. Use the errorOnExist option to change
    this behavior. Default: true."; [errorOnExist] "when force is false, and
    the destination exists, throw an error. Default: false.". *)
Record cp_options : Type := CpOptions {
  recursive : bool;
  force : bool;
  errorOnExist : bool;
}.

(** One node of the source tree, copied to its place [target] below the
    destination.  [None] in the first component: [cpSync] has thrown. *)
Definition cp_node (opts : cp_options) (target : path) (n : node)
    (fs : files) : option unit * files :=
  match n with
  | Dir m =>
      match kind_at fs target with
      | Some KDir => (Some (), fs)
      | Some KFile => (None, fs)           (* ERR_FS_CP_DIR_TO_NON_DIR *)
      | None => (Some (), <[target := Dir (created_like m)]> fs)
      end
  | File m data =>
      match kind_at fs target with
      | Some KDir => (None, fs)            (* ERR_FS_CP_NON_DIR_TO_DIR *)
      | Some KFile =>
          if force opts then
            (Some (), <[target := File (created_like m) data]> fs)
          else if errorOnExist opts then (None, fs)  (* ERR_FS_CP_EEXIST *)
          else (Some (), fs)
      | None => (Some (), <[target := File (created_like m) data]> fs)
      end
  end.

Fixpoint cp_nodes (opts : cp_options) (dst : path)
    (todo : list (path * node)) (fs : files) : option unit * files :=
  match todo with
  | [] => (Some (), fs)
  | (rel, n) :: rest =>
      match cp_node opts (dst ++ rel) n fs with
      | (Some _, fs') => cp_nodes opts dst rest fs'
      | failed => failed
      end
  end.

(** [fs.cpSync(src, dst, opts)].  It throws when [src] is missing, when
    [src] is a directory and [recursive] is not set, and when [dst] is
    [src] or lies below it; it creates the missing parents of [dst] and
    then copies node by node.  When it throws midway, what it has copied
    stays. *)
Definition cpSync (opts : cp_options) (src dst : path) (fs : files)
    : option unit * files :=
  match kind_at fs src with
  | None => (None, fs)
  | Some k =>
      if bool_decide (is_Some (relative src dst)) then (None, fs)
      else
        match k, recursive opts with
        | KDir, false => (None, fs)
        | _, _ =>
            match mkdirs fs [] (parent dst) with
            | None => (None, fs)
            | Some fs' => cp_nodes opts dst (subtree fs src) fs'
            end
        end
  end.

End Operations.

End Fs.
Export Fs.

(** ** The [tar] package *)

(** [tar.c(options, fileList)] of node-tar, with the options the script
    passes.  An archive is the sequence of its entries, each a header and the
    file's data.  The README on the two options that strip metadata:
    [portable] "omit metadata that is system-specific: ctime, atime, uid,
    gid, uname, gname, dev, ino, and nlink"; [noMtime] "set to true to omit
    writing mtime values for entries".  Entry paths are the names of
    [fileList] and what lies below them, relative to [cwd]. *)
Module Tar.

Record tar_options : Type := TarOptions {
  gzip : bool;
  file : path;
  cwd : path;
  portable : bool;
  noMtime : bool;
}.

Inductive entry_type : Type := RegularFile | Directory.

Record header : Type := Header {
  h_path : path;
  h_type : entry_type;
  h_mode : N;
  h_size : nat;
  h_uid : option N;
  h_gid : option N;
  h_mtime : option N;
  h_ctime : option N;
}.

Definition archive : Type := list (header * jsstring).

(** The permission bits an entry gets (the package's [mode-fix]). *)
Definition mode_fix (mode : N) (isDir portable : bool) : N :=
  let m0 := N.land mode 4095 in
  let m1 := if portable then N.ldiff (N.lor m0 384) 18 else m0 in
  if isDir then
    let m2 := if N.testbit m1 8 then N.lor m1 64 else m1 in
    let m3 := if N.testbit m2 5 then N.lor m2 8 else m2 in
    if N.testbit m3 2 then N.lor m3 1 else m3
  else m1.

Definition unless {A} (omit : bool) (x : A) : option A :=
  if omit then None else Some x.

Definition entry_of (opts : tar_options) (p : path) (n : node)
    : header * jsstring :=
  match n with
  | File m data =>
      (Header p RegularFile (mode_fix (st_mode m) false (portable opts))
         (length data)
         (unless (portable opts) (st_uid m)) (unless (portable opts) (st_gid m))
         (unless (noMtime opts) (st_mtime m))
         (unless (portable opts) (st_ctime m)),
       data)
  | Dir m =>
      (Header p Directory (mode_fix (st_mode m) true (portable opts)) 0
         (unless (portable opts) (st_uid m)) (unless (portable opts) (st_gid m))
         (unless (noMtime opts) (st_mtime m))
         (unless (portable opts) (st_ctime m)),
       [])
  end.

(** A name of [fileList] that begins with [@] is no path: [tar.c] takes the
    rest of the name for the path of an archive, relative to [cwd], whose
    entries it adds in the name's place. *)
Definition archive_reference (name : string) : option string :=
  match name with
  | String "@" rest => Some rest
  | _ => None
  end.

(** The package keeps the paths it has still to write in a queue.  The names
    of [fileList] are queued first, in their order; when the path at the
    head of the queue is a directory, the names it lists are queued behind
    all that is waiting, each below that directory; then the entry of the
    head is written.  So an archive holds the listed names, then what their
    directories hold, then what the directories among those hold, and so on:
    a directory stands before its entries. *)
Definition next_level (fs : files) (cwd : path) (level : list path)
    : list path :=
  level ≫= λ p,
    match kind_at fs (cwd ++ p) with
    | Some KDir => (λ name, p ++ [name]) <$> entries fs (cwd ++ p)
    | _ => []
    end.

Fixpoint walk (depth : nat) (fs : files) (cwd : path) (level : list path)
    : list path :=
  match depth with
  | 0 => []
  | S depth' => level ++ walk depth' fs cwd (next_level fs cwd level)
  end.

(** The length of the longest path on the disk: no directory has entries
    further down, so more levels than this are all empty. *)
Definition height (fs : files) : nat :=
  foldr (λ kv h, Nat.max (length kv.1) h) 0 (map_to_list fs).

Definition queue (opts : tar_options) (fs : files) (fileList : list string)
    : list path :=
  walk (S (height fs)) fs (cwd opts) ((λ name, [name]) <$> fileList).

(** The archive of names none of which is a reference to an archive.
    [None]: a listed name is missing. *)
Definition pack (opts : tar_options) (fs : files) (fileList : list string)
    : option archive :=
  mapM (λ p, entry_of opts p <$> fs !! (cwd opts ++ p))
    (queue opts fs fileList).

End Tar.
Export Tar.

(** ** The script *)

(** What happens outside the process, in the order it happens. *)
Inductive event : Type :=
| Spawned (cmd : string)      (* a child process has been started *)
| Completed (cmd : string)    (* it has exited with status 0; output forwarded *)
| Failed (cmd : string)       (* it could not be run or exited otherwise *)
| Said (message : string).    (* console.log *)

(** What the script relies on and does not define. *)
Record external : Type := External {
  (** the grammar of [JSON.parse]: the document of a text, [None] for a
      SyntaxError *)
  JSON_parse_text : jsstring → option json;
  (** the text [JSON.stringify(_, null, 2)] lays out for a document *)
  JSON_print : json → jsstring;
  (** the bytes of an archive, gzipped or not, as the file holds them *)
  tar_bytes : bool → archive → jsstring;
  (** the archive that [tar.c] makes of a file list with references to
      archives, all of them files: what the parse of those archives gives and
      where their entries come to stand; [None] when an archive is broken *)
  spliced : tar_options → files → list string → option archive;
  (** a shell command: what it leaves on disk, [None] when it fails *)
  command : string → files → option files;
  (** how many of the pending archive jobs finish while the script awaits a
      command, before and after the command has had its effect *)
  settled_before : string → nat;
  settled_after : string → nat;
  (** owner, permissions and clock of the nodes the process creates *)
  now : stat;
}.

(** The state of a run: the disk, the archive jobs that [tar.c] has started
    and that have not finished, and the events so far (latest first). *)
Record state : Type := State {
  disk : files;
  pending : list (tar_options * list string);
  log : list event;
}.

(** A computation of the script either returns or throws, and leaves a
    state either way. *)
Definition M (A : Type) : Type := state → option A * state.

Definition throw {A} : M A := λ st, (None, st).

#[global] Instance M_ret : MRet M := λ A a st, (Some a, st).
#[global] Instance M_bind : MBind M := λ A B k m st,
  match m st with
  | (Some a, st') => k a st'
  | (None, st') => (None, st')
  end.

Definition emit (e : event) : M unit :=
  λ st, (Some (), State (disk st) (pending st) (e :: log st)).

(** A call that changes the disk or throws without changing it. *)
Definition on_disk (f : files → option files) : M unit :=
  λ st, match f (disk st) with
        | Some fs => (Some (), State fs (pending st) (log st))
        | None => (None, st)
        end.

(** A call that reads the disk. *)
Definition from_disk {A} (f : files → option A) : M A :=
  λ st, (f (disk st), st).

Section Script.

Variable E : external.

(** *** Names and paths *)

Definition ends_with (suffix name : string) : bool :=
  bool_decide (String.list_ascii_of_string suffix
                 `suffix_of` String.list_ascii_of_string name).

(** [path.basename(file, ext)] for a [file] without a slash. *)
Definition basename (file ext : string) : string :=
  if bool_decide (ext = EmptyString) then file
  else if bool_decide (ext = file) then EmptyString
  else if ends_with ext file then
    String.string_of_list_ascii
      (take (String.length file - String.length ext)
         (String.list_ascii_of_string file))
  else file.

(** [glob.sync("*" + ext, { cwd })]: the entries of [cwd] whose name ends
    in [ext]; the star does not match a leading dot.  A [cwd] that is no
    directory has no matches. *)
Definition glob_star (ext name : string) : bool :=
  ends_with ext name &&
  match name with
  | String "." _ => false
  | _ => true
  end.

Definition glob_sync (ext : string) (cwd : path) : M (list string) :=
  from_disk (λ fs,
    match kind_at fs cwd with
    | Some KDir => Some (filter (λ name, glob_star ext name) (entries fs cwd))
    | _ => Some []
    end).

(** *** [readFile] *)

Definition readFile (filePath : path) : M jsstring :=
  from_disk (λ fs, readFileSync fs filePath).

(** *** JSON *)

(** [JSON.parse(text)] *)
Definition JSON_parse (text : jsstring) : M value :=
  from_disk (λ _, internalize <$> JSON_parse_text E text).

(** [jsonfile.writeFileSync(dst, obj, { spaces: 2, EOL: "\n" })]: the text
    of [JSON.stringify(obj, null, 2)] followed by a line feed.  A value
    that serializes to undefined makes it throw. *)
Definition jsonfile_writeFileSync (dst : path) (obj : value) : M unit :=
  match externalize obj with
  | None => throw
  | Some doc =>
      on_disk (λ fs, writeFileSync (now E) fs dst (JSON_print E doc ++ [LF]))
  end.

(** *** [genTranslations] *)

(** The body of the [forEach]: [result[lang] = JSON.parse(readFile(...))]. *)
Definition add_translation (src : path) (result : prototype * properties)
    (file : string) : M (prototype * properties) :=
  let lang := basename file ".json" in
  text ← readFile (src ++ [file]);
  parsed ← JSON_parse text;
  mret (obj_set result.1 result.2 lang parsed).

Fixpoint forEach {A B} (body : B → A → M B) (acc : B) (l : list A) : M B :=
  match l with
  | [] => mret acc
  | x :: rest => acc' ← body acc x; forEach body acc' rest
  end.

Definition genTranslations (src dst : path) : M unit :=
  matches ← glob_sync ".json" src;
  result ← forEach (add_translation src) (ObjectPrototype, []) matches;
  jsonfile_writeFileSync dst (VObject result.1 result.2).

(** *** [genManifest] *)

Definition genManifest (src dst : path) : M unit :=
  pkg_text ← readFile (the_path "package.json");
  pkg ← JSON_parse pkg_text;
  text ← readFile src;
  result ← JSON_parse text;
  version ← from_disk (λ _, value_get pkg "version");
  result' ← from_disk (λ _, value_set result "version" version);
  jsonfile_writeFileSync dst result'.

(** *** [genTar] *)

(** [tar.c] is called with a [file], without [sync] and without a
    callback.  It first looks at the file list and throws a [TypeError]
    when the list is empty.  Otherwise it starts the archive and returns a
    promise at once.  The script neither keeps nor awaits the promise, so
    the archive is written by later turns of the event loop: the nodes are
    read and the destination is opened and written by requests that are
    answered there, and the state keeps them all as one pending job. *)
Definition start_archive (opts : tar_options) (fileList : list string)
    : M unit :=
  match fileList with
  | [] => throw
  | _ => λ st, (Some (),
                State (disk st) (pending st ++ [(opts, fileList)]) (log st))
  end.

Definition genTar (src dst : path) : M unit :=
  fileList ← from_disk (λ fs, readdirSync fs src);
  start_archive
    {| gzip := true; file := dst; cwd := src;
       portable := true; noMtime := true |}
    fileList.

(** The entries of an archive job.  Where a listed name is a reference to
    an archive, that archive must be a file that can be read: a reference to
    anything else fails the job. *)
Definition tar_entries (opts : tar_options) (fs : files)
    (fileList : list string) : option archive :=
  match omap archive_reference fileList with
  | [] => pack opts fs fileList
  | references =>
      if forallb (λ r, bool_decide (is_Some (file_at fs (cwd opts ++ [r]))))
           references
      then spliced E opts fs fileList
      else None
  end.

(** One archive job runs to its end: the entries are read and the archive
    file is written. *)
Definition finish_job (job : tar_options * list string) (fs : files)
    : option files :=
  archive ← tar_entries job.1 fs job.2;
  writeFileSync (now E) fs (file job.1) (tar_bytes E (gzip job.1) archive).

(** The event loop turns and the [n] oldest pending jobs finish.  A job
    that fails rejects a promise nobody handles, which ends the process;
    what it may have left at its destination by then is no archive, and the
    state does not record it. *)
Fixpoint settle (n : nat) : M unit :=
  match n with
  | 0 => mret ()
  | S n' => λ st,
      match pending st with
      | [] => (Some (), st)
      | job :: rest =>
          match finish_job job (disk st) with
          | Some fs => settle n' (State fs rest (log st))
          | None => (None, State (disk st) rest (log st))
          end
      end
  end.

(** *** [combine] *)

(** A literal of the script that is written in single quotes and contains
    double quotes: here the double quotes are written as apostrophes. *)
Definition quoted (s : string) : jsstring :=
  (λ c, if (c =? 39)%N then 34%N else c) <$> units s.

Definition link_app_css : jsstring :=
  quoted "<link rel='stylesheet' href='./app.css'>".
Definition link_viper_lib_css : jsstring :=
  quoted "<link rel='stylesheet' href='./viper_lib.css'>".
Definition script_app_js : jsstring :=
  quoted "<script src='./app.js'></script>".
Definition script_viper_lib_js : jsstring :=
  quoted "<script src='./viper_lib.js'></script>".

(** The template literals [`<style>\n${css}\n</style>`] and
    [`<script>\n${js}\n</script>`]. *)
Definition style_block (css : jsstring) : jsstring :=
  units "<style>" ++ [LF] ++ css ++ [LF] ++ units "</style>".
Definition script_block (js : jsstring) : jsstring :=
  units "<script>" ++ [LF] ++ js ++ [LF] ++ units "</script>".

(** Each argument of a [replace] is evaluated, so each file is read, just
    before that [replace] is applied. *)
Definition combine (filePath : path) : M unit :=
  content ← readFile filePath;
  app_css ← readFile (the_path "build/app.css");
  let content := replace content link_app_css (style_block app_css) in
  viper_lib_css ← readFile (the_path "build/viper_lib.css");
  let content :=
    replace content link_viper_lib_css (style_block viper_lib_css) in
  app_js ← readFile (the_path "build/app.js");
  let content := replace content script_app_js (script_block app_js) in
  viper_lib_js ← readFile (the_path "build/viper_lib.js");
  let content :=
    replace content script_viper_lib_js (script_block viper_lib_js) in
  on_disk (λ fs, writeFileSync (now E) fs filePath content).

(** *** [run] *)

(** [execPromise(cmd)] starts the child process during the call; the
    [await] then gives way to the event loop until the process has exited.
    On failure the error is reported and thrown again. *)
Definition awaited (cmd : string) : M unit :=
  settle (settled_before E cmd);;
  result ← (λ st, (Some (command E cmd (disk st)), st)) : M (option files);
  match result with
  | Some fs =>
      on_disk (λ _, Some fs);;
      emit (Completed cmd);;
      settle (settled_after E cmd)
  | None => emit (Failed cmd);; throw
  end.

Definition run (cmd : string) : M unit :=
  emit (Spawned cmd);;
  awaited cmd.

(** *** [main] *)

(** The options object [{ recursive: true, errorOnExist: true }] of the
    script: [force] is not given and has its default, [true]. *)
Definition cp_defaults : cp_options :=
  {| recursive := false; force := true; errorOnExist := false |}.

Definition staging_options : cp_options :=
  {| recursive := true; force := force cp_defaults; errorOnExist := true |}.

Definition cp (opts : cp_options) (src dst : path) : M unit :=
  λ st, let '(r, fs) := cpSync (now E) opts src dst (disk st) in
        (r, State fs (pending st) (log st)).

(** The stages of [main], as its comments divide it. *)

Definition reset : M unit :=
  on_disk (λ fs, Some (rmSync fs (the_path "build")));;
  on_disk (λ fs, mkdirSync (now E) fs (the_path "build/assets")).

Definition stage_assets : M unit :=
  cp staging_options (the_path "./assets") (the_path "./build/assets").

Definition stage_sources : M unit :=
  on_disk (λ fs, copyFileSync (now E) fs
                   (the_path "./src/webrepl_content.js")
                   (the_path "./build/webrepl_content.js")).

Definition generate_documents : M unit :=
  genTranslations (the_path "./src/lang/") (the_path "build/translations.json");;
  genManifest (the_path "./src/manifest.json") (the_path "build/manifest.json").

Definition tools_archive : tar_options :=
  {| gzip := true; file := the_path "build/assets/tools_vfs.tar.gz";
     cwd := the_path "src/tools_vfs"; portable := true; noMtime := true |}.

Definition vm_archive : tar_options :=
  {| gzip := true; file := the_path "build/assets/vm_vfs.tar.gz";
     cwd := the_path "src/vm_vfs"; portable := true; noMtime := true |}.

Definition start_archives : M unit :=
  genTar (the_path "src/tools_vfs") (the_path "build/assets/tools_vfs.tar.gz");;
  genTar (the_path "src/vm_vfs") (the_path "build/assets/vm_vfs.tar.gz").

Definition generate : M unit :=
  generate_documents;;
  start_archives.

Definition prepare : M unit :=
  reset;;
  stage_sources;;
  stage_assets;;
  generate.

Definition build : M unit :=
  installed ← from_disk (λ fs, Some (existsSync fs (the_path "node_modules")));
  (if negb installed then run "npm install" else mret ());;
  run "npx eslint";;
  run "npm run build".

Definition combine_everything : M unit :=
  combine (the_path "build/index.html");;
  combine (the_path "build/bridge.html");;
  combine (the_path "build/benchmark.html").

Definition intermediates : list path :=
  [ the_path "build/translations.json";
    the_path "build/app.css";
    the_path "build/viper_lib.css";
    the_path "build/app.js";
    the_path "build/viper_lib.js" ].

Definition cleanup : M unit :=
  on_disk (λ fs, unlinkSync fs (the_path "build/translations.json"));;
  on_disk (λ fs, unlinkSync fs (the_path "build/app.css"));;
  on_disk (λ fs, unlinkSync fs (the_path "build/viper_lib.css"));;
  on_disk (λ fs, unlinkSync fs (the_path "build/app.js"));;
  on_disk (λ fs, unlinkSync fs (the_path "build/viper_lib.js")).

Definition add_assets_from_packages : M unit :=
  on_disk (λ fs, copyFileSync (now E) fs
    (the_path "node_modules/@micropython/micropython-webassembly-pyscript/micropython.wasm")
    (the_path "./build/assets/micropython.wasm"));;
  on_disk (λ fs, copyFileSync (now E) fs
    (the_path "node_modules/@micropython/micropython-webassembly-pyscript/micropython.mjs")
    (the_path "./build/micropython.mjs"));;
  on_disk (λ fs, copyFileSync (now E) fs
    (the_path "node_modules/@pybricks/mpy-cross-v6/build/mpy-cross-v6.wasm")
    (the_path "./build/assets/mpy-cross-v6.wasm"));;
  on_disk (λ fs, copyFileSync (now E) fs
    (the_path "node_modules/@astral-sh/ruff-wasm-web/ruff_wasm_bg.wasm")
    (the_path "./build/assets/ruff_wasm_bg.wasm")).

Definition main : M unit :=
  prepare;;
  build;;
  combine_everything;;
  cleanup;;
  add_assets_from_packages;;
  emit (Said (String "010" "Build complete.")).

(** The process: [main()] runs; when it has returned, the event loop turns
    until no archive job is pending; when it has thrown, the process ends
    at once with the jobs that are left. *)
Definition drain : M unit := λ st, settle (length (pending st)) st.

Definition node_build_cjs : M unit := main;; drain.

End Script.

(** ** Vocabulary of the properties *)

(** The four targets of [combine], and what [combine] makes of a document
    given the texts of the four compiled files. *)
Definition placeholders : list jsstring :=
  [link_app_css; link_viper_lib_css; script_app_js; script_viper_lib_js].

Definition inline_steps (app_css viper_lib_css app_js viper_lib_js : jsstring)
    : list (jsstring * jsstring) :=
  [ (link_app_css, style_block app_css);
    (link_viper_lib_css, style_block viper_lib_css);
    (script_app_js, script_block app_js);
    (script_viper_lib_js, script_block viper_lib_js) ].

Definition inlined (steps : list (jsstring * jsstring)) (content : jsstring)
    : jsstring :=
  foldl (λ content step, replace content step.1 step.2) content steps.

Definition html_documents : list path :=
  [ the_path "build/index.html"; the_path "build/bridge.html";
    the_path "build/benchmark.html" ].

(** The files that the last stage takes from the installed packages, each
    with the place it gets in the build. *)
Definition vendored : list (path * path) :=
  [ (the_path "node_modules/@micropython/micropython-webassembly-pyscript/micropython.wasm",
     the_path "./build/assets/micropython.wasm");
    (the_path "node_modules/@micropython/micropython-webassembly-pyscript/micropython.mjs",
     the_path "./build/micropython.mjs");
    (the_path "node_modules/@pybricks/mpy-cross-v6/build/mpy-cross-v6.wasm",
     the_path "./build/assets/mpy-cross-v6.wasm");
    (the_path "node_modules/@astral-sh/ruff-wasm-web/ruff_wasm_bg.wasm",
     the_path "./build/assets/ruff_wasm_bg.wasm") ].

Definition compiled_assets : list path :=
  [ the_path "build/app.css"; the_path "build/viper_lib.css";
    the_path "build/app.js"; the_path "build/viper_lib.js" ].

(** The document of the file [file] in the directory [src], as
    [genTranslations] reads and parses it. *)
Definition parsed_at (E : external) (fs : files) (src : path) (file : string)
    : option json :=
  readFileSync fs (src ++ [file]) ≫= JSON_parse_text E.

(** A computation that starts no archive and causes no event. *)
Definition quiet {A} (m : M A) : Prop :=
  ∀ st r st', m st = (r, st') → pending st' = pending st ∧ log st' = log st.

(** A computation that causes no event. *)
Definition mute {A} (m : M A) : Prop :=
  ∀ st r st', m st = (r, st') → log st' = log st.

(** A computation that changes the disk below [root] only. *)
Definition confined {A} (root : path) (m : M A) : Prop :=
  ∀ st r st' q, m st = (r, st') → relative root q = None →
                disk st' !! q = disk st !! q.

(** The state in which a command has just been started. *)
Definition spawned (cmd : string) (st : state) : state :=
  State (disk st) (pending st) (Spawned cmd :: log st).

(** Two nodes with the same content: the same kind, the same permission
    bits and, for files, the same data.  Owners and timestamps may differ. *)
Definition same_node (a b : node) : Prop :=
  match a, b with
  | File m data, File m' data' => st_mode m = st_mode m' ∧ data = data'
  | Dir m, Dir m' => st_mode m = st_mode m'
  | _, _ => False
  end.

(** Every node below [root1] has its like at the same place below
    [root2]. *)
Definition tree_within (fs1 : files) (root1 : path) (fs2 : files)
    (root2 : path) : Prop :=
  Forall (λ rn, match rn.1, fs2 !! (root2 ++ rn.1) with
                | [], _ => True
                | _, Some n => same_node rn.2 n
                | _, None => False
                end)
    (subtree fs1 root1).

(** Two directories with identical contents: below them the same relative
    paths lead to nodes with the same content. *)
Definition same_tree (fs1 : files) (root1 : path) (fs2 : files) (root2 : path)
    : Prop :=
  tree_within fs1 root1 fs2 root2 ∧ tree_within fs2 root2 fs1 root1.


(** An entry that is named by the path of a node relative to [root]. *)
Definition names_node (fs : files) (root : path) (e : header * jsstring)
    : Prop :=
  h_path e.1 ≠ [] ∧ is_Some (fs !! (root ++ h_path e.1)).

(** What is left of a header when the metadata of the machine is gone. *)
Definition stripped (h : header) : Prop :=
  h_uid h = None ∧ h_gid h = None ∧ h_mtime h = None ∧ h_ctime h = None.

(** No proper non-empty prefix of [pat] is also a suffix of it: two
    occurrences of such a [pat] cannot overlap. *)
Definition border_free (pat : jsstring) : bool :=
  forallb (λ k, negb (bool_decide (take k pat = drop (length pat - k) pat)))
    (seq 1 (length pat - 1)).

(** The members of a document other than [k]. *)
Definition others {A} (k : string) (members : list (string * A))
    : list (string * A) :=
  filter (λ kv, kv.1 ≠ k) members.

(** What [JSON.stringify(JSON.parse(text))] writes for the document of
    [text]. *)
Definition reserialized (doc : json) : json :=
  default JNull (externalize (internalize doc)).

(** What the manifest claim asks of the members [out] written for a
    template with the members [template]: the version is [s], and the other
    members are those of the template, in their order. *)
Definition passed_through (template out : list (string * json)) (s : jsstring)
    : Prop :=
  get_own "version" out = Some (JString s) ∧
  others "version" out = others "version" template.

(** ** Example inputs *)

(** A source tree and stand-ins for the outside world, for running the
    script on concrete inputs.  The stand-in for the JSON grammar knows the
    texts of the examples only; the stand-in for the layout writes documents
    compactly. *)
Module Examples.

Definition some_stat : stat := Stat 420 1000 1000 1700000000 1700000000.
Definition build_time : stat := Stat 420 1000 1000 1800000000 1800000000.

(** A page with each of the four references once. *)
Definition page : jsstring :=
  units "<html><head>" ++ link_app_css ++ link_viper_lib_css
    ++ units "</head><body>" ++ script_app_js ++ script_viper_lib_js
    ++ units "</body></html>".

(** A compiled script that uses a replacement pattern of its own. *)
Definition app_js_text : jsstring := units "t=s.replace(/[aeiou]/g,'<$&>');".

Definition compiled : files :=
  list_to_map
    [ (the_path "build", Dir some_stat);
      (the_path "build/index.html", File some_stat page);
      (the_path "build/app.css", File some_stat (units "body{margin:0}"));
      (the_path "build/viper_lib.css", File some_stat (units ".viper{}"));
      (the_path "build/app.js", File some_stat app_js_text);
      (the_path "build/viper_lib.js", File some_stat (units "export{}")) ].

Definition known_documents : list (jsstring * json) :=
  [ (units "{}", JObject []);
    (quoted "{'hello':'Hello'}",
     JObject [("hello", JString (units "Hello"))]);
    (quoted "{'hello':'Bonjour'}",
     JObject [("hello", JString (units "Bonjour"))]);
    (quoted "{'name':'viper-ide','version':'1.2.3'}",
     JObject [("name", JString (units "viper-ide"));
              ("version", JString (units "1.2.3"))]);
    (quoted "{'name':'Viper','version':'0.0.0'}",
     JObject [("name", JString (units "Viper"));
              ("version", JString (units "0.0.0"))]);
    (quoted "{'version':'0.0.0','name':'Viper'}",
     JObject [("version", JString (units "0.0.0"));
              ("name", JString (units "Viper"))]);
    (quoted "{'name':'Viper','version':'0.0.0','128':'icon.png'}",
     JObject [("name", JString (units "Viper"));
              ("version", JString (units "0.0.0"));
              ("128", JString (units "icon.png"))]) ].

Definition parse_known (text : jsstring) : option json :=
  snd <$> find (λ entry, bool_decide (entry.1 = text)) known_documents.

Definition in_quotes (s : jsstring) : jsstring := [34%N] ++ s ++ [34%N].

Fixpoint separated (sep : jsstring) (parts : list jsstring) : jsstring :=
  match parts with
  | [] => []
  | [part] => part
  | part :: rest => part ++ sep ++ separated sep rest
  end.

Fixpoint compact (doc : json) : jsstring :=
  match doc with
  | JNull => units "null"
  | JBool true => units "true"
  | JBool false => units "false"
  | JNumber _ => units "0"
  | JString s => in_quotes s
  | JArray items => units "[" ++ separated (units ",") (map compact items)
                      ++ units "]"
  | JObject members =>
      units "{"
        ++ separated (units ",")
             ((fix each (ms : list (string * json)) : list jsstring :=
                 match ms with
                 | [] => []
                 | (k, j) :: rest =>
                     (in_quotes (units k) ++ units ":" ++ compact j) :: each rest
                 end) members)
        ++ units "}"
  end.

Definition put (p : string) (text : jsstring) (fs : files) : files :=
  <[path_of p := File build_time text]> fs.

(** The bundler writes the pages and the compiled styles and scripts; the
    other commands leave the disk as it is. *)
Definition commands (cmd : string) (fs : files) : option files :=
  if bool_decide (cmd = "npm run build") then
    Some (put "build/index.html" page
         (put "build/bridge.html" page
         (put "build/benchmark.html" page
         (put "build/app.css" (units "body{margin:0}")
         (put "build/viper_lib.css" (units ".viper{}")
         (put "build/app.js" (units "start()")
         (put "build/viper_lib.js" (units "export{}") fs)))))))
  else Some fs.

(** A stand-in for the archive format: every field of every header, then
    the data. *)
Definition written (e : header * jsstring) : jsstring :=
  units "[" ++ separated (units "/") (units <$> h_path e.1)
    ++ [ match h_type e.1 with RegularFile => 48%N | Directory => 53%N end;
         h_mode e.1; N.of_nat (h_size e.1) ]
    ++ option_list (h_uid e.1) ++ option_list (h_gid e.1)
    ++ option_list (h_mtime e.1) ++ option_list (h_ctime e.1)
    ++ units "]" ++ e.2.

Definition stub : external :=
  {| JSON_parse_text := parse_known;
     JSON_print := compact;
     tar_bytes := λ _ a, mjoin (written <$> a);
     spliced := λ _ _ _, None;
     command := commands;
     settled_before := λ _, 0;
     settled_after := λ cmd, if bool_decide (cmd = "npx eslint") then 1 else 0;
     now := build_time |}.


Definition source_tree (manifest : jsstring) (lang : list (string * jsstring))
    : files :=
  list_to_map
    ([ (the_path "package.json",
        File some_stat (quoted "{'name':'viper-ide','version':'1.2.3'}"));
       (the_path "assets", Dir some_stat);
       (the_path "assets/logo.svg", File some_stat (units "<svg/>"));
       (the_path "src", Dir some_stat);
       (the_path "src/webrepl_content.js", File some_stat (units "repl()"));
       (the_path "src/manifest.json", File some_stat manifest);
       (the_path "src/lang", Dir some_stat);
       (the_path "src/tools_vfs", Dir some_stat);
       (the_path "src/tools_vfs/tool.py", File some_stat (units "pass"));
       (the_path "src/vm_vfs", Dir some_stat);
       (the_path "src/vm_vfs/boot.py", File some_stat (units "import vm"));
       (the_path "node_modules", Dir some_stat);
       (the_path "node_modules/@micropython", Dir some_stat);
       (the_path "node_modules/@micropython/micropython-webassembly-pyscript",
        Dir some_stat);
       (the_path "node_modules/@micropython/micropython-webassembly-pyscript/micropython.wasm",
        File some_stat (units "wasm"));
       (the_path "node_modules/@micropython/micropython-webassembly-pyscript/micropython.mjs",
        File some_stat (units "mjs"));
       (the_path "node_modules/@pybricks", Dir some_stat);
       (the_path "node_modules/@pybricks/mpy-cross-v6", Dir some_stat);
       (the_path "node_modules/@pybricks/mpy-cross-v6/build", Dir some_stat);
       (the_path "node_modules/@pybricks/mpy-cross-v6/build/mpy-cross-v6.wasm",
        File some_stat (units "wasm"));
       (the_path "node_modules/@astral-sh", Dir some_stat);
       (the_path "node_modules/@astral-sh/ruff-wasm-web", Dir some_stat);
       (the_path "node_modules/@astral-sh/ruff-wasm-web/ruff_wasm_bg.wasm",
        File some_stat (units "wasm")) ]
     ++ ((λ entry, (the_path "src/lang" ++ [entry.1], File some_stat entry.2))
           <$> lang)).

(** The tree of the end-to-end scenario. *)
Definition sources : files :=
  source_tree (quoted "{'name':'Viper','version':'0.0.0'}")
    [ ("en.json", quoted "{'hello':'Hello'}");
      ("fr.json", quoted "{'hello':'Bonjour'}") ].

Definition fresh (fs : files) : state := State fs [] [].

(** The state in which the staging of a tree begins. *)
Definition after_reset (fs : files) : state := (reset stub (fresh fs)).2.

(** A project whose manifest template begins with its version. *)
Definition version_first : files :=
  source_tree (quoted "{'version':'0.0.0','name':'Viper'}") [].

(** A manifest template with a key that is an array index. *)
Definition indexed_template : jsstring :=
  quoted "{'name':'Viper','version':'0.0.0','128':'icon.png'}".

(** A translations directory with a file named after a property that every
    object inherits. *)
Definition with_proto_file : files :=
  source_tree (quoted "{'name':'Viper','version':'0.0.0'}")
    [ ("en.json", quoted "{'hello':'Hello'}");
      ("__proto__.json", units "{}") ].

(** A project whose [package.json] declares no version. *)
Definition without_version : files :=
  <[the_path "package.json" := File some_stat (units "{}")]> sources.

(** A translations directory with a file that is no JSON document. *)
Definition with_broken_file : files :=
  source_tree (quoted "{'name':'Viper','version':'0.0.0'}")
    [ ("en.json", quoted "{'hello':'Hello'}");
      ("xx.json", units "{oops") ].



(** A tools directory with a directory in it, and the same directory on
    another machine: in another place, owned by another user, touched at
    another time. *)
Definition nested (root : path) (owner time : N) : files :=
  list_to_map
    [ (root, Dir (Stat 493 owner owner time time));
      (root ++ ["x.py"], File (Stat 420 owner owner time time) (units "x = 1"));
      (root ++ ["sub"], Dir (Stat 493 owner owner time time));
      (root ++ ["sub"; "x.py"],
       File (Stat 420 owner owner time time) (units "x = 2"));
      (root ++ ["sub"; "deep"], Dir (Stat 493 owner owner time time));
      (root ++ ["sub"; "deep"; "z.py"],
       File (Stat 384 owner owner time time) (units "z = 3"));
      (root ++ ["a.py"], File (Stat 420 owner owner time time) (units "a = 0"));
      (["out"], Dir some_stat) ].

Definition nested_here : files := nested (the_path "src/tools_vfs") 1000 1700000000.
Definition nested_there : files := nested (the_path "home/ci/a") 33 1500000000.

(** A page without the reference to the application script, and a build
    directory in which that script is missing. *)
Definition plain_page : jsstring :=
  units "<html><head>" ++ link_app_css ++ link_viper_lib_css
    ++ units "</head><body>" ++ script_viper_lib_js
    ++ units "</body></html>".

Definition without_app_js : files :=
  list_to_map
    [ (the_path "build", Dir some_stat);
      (the_path "build/index.html", File some_stat plain_page);
      (the_path "build/app.css", File some_stat (units "body{margin:0}"));
      (the_path "build/viper_lib.css", File some_stat (units ".viper{}"));
      (the_path "build/viper_lib.js", File some_stat (units "export{}")) ].

End Examples.

(** * Properties *)

(** ** Literal search and replacement *)

Section StringFacts.

Implicit Types s pat tpl : jsstring.

Lemma starts_with_prefix pat s :
  starts_with pat s = true ↔ ∃ rest, s = pat ++ rest.
Proof.
  revert s. induction pat as [|a pat IH]; intros s; simpl.
  - split; [eauto | done].
  - destruct s as [|b s]; simpl.
    + split; [done | intros [rest ?]; done].
    + rewrite andb_true_iff, N.eqb_eq, IH. split.
      * intros [-> [rest ->]]. eauto.
      * intros [rest [= -> ->]]. eauto.
Qed.

Lemma occurs_at_starts pat s i :
  occurs_at pat i s ↔ i ≤ length s ∧ starts_with pat (drop i s) = true.
Proof.
  unfold occurs_at. rewrite starts_with_prefix. split.
  - intros (before & after & -> & <-). split.
    + rewrite length_app. lia.
    + exists after. by rewrite drop_app_length.
  - intros [Hi [rest Hrest]]. exists (take i s), rest. split.
    + by rewrite <- Hrest, take_drop.
    + rewrite length_take. lia.
Qed.

Lemma occurs_at_split pat s i :
  occurs_at pat i s →
  s = take i s ++ pat ++ drop (i + length pat) s.
Proof.
  intros (before & after & -> & <-).
  rewrite take_app_length, drop_app_add', drop_app_length; done.
Qed.

Lemma indexOf_from_Some s pat i p :
  indexOf_from s pat i = Some p ↔
    i ≤ p ∧ p - i ≤ length s ∧ starts_with pat (drop (p - i) s) = true ∧
    ∀ q, q < p - i → starts_with pat (drop q s) = false.
Proof.
  revert i p. induction s as [|c s IH]; intros i p.
  - cbn [indexOf_from]. destruct (starts_with pat []) eqn:Hsw.
    + split.
      * intros [= <-]. rewrite Nat.sub_diag. simpl.
        repeat split; [lia | lia | done | lia].
      * intros (Hle & Hlen & _). simpl in Hlen. f_equal. lia.
    + split; [done|]. intros (Hle & Hlen & Hocc & _).
      rewrite drop_nil in Hocc. congruence.
  - cbn [indexOf_from]. destruct (starts_with pat (c :: s)) eqn:Hsw.
    + split.
      * intros [= <-]. rewrite Nat.sub_diag. simpl.
        repeat split; [lia | lia | done | lia].
      * intros (Hle & Hlen & Hocc & Hmin). f_equal.
        destruct (decide (p - i = 0)) as [|Hne]; [lia|].
        specialize (Hmin 0). simpl in Hmin. rewrite Hmin in Hsw by lia.
        done.
    + rewrite IH. split.
      * intros (Hle & Hlen & Hocc & Hmin).
        replace (p - i) with (S (p - S i)) by lia.
        split; [lia|]. split; [simpl; lia|]. split; [exact Hocc|].
        intros [|q] Hq; [done|]. apply (Hmin q). lia.
      * intros (Hle & Hlen & Hocc & Hmin).
        destruct (decide (p - i = 0)) as [Hz|Hne].
        { rewrite Hz in Hocc. simpl in Hocc. congruence. }
        assert (i < p) as Hip by lia.
        replace (p - i) with (S (p - S i)) in * by lia.
        split; [lia|]. split; [simpl in Hlen; lia|]. split; [exact Hocc|].
        intros q Hq. apply (Hmin (S q)). lia.
Qed.

(** The search is for the exact sequence of code units, and it finds the
    first place where it occurs. *)
Lemma indexOf_Some s pat p :
  indexOf s pat = Some p ↔
    occurs_at pat p s ∧ ∀ q, q < p → ¬ occurs_at pat q s.
Proof.
  unfold indexOf. rewrite indexOf_from_Some, Nat.sub_0_r.
  setoid_rewrite occurs_at_starts. split.
  - intros (_ & Hlen & Hocc & Hmin). repeat split; [done..|].
    intros q Hq [_ Hq']. rewrite Hmin in Hq' by done. done.
  - intros ((Hlen & Hocc) & Hmin). repeat split; [lia | done..|].
    intros q Hq. apply not_true_is_false. intros Hq'.
    apply (Hmin q Hq). split; [lia | done].
Qed.

Lemma indexOf_from_None s pat i :
  indexOf_from s pat i = None ↔
    ∀ q, q ≤ length s → starts_with pat (drop q s) = false.
Proof.
  revert i. induction s as [|c s IH]; intros i.
  - cbn [indexOf_from]. destruct (starts_with pat []) eqn:Hsw.
    + split; [done|]. intros H. specialize (H 0). simpl in H.
      rewrite H in Hsw by lia. done.
    + split; [|done]. intros _ q Hq. by rewrite drop_nil.
  - cbn [indexOf_from]. destruct (starts_with pat (c :: s)) eqn:Hsw.
    + split; [done|]. intros H. specialize (H 0). simpl in H.
      rewrite H in Hsw by lia. done.
    + rewrite IH. split.
      * intros H [|q] Hq; [done|]. apply (H q). simpl in Hq. lia.
      * intros H q Hq. apply (H (S q)). simpl. lia.
Qed.

Lemma indexOf_None s pat :
  indexOf s pat = None ↔ ∀ q, ¬ occurs_at pat q s.
Proof.
  unfold indexOf. rewrite indexOf_from_None.
  setoid_rewrite occurs_at_starts. split.
  - intros H q [Hq Hocc]. rewrite H in Hocc by done. done.
  - intros H q Hq. apply not_true_is_false. intros Hocc. by apply (H q).
Qed.

(** A target that is not found leaves the string as it is. *)
Lemma replace_not_found s pat tpl :
  indexOf s pat = None → replace s pat tpl = s.
Proof. unfold replace. by intros ->. Qed.

Lemma replace_found s pat tpl p :
  indexOf s pat = Some p →
  replace s pat tpl =
    take p s ++ GetSubstitution pat s p tpl ++ drop (p + length pat) s.
Proof. unfold replace. by intros ->. Qed.

End StringFacts.

Section CombineFacts.

Variable E : external.

Lemma file_at_kind fs p m data :
  file_at fs p = Some (m, data) → kind_at fs p = Some KFile.
Proof.
  unfold file_at, kind_at. destruct p; [done|].
  destruct (fs !! _) as [[]|]; naive_solver.
Qed.

Lemma readFileSync_Some fs p data :
  readFileSync fs p = Some data ↔ ∃ m, file_at fs p = Some (m, data).
Proof.
  unfold readFileSync. destruct (file_at fs p) as [[m d]|]; simpl.
  - split; [intros [= ->]; eauto | intros [m' [= -> ->]]; done].
  - split; [done | intros [? ?]; done].
Qed.

(** What [combine] does when all five files can be read. *)
Lemma combine_reads_ok p st m doc a b c d :
  file_at (disk st) p = Some (m, doc) →
  readFileSync (disk st) (the_path "build/app.css") = Some a →
  readFileSync (disk st) (the_path "build/viper_lib.css") = Some b →
  readFileSync (disk st) (the_path "build/app.js") = Some c →
  readFileSync (disk st) (the_path "build/viper_lib.js") = Some d →
  combine E p st =
    (Some (),
     State (<[p := File (touched (now E) m) (inlined (inline_steps a b c d) doc)]>
              (disk st))
       (pending st) (log st)).
Proof.
  intros Hp Ha Hb Hc Hd.
  unfold combine, readFile, from_disk, on_disk, mbind, M_bind.
  unfold readFileSync at 1. rewrite Hp. simpl.
  rewrite Ha, Hb, Hc, Hd. unfold writeFileSync.
  rewrite (file_at_kind _ _ _ _ Hp), Hp. done.
Qed.

Lemma combine_unreadable_document p st :
  readFileSync (disk st) p = None → combine E p st = (None, st).
Proof.
  intros Hp. unfold combine, readFile, from_disk, mbind, M_bind.
  by rewrite Hp.
Qed.

Lemma border_free_no_overlap pat s p i :
  border_free pat = true →
  occurs_at pat p s → occurs_at pat i s → p < i → p + length pat ≤ i.
Proof.
  intros Hbf (b1 & a1 & Hs1 & Hp) (b2 & a2 & Hs2 & Hi) Hlt.
  destruct (decide (p + length pat ≤ i)) as [|Hover]; [done|]. exfalso.
  set (d := i - p). set (k := length pat - d).
  assert (0 < d ∧ d < length pat ∧ 0 < k ∧ k < length pat) as (?&?&?&?)
    by (unfold k, d; lia).
  unfold border_free in Hbf. rewrite forallb_forall in Hbf.
  specialize (Hbf k). rewrite negb_true_iff, bool_decide_eq_false in Hbf.
  apply Hbf; [apply in_seq; lia|].
  replace (length pat - k) with d by (unfold k; lia).
  assert (drop i s = pat ++ a2) as Hat_i.
  { rewrite Hs2, <- Hi. by rewrite drop_app_length. }
  assert (drop i s = drop d pat ++ a1) as Hat_p.
  { replace i with (p + d) by (unfold d; lia).
    rewrite <- drop_drop, Hs1 at 1. rewrite <- Hp, drop_app_length.
    rewrite drop_app_le by lia. done. }
  assert (take k (drop i s) = take k pat) as <-.
  { rewrite Hat_i, take_app_le by lia. done. }
  rewrite Hat_p, take_app_length'; [done|]. rewrite length_drop. done.
Qed.

Lemma placeholders_border_free pat :
  pat ∈ placeholders → border_free pat = true.
Proof.
  unfold placeholders. rewrite !elem_of_cons, elem_of_nil.
  intros [->|[->|[->|[->|[]]]]]; vm_compute; reflexivity.
Qed.

Lemma inline_steps_targets a b c d step :
  step ∈ inline_steps a b c d → step.1 ∈ placeholders.
Proof.
  unfold inline_steps, placeholders. rewrite !elem_of_cons, !elem_of_nil.
  intros [->|[->|[->|[->|[]]]]]; simpl; auto 6.
Qed.

Lemma inlined_absent steps content :
  (∀ step, step ∈ steps → indexOf content step.1 = None) →
  inlined steps content = content.
Proof.
  unfold inlined. induction steps as [|step steps IH]; intros H; [done|].
  simpl. rewrite replace_not_found by (apply H; left).
  apply IH. intros step' Hin. apply H. by right.
Qed.

Lemma file_at_insert fs p q n :
  p ≠ [] →
  file_at (<[p := n]> fs) q =
    if decide (p = q)
    then match n with File m data => Some (m, data) | Dir _ => None end
    else file_at fs q.
Proof.
  intros Hp. unfold file_at. destruct q as [|x q].
  - by rewrite decide_False.
  - rewrite lookup_insert. destruct (decide (p = x :: q)); [|done].
    by destruct n.
Qed.

Lemma file_at_nonempty fs p x : file_at fs p = Some x → p ≠ [].
Proof. by destruct p. Qed.

End CombineFacts.

(** C9. [combine] reads the four compiled files whatever the document holds:
    when one of them cannot be read it throws, and it has written nothing,
    also for a document in which the reference to that file does not occur. *)
Theorem combine_reads_every_asset E p st q :
  q ∈ compiled_assets →
  readFileSync (disk st) q = None →
  combine E p st = (None, st).
Proof.
  intros Hq Hmissing.
  destruct (readFileSync (disk st) p) as [doc|] eqn:Hp;
    [|by apply combine_unreadable_document].
  unfold compiled_assets in Hq. rewrite !elem_of_cons, elem_of_nil in Hq.
  unfold combine, readFile, from_disk, mbind, M_bind. rewrite Hp. simpl.
  destruct (readFileSync (disk st) (the_path "build/app.css")) eqn:Ha;
    [simpl | by simpl].
  destruct (readFileSync (disk st) (the_path "build/viper_lib.css")) eqn:Hb;
    [simpl | by simpl].
  destruct (readFileSync (disk st) (the_path "build/app.js")) eqn:Hc;
    [simpl | by simpl].
  destruct (readFileSync (disk st) (the_path "build/viper_lib.js")) eqn:Hd;
    [simpl | by simpl].
  destruct Hq as [->|[->|[->|[->|[]]]]]; congruence.
Qed.

(** C10. Each of the four substitutions of [combine] replaces the first
    occurrence of its target only: every other occurrence lies wholly behind
    the first one and stands in the output, followed by what followed it in
    the input. *)
Theorem replace_only_first_occurrence a b c d step doc p i :
  step ∈ inline_steps a b c d →
  indexOf doc step.1 = Some p →
  occurs_at step.1 i doc →
  i ≠ p →
  ∃ r, replace doc step.1 step.2
         = take p doc ++ r ++ drop (p + length step.1) doc ∧
       p + length step.1 ≤ i ∧
       occurs_at step.1 (i - length step.1 + length r)
         (replace doc step.1 step.2) ∧
       drop (i - length step.1 + length r) (replace doc step.1 step.2)
         = drop i doc.
Proof.
  intros Hstep Hfirst Hocc Hne.
  destruct step as [pat tpl]. simpl in *.
  pose proof (placeholders_border_free _ (inline_steps_targets _ _ _ _ _ Hstep))
    as Hbf. simpl in Hbf.
  pose proof Hfirst as [Hp Hmin]%indexOf_Some.
  assert (p < i) as Hlt.
  { destruct (decide (i < p)) as [Hip|]; [|lia]. by destruct (Hmin i Hip). }
  pose proof (border_free_no_overlap _ _ _ _ Hbf Hp Hocc Hlt) as Hfar.
  rewrite (replace_found _ _ _ _ Hfirst).
  set (r := GetSubstitution pat doc p tpl). exists r.
  destruct Hocc as (before & after & Hdoc & Hi).
  assert (p ≤ length doc) as Hplen.
  { destruct Hp as (? & ? & -> & <-). rewrite length_app. lia. }
  assert (drop (i - length pat + length r)
            (take p doc ++ r ++ drop (p + length pat) doc) = drop i doc) as Hdrop.
  { rewrite drop_app_ge by (rewrite length_take; lia).
    rewrite length_take, Nat.min_l by done.
    rewrite drop_app_ge by lia. rewrite drop_drop. f_equal. lia. }
  split; [done|]. split; [done|]. split; [|done].
  exists (take (i - length pat + length r)
            (take p doc ++ r ++ drop (p + length pat) doc)), after.
  split.
  - rewrite <- (take_drop (i - length pat + length r)
                  (take p doc ++ r ++ drop (p + length pat) doc)) at 1.
    f_equal. rewrite Hdrop, Hdoc, <- Hi. by rewrite drop_app_length.
  - rewrite length_take, !length_app, length_take, length_drop.
    rewrite Hdoc, !length_app in *. lia.
Qed.

Lemma replace_only_first_occurrence_witness :
  ∃ r, replace (link_app_css ++ link_app_css) link_app_css (style_block [])
         = take 0 (link_app_css ++ link_app_css) ++ r
             ++ drop (0 + length link_app_css) (link_app_css ++ link_app_css) ∧
       0 + length link_app_css ≤ 40 ∧
       occurs_at link_app_css (40 - length link_app_css + length r)
         (replace (link_app_css ++ link_app_css) link_app_css (style_block [])) ∧
       drop (40 - length link_app_css + length r)
         (replace (link_app_css ++ link_app_css) link_app_css (style_block []))
         = drop 40 (link_app_css ++ link_app_css).
Proof.
  apply (replace_only_first_occurrence [] [] [] []
           (link_app_css, style_block []) (link_app_css ++ link_app_css) 0 40).
  - left.
  - vm_compute. reflexivity.
  - exists link_app_css, []. split; vm_compute; reflexivity.
  - lia.
Defined.

(** C7. Each target of [combine] is searched as a literal sequence of code
    units, and a target that does not occur is passed over: the replacement
    returns its input.  So [combine] can be run again on its own output: it
    does not throw, and where none of the four targets occurs in that output
    the document keeps its text. *)
Theorem combine_skips_absent_targets E p st m doc a b c d :
  file_at (disk st) p = Some (m, doc) →
  readFileSync (disk st) (the_path "build/app.css") = Some a →
  readFileSync (disk st) (the_path "build/viper_lib.css") = Some b →
  readFileSync (disk st) (the_path "build/app.js") = Some c →
  readFileSync (disk st) (the_path "build/viper_lib.js") = Some d →
  (∀ content pat tpl,
     (∀ q, ¬ occurs_at pat q content) → replace content pat tpl = content) ∧
  ∃ st1 out,
    combine E p st = (Some (), st1) ∧
    readFileSync (disk st1) p = Some out ∧
    ∃ st2 out2,
      combine E p st1 = (Some (), st2) ∧
      readFileSync (disk st2) p = Some out2 ∧
      ((∀ pat q, pat ∈ placeholders → ¬ occurs_at pat q out) → out2 = out).
Proof.
  intros Hp Ha Hb Hc Hd. split.
  { intros content pat tpl Habsent. apply replace_not_found.
    by apply indexOf_None. }
  pose proof (file_at_nonempty _ _ _ Hp) as Hne.
  set (out := inlined (inline_steps a b c d) doc).
  set (fs1 := <[p := File (touched (now E) m) out]> (disk st)).
  exists (State fs1 (pending st) (log st)), out.
  split; [by apply combine_reads_ok|].
  assert (file_at fs1 p = Some (touched (now E) m, out)) as Hp1.
  { unfold fs1. rewrite file_at_insert by done. by rewrite decide_True. }
  split; [unfold readFileSync; simpl; by rewrite Hp1|].
  assert (∀ q x, readFileSync (disk st) q = Some x →
                 ∃ x', readFileSync fs1 q = Some x') as Hstill.
  { intros q x Hq. unfold readFileSync, fs1. rewrite file_at_insert by done.
    destruct (decide (p = q)); simpl; eauto. }
  destruct (Hstill _ _ Ha) as [a' Ha'], (Hstill _ _ Hb) as [b' Hb'],
    (Hstill _ _ Hc) as [c' Hc'], (Hstill _ _ Hd) as [d' Hd'].
  set (out2 := inlined (inline_steps a' b' c' d') out).
  exists (State (<[p := File (touched (now E) (touched (now E) m)) out2]> fs1)
            (pending st) (log st)), out2.
  split.
  { by apply (combine_reads_ok E p (State fs1 (pending st) (log st))
                (touched (now E) m) out a' b' c' d'). }
  split.
  { unfold readFileSync. simpl. rewrite file_at_insert by done.
    by rewrite decide_True. }
  intros Habsent. apply inlined_absent. intros step Hstep.
  apply indexOf_None. intros q. apply Habsent.
  by eapply inline_steps_targets.
Qed.

(** C2. At a page that holds each of the four references once, with a
    compiled script that itself contains the replacement pattern [$&]:
    [replace] expands the pattern, so the script block does not hold the
    text of the compiled file, and the reference to [app.js] is in the
    output again. *)
Theorem combine_expands_replacement_patterns E :
  Forall (λ pat, count_occ pat Examples.page = 1) placeholders ∧
  ∃ st' out,
    combine E (the_path "build/index.html") (State Examples.compiled [] [])
      = (Some (), st') ∧
    readFileSync (disk st') (the_path "build/index.html") = Some out ∧
    out = units "<html><head>"
            ++ style_block (units "body{margin:0}")
            ++ style_block (units ".viper{}")
            ++ units "</head><body>"
            ++ script_block
                 (units "t=s.replace(/[aeiou]/g,'<" ++ script_app_js
                    ++ units ">');")
            ++ script_block (units "export{}")
            ++ units "</body></html>" ∧
    count_occ script_app_js out = 1 ∧
    count_occ (script_block Examples.app_js_text) out = 0.
Proof.
  split; [repeat constructor|].
  eexists _, _. split.
  - apply (combine_reads_ok E _ _ Examples.some_stat Examples.page
             (units "body{margin:0}") (units ".viper{}")
             Examples.app_js_text (units "export{}")); reflexivity.
  - split.
    + unfold readFileSync. simpl disk. rewrite file_at_insert by done.
      rewrite decide_True by done. reflexivity.
    + split; [vm_compute; reflexivity|]. split; vm_compute; reflexivity.
Qed.

(** ** Objects and documents *)

Section ObjectFacts.

Context {A B : Type}.
Implicit Types (k : string) (l : list (string * A)).

Lemma define_fmap (f : A → B) k (x : A) l :
  prod_map id f <$> define k x l = define k (f x) (prod_map id f <$> l).
Proof.
  induction l as [|[k' v'] l IH]; csimpl; [done|].
  case_bool_decide; csimpl; [done|]. by rewrite IH.
Qed.

Lemma define_fresh k (x : A) l :
  k ∉ l.*1 → define k x l = l ++ [(k, x)].
Proof.
  induction l as [|[k' v'] l IH]; simpl; [done|].
  rewrite not_elem_of_cons. intros [Hne Hnotin].
  rewrite bool_decide_eq_false_2 by done. by rewrite IH.
Qed.

Lemma get_own_define k (x : A) l : get_own k (define k x l) = Some x.
Proof.
  induction l as [|[k' v'] l IH]; simpl.
  - by rewrite bool_decide_eq_true_2.
  - case_bool_decide as Hk; simpl.
    + by rewrite bool_decide_eq_true_2.
    + by rewrite bool_decide_eq_false_2.
Qed.

Lemma others_define k (x : A) l : others k (define k x l) = others k l.
Proof.
  unfold others. induction l as [|[k' v'] l IH]; simpl.
  - by rewrite filter_cons_False by naive_solver.
  - case_bool_decide as Hk; simpl.
    + subst k'. by rewrite !filter_cons_False by naive_solver.
    + by rewrite !filter_cons_True, IH by done.
Qed.

Lemma indexed_define k (x : A) l :
  array_index k = None → indexed (define k x l) = indexed l.
Proof.
  intros Hk. unfold indexed.
  induction l as [|[k' v'] l IH]; simpl; [by rewrite Hk|].
  case_bool_decide as Hk'; simpl.
  - subst k'. by rewrite Hk.
  - by rewrite IH.
Qed.

Lemma named_define k (x : A) l :
  array_index k = None → named (define k x l) = define k x (named l).
Proof.
  intros Hk. unfold named.
  induction l as [|[k' v'] l IH]; simpl.
  - by rewrite filter_cons_True.
  - case_bool_decide as Hk'; simpl.
    + subst k'. rewrite !filter_cons_True by done. simpl.
      by rewrite bool_decide_eq_true_2.
    + destruct (array_index k') eqn:Hidx.
      * rewrite !filter_cons_False by (simpl; congruence). done.
      * rewrite !filter_cons_True by done. simpl.
        rewrite bool_decide_eq_false_2 by done. by rewrite IH.
Qed.

Lemma own_properties_define k (x : A) l :
  array_index k = None →
  own_properties (define k x l) = (indexed l).*2 ++ define k x (named l).
Proof.
  intros Hk. unfold own_properties.
  by rewrite indexed_define, named_define.
Qed.

Lemma insert_index_keys (n : N) (kv : string * A) acc :
  (insert_index n kv acc).*2.*1 ≡ₚ kv.1 :: acc.*2.*1.
Proof.
  induction acc as [|[m y] acc IH]; simpl; [done|].
  destruct (n <? m)%N; simpl; [done|]. rewrite IH. apply Permutation_swap.
Qed.

Lemma indexed_keys l k :
  k ∈ (indexed l).*2.*1 → is_Some (array_index k).
Proof.
  unfold indexed. induction l as [|[k' v'] l IH]; simpl.
  - by rewrite elem_of_nil.
  - destruct (array_index k') eqn:Hidx; [|done].
    rewrite insert_index_keys, elem_of_cons. simpl.
    intros [->|?]; eauto.
Qed.

Lemma get_own_app_r k l1 l2 :
  k ∉ l1.*1 → get_own k (l1 ++ l2) = get_own k l2.
Proof.
  induction l1 as [|[k' v'] l1 IH]; simpl; [done|].
  rewrite not_elem_of_cons. intros [Hne Hnotin].
  by rewrite bool_decide_eq_false_2, IH.
Qed.

Lemma indexed_none l :
  (∀ k, k ∈ l.*1 → array_index k = None) →
  indexed l = [] ∧ named l = l.
Proof.
  unfold indexed, named. induction l as [|[k' v'] l IH]; simpl; [done|].
  intros H. rewrite (H k') by left. rewrite filter_cons_True by (apply H; left).
  destruct IH as [-> ->]; [|done]. intros k Hk. apply H. by right.
Qed.

End ObjectFacts.

Section DocumentFacts.

Lemma internalize_object members :
  internalize (JObject members) =
    VObject ObjectPrototype
      (foldl (λ acc kj, define kj.1 (internalize kj.2) acc) [] members).
Proof.
  simpl. f_equal. generalize (@nil (string * value)).
  induction members as [|[k j] members IH]; intros acc; simpl; [done|].
  apply IH.
Qed.

Lemma externalize_object proto props :
  externalize (VObject proto props) =
    Some (JObject (present (own_properties (prod_map id externalize <$> props)))).
Proof.
  simpl. do 4 f_equal.
  induction props as [|[k v] props IH]; csimpl; [done|]. by rewrite IH.
Qed.

Lemma externalize_internalize doc : is_Some (externalize (internalize doc)).
Proof. destruct doc; cbn [internalize externalize]; by eexists. Qed.

Lemma present_app {A} (l1 l2 : list (string * option A)) :
  present (l1 ++ l2) = present l1 ++ present l2.
Proof. unfold present. apply omap_app. Qed.

Lemma present_keys {A} (l : list (string * option A)) k :
  k ∈ (present l).*1 → k ∈ l.*1.
Proof.
  unfold present. induction l as [|[k' [x|]] l IH]; csimpl.
  - by rewrite elem_of_nil.
  - rewrite !elem_of_cons. intros [->|Hin]; auto.
  - rewrite elem_of_cons. auto.
Qed.

Lemma get_own_present_define {A} k (x : A) (l : list (string * option A)) :
  get_own k (present (define k (Some x) l)) = Some x.
Proof.
  unfold present. induction l as [|[k' [y|]] l IH]; csimpl.
  - by rewrite bool_decide_eq_true_2.
  - case_bool_decide as Hk; csimpl.
    + by rewrite bool_decide_eq_true_2.
    + by rewrite bool_decide_eq_false_2.
  - case_bool_decide as Hk; csimpl; [|done].
    by rewrite bool_decide_eq_true_2.
Qed.

Lemma others_app {A} k (l1 l2 : list (string * A)) :
  others k (l1 ++ l2) = others k l1 ++ others k l2.
Proof. unfold others. apply filter_app. Qed.

Lemma others_present_define {A} k (x : A) (l : list (string * option A)) :
  others k (present (define k (Some x) l)) = others k (present l).
Proof.
  unfold others, present. induction l as [|[k' [y|]] l IH]; csimpl.
  - by rewrite filter_cons_False by naive_solver.
  - case_bool_decide as Hk; csimpl.
    + subst k'. by rewrite !filter_cons_False by naive_solver.
    + by rewrite !filter_cons_True, IH by done.
  - case_bool_decide as Hk; csimpl; [|done].
    by rewrite filter_cons_False by naive_solver.
Qed.

(** [target.version = v] on a parsed object defines the own property. *)
Lemma value_set_version props v :
  value_set (VObject ObjectPrototype props) "version" v =
    Some (VObject ObjectPrototype (define "version" v props)).
Proof.
  unfold value_set, obj_set. destruct (has_own "version" props); done.
Qed.

(** The members written for a parsed object after [version] is set. *)
Lemma stamped_members props x j :
  externalize x = Some j →
  ∃ out plain,
    externalize (VObject ObjectPrototype (define "version" x props))
      = Some (JObject out) ∧
    externalize (VObject ObjectPrototype props) = Some (JObject plain) ∧
    get_own "version" out = Some j ∧
    others "version" out = others "version" plain.
Proof.
  intros Hx. eexists _, _. rewrite !externalize_object.
  split; [done|]. split; [done|].
  rewrite (define_fmap externalize "version" x props).
  cbn [prod_map id fst snd]. rewrite Hx.
  rewrite own_properties_define by done.
  unfold own_properties. rewrite !present_app. split.
  - rewrite get_own_app_r; [apply get_own_present_define|].
    intros Hin%present_keys%indexed_keys. by destruct Hin.
  - rewrite !others_app. by rewrite others_present_define.
Qed.

Lemma define_app_r {A} k (x : A) (l1 l2 : list (string * A)) :
  k ∉ l1.*1 → define k x (l1 ++ l2) = l1 ++ define k x l2.
Proof.
  induction l1 as [|[k' v'] l1 IH]; csimpl; [done|].
  rewrite not_elem_of_cons. intros [Hne Hnotin].
  rewrite bool_decide_eq_false_2 by done. by rewrite IH.
Qed.

Lemma present_define_some {A} k (x : A) (l : list (string * option A)) :
  Forall (λ kv, is_Some kv.2) l →
  present (define k (Some x) l) = define k x (present l).
Proof.
  unfold present. induction 1 as [|[k' v'] l [y Hy] _ IH]; csimpl; [done|].
  simpl in Hy. subst v'. case_bool_decide; csimpl.
  - by rewrite bool_decide_eq_true_2.
  - rewrite bool_decide_eq_false_2 by done. by rewrite IH.
Qed.

Lemma Forall_define {A} (P : string * A → Prop) k x l :
  P (k, x) → Forall P l → Forall P (define k x l).
Proof.
  intros Hx. induction 1 as [|[k' v'] l Hv Hl IH]; simpl.
  - by constructor.
  - case_bool_decide; by constructor.
Qed.

(** Every property of a parsed object has a value that is written. *)
Lemma internalized_written members :
  Forall (λ kv : string * value, is_Some (externalize kv.2))
    (foldl (λ acc kj, define kj.1 (internalize kj.2) acc) [] members).
Proof.
  assert (∀ acc : list (string * value),
            Forall (λ kv, is_Some (externalize kv.2)) acc →
            Forall (λ kv, is_Some (externalize kv.2))
              (foldl (λ acc kj, define kj.1 (internalize kj.2) acc) acc
                 members)) as Hall; [|apply Hall; constructor].
  induction members as [|[k j] members IH]; intros acc Hacc; simpl;
    [exact Hacc|].
  apply IH, Forall_define; [apply externalize_internalize | exact Hacc].
Qed.

(** Where every property is written, [version] is written in the place it
    has among them, or last when it is new. *)
Lemma stamped_in_place (props : properties) x j :
  externalize x = Some j →
  Forall (λ kv : string * value, is_Some (externalize kv.2)) props →
  ∃ out plain,
    externalize (VObject ObjectPrototype (define "version" x props))
      = Some (JObject out) ∧
    externalize (VObject ObjectPrototype props) = Some (JObject plain) ∧
    out = define "version" j plain.
Proof.
  intros Hx Hprops. eexists _, _. rewrite !externalize_object.
  split; [done|]. split; [done|].
  rewrite (define_fmap externalize "version" x props).
  cbn [prod_map id fst snd]. rewrite Hx.
  rewrite own_properties_define by done.
  unfold own_properties. rewrite !present_app.
  rewrite define_app_r.
  - f_equal. apply present_define_some. unfold named.
    apply Forall_forall.
    intros kv [_ ([k v] & -> & Hin)%list_elem_of_fmap]%list_elem_of_filter.
    rewrite Forall_forall in Hprops. apply (Hprops _ Hin).
  - intros Hin%present_keys%indexed_keys. by destruct Hin.
Qed.

Lemma foldl_define_fresh {A B} (f : B → A) (members : list (string * B)) acc :
  NoDup (acc.*1 ++ members.*1) →
  foldl (λ acc kj, define kj.1 (f kj.2) acc) acc members
    = acc ++ (prod_map id f <$> members).
Proof.
  revert acc. induction members as [|[k j] members IH]; intros acc Hnd; csimpl.
  - by rewrite app_nil_r.
  - csimpl in Hnd. apply NoDup_app in Hnd as (Hacc & Hdisj & Hms).
    apply NoDup_cons in Hms as [Hk Hms].
    rewrite define_fresh by (intros Hin; apply (Hdisj _ Hin); left).
    rewrite IH.
    + by rewrite <- app_assoc.
    + rewrite fmap_app. csimpl. apply NoDup_app. split_and!.
      * apply NoDup_app. split_and!; [done| |apply NoDup_singleton].
        intros k' Hin ->%list_elem_of_singleton.
        apply (Hdisj _ Hin). left.
      * intros k' [Hin| ->%list_elem_of_singleton]%elem_of_app Hin'.
        -- apply (Hdisj _ Hin). by right.
        -- done.
      * done.
Qed.

(** A parsed object whose keys are distinct and none an array index is
    written with its members in the order of the text. *)
Lemma reserialized_in_order members :
  (∀ k, k ∈ members.*1 → array_index k = None) →
  NoDup members.*1 →
  reserialized (JObject members)
    = JObject (prod_map id reserialized <$> members).
Proof.
  intros Hnamed Hnd. unfold reserialized at 1.
  rewrite internalize_object, externalize_object. simpl. f_equal.
  rewrite (foldl_define_fresh internalize members []) by done. simpl.
  rewrite <- list_fmap_compose.
  unfold own_properties.
  edestruct (indexed_none (A := option json)) as [-> ->].
  { intros k. rewrite <- list_fmap_compose.
    intros Hk. apply Hnamed. revert Hk. clear.
    induction members as [|[k' j] members IH]; csimpl; [done|].
    rewrite !elem_of_cons. naive_solver. }
  simpl. unfold present, reserialized. clear.
  induction members as [|[k j] members IH]; csimpl; [done|].
  destruct (externalize_internalize j) as [j' ->]. csimpl. by rewrite IH.
Qed.

End DocumentFacts.

(** ** Reading and writing files *)

Section DiskFacts.

Variable now : stat.

Lemma kind_at_insert_file fs p m data :
  p ≠ [] → kind_at (<[p := File m data]> fs) p = Some KFile.
Proof.
  intros Hp. unfold kind_at. destruct p; [done|]. by rewrite lookup_insert_eq.
Qed.

(** Whether a file can be written does not depend on the text; the text
    written is the text read back, and no other path changes. *)
Lemma writeFileSync_Some fs p data data' :
  is_Some (writeFileSync now fs p data) →
  ∃ m, writeFileSync now fs p data' = Some (<[p := File m data']> fs) ∧ p ≠ [].
Proof.
  unfold writeFileSync. intros [fs' H].
  destruct (kind_at fs p) as [[]|] eqn:Hk.
  - destruct (file_at fs p) as [[m d]|] eqn:Hf; [|done].
    exists (touched now m). split; [done|]. by destruct p.
  - done.
  - destruct (kind_at fs (parent p)) as [[]|]; [done| |done].
    exists now. split; [done|]. by destruct p.
Qed.

Lemma writeFileSync_again fs p m data data' :
  p ≠ [] → is_Some (writeFileSync now (<[p := File m data]> fs) p data').
Proof.
  intros Hp. unfold writeFileSync.
  rewrite kind_at_insert_file, file_at_insert, decide_True by done. eauto.
Qed.

Lemma writeFileSync_new fs p data :
  kind_at fs p = None → kind_at fs (parent p) = Some KDir →
  is_Some (writeFileSync now fs p data).
Proof. unfold writeFileSync. intros -> ->. eauto. Qed.

Lemma readFileSync_insert fs p q m data :
  p ≠ [] →
  readFileSync (<[p := File m data]> fs) q =
    if decide (p = q) then Some data else readFileSync fs q.
Proof.
  intros Hp. unfold readFileSync. rewrite file_at_insert by done.
  by destruct (decide (p = q)).
Qed.

End DiskFacts.

Section ManifestFacts.

Variable E : external.

Lemma genManifest_runs src dst st pkg_text pkg tpl_text tpl v result doc :
  readFileSync (disk st) (the_path "package.json") = Some pkg_text →
  JSON_parse_text E pkg_text = Some pkg →
  readFileSync (disk st) src = Some tpl_text →
  JSON_parse_text E tpl_text = Some tpl →
  value_get (internalize pkg) "version" = Some v →
  value_set (internalize tpl) "version" v = Some result →
  externalize result = Some doc →
  genManifest E src dst st =
    on_disk (λ fs, writeFileSync (now E) fs dst (JSON_print E doc ++ [LF])) st.
Proof.
  intros Hpkg Hparse Htpl Hparse' Hget Hset Hext.
  unfold genManifest, readFile, JSON_parse, from_disk, mbind, M_bind.
  rewrite Hpkg, Hparse. simpl. rewrite Htpl, Hparse'. simpl.
  rewrite Hget, Hset. unfold jsonfile_writeFileSync. by rewrite Hext.
Qed.

End ManifestFacts.

(** C6, as the code has it.  For a template that is a JSON object and a
    project version that is a string, [genManifest] writes the members that
    serializing the parsed template itself would write, with [version] set
    to that string in the place it has among them, or added last when the
    template has none.  The other members are those of the parsed template,
    in that order: JavaScript lists the array-index keys of an
    object first, in ascending order, and then the other keys in the order
    of the text.  So where the keys of the template are distinct and none is
    an array index, the other members stand in their original order.  Run
    again on the same inputs, it writes the same text. *)
Theorem genManifest_stamps_version E src dst st pkg_text pkg tpl_text members s :
  readFileSync (disk st) (the_path "package.json") = Some pkg_text →
  JSON_parse_text E pkg_text = Some pkg →
  value_get (internalize pkg) "version" = Some (VString s) →
  readFileSync (disk st) src = Some tpl_text →
  JSON_parse_text E tpl_text = Some (JObject members) →
  is_Some (writeFileSync (now E) (disk st) dst []) →
  dst ≠ src →
  dst ≠ the_path "package.json" →
  ∃ out plain st1 st2,
    genManifest E src dst st = (Some (), st1) ∧
    readFileSync (disk st1) dst = Some (JSON_print E (JObject out) ++ [LF]) ∧
    reserialized (JObject members) = JObject plain ∧
    passed_through plain out s ∧
    out = define "version" (JString s) plain ∧
    ((∀ k, k ∈ members.*1 → array_index k = None) → NoDup members.*1 →
     passed_through (prod_map id reserialized <$> members) out s) ∧
    genManifest E src dst st1 = (Some (), st2) ∧
    readFileSync (disk st2) dst = readFileSync (disk st1) dst.
Proof.
  intros Hpkg Hparse Hget Htpl Hparse' Hwritable Hsrc Hpackage.
  set (props := foldl (λ acc kj, define kj.1 (internalize kj.2) acc) []
                  members).
  destruct (stamped_members props (VString s) (JString s) eq_refl)
    as (out & plain & Hout & Hplain & Hversion & Hothers).
  destruct (writeFileSync_Some (now E) _ _ _ (JSON_print E (JObject out) ++ [LF])
              Hwritable) as (m & Hwrite & Hdst).
  set (fs1 := <[dst := File m (JSON_print E (JObject out) ++ [LF])]> (disk st)).
  destruct (writeFileSync_Some (now E) fs1 dst [] (JSON_print E (JObject out) ++ [LF]))
    as (m' & Hwrite' & _); [by apply writeFileSync_again|].
  assert (reserialized (JObject members) = JObject plain) as Hreserialized.
  { unfold reserialized. rewrite internalize_object. fold props.
    by rewrite Hplain. }
  assert (∀ st', readFileSync (disk st') (the_path "package.json") = Some pkg_text →
                readFileSync (disk st') src = Some tpl_text →
                genManifest E src dst st' =
                  on_disk (λ fs, writeFileSync (now E) fs dst
                                   (JSON_print E (JObject out) ++ [LF])) st')
    as Hrun.
  { intros st' Hpkg' Htpl'.
    apply (genManifest_runs E src dst st' pkg_text pkg tpl_text
             (JObject members) (VString s)
             (VObject ObjectPrototype (define "version" (VString s) props)));
      try done.
    rewrite internalize_object. apply value_set_version. }
  exists out, plain, (State fs1 (pending st) (log st)),
    (State (<[dst := File m' (JSON_print E (JObject out) ++ [LF])]> fs1)
       (pending st) (log st)).
  split.
  { rewrite Hrun by done. unfold on_disk. by rewrite Hwrite. }
  split.
  { simpl. unfold fs1. rewrite readFileSync_insert by done.
    by rewrite decide_True. }
  split; [done|]. split; [done|]. split.
  { destruct (stamped_in_place props (VString s) (JString s) eq_refl)
      as (out' & plain' & Hout' & Hplain' & Hplace);
      [apply internalized_written|].
    rewrite Hout in Hout'. rewrite Hplain in Hplain'.
    injection Hout' as <-. by injection Hplain' as <-. }
  split.
  { intros Hnamed Hnd. rewrite reserialized_in_order in Hreserialized by done.
    injection Hreserialized as <-. done. }
  split.
  { rewrite Hrun.
    - unfold on_disk. simpl. by rewrite Hwrite'.
    - simpl. unfold fs1. rewrite readFileSync_insert by done.
      by rewrite decide_False.
    - simpl. unfold fs1. rewrite readFileSync_insert by done.
      by rewrite decide_False. }
  simpl. unfold fs1. rewrite !readFileSync_insert by done.
  by rewrite !decide_True.
Qed.

Lemma genManifest_stamps_version_witness :
  readFileSync
    (disk (genManifest Examples.stub (the_path "./src/manifest.json")
             (the_path "build/manifest.json")
             (Examples.after_reset Examples.version_first)).2)
    (the_path "build/manifest.json")
  = Some (JSON_print Examples.stub
            (JObject [("version", JString (units "1.2.3"));
                      ("name", JString (units "Viper"))])
          ++ [LF]).
Proof.
  destruct (genManifest_stamps_version Examples.stub
              (the_path "./src/manifest.json") (the_path "build/manifest.json")
              (Examples.after_reset Examples.version_first)
              (quoted "{'name':'viper-ide','version':'1.2.3'}")
              (JObject [("name", JString (units "viper-ide"));
                        ("version", JString (units "1.2.3"))])
              (quoted "{'version':'0.0.0','name':'Viper'}")
              [("version", JString (units "0.0.0"));
               ("name", JString (units "Viper"))]
              (units "1.2.3"))
    as (out & plain & st1 & st2 & Hrun & Hread & Hplain & _ & Hplace & _).
  - vm_compute. reflexivity.
  - vm_compute. reflexivity.
  - vm_compute. reflexivity.
  - vm_compute. reflexivity.
  - vm_compute. reflexivity.
  - apply writeFileSync_new; vm_compute; reflexivity.
  - vm_compute. discriminate.
  - vm_compute. discriminate.
  - rewrite Hrun. cbn [snd]. rewrite Hread.
    vm_compute in Hplain. injection Hplain as <-. by rewrite Hplace.
Defined.

(** C6, as the claim states it, fails for a template with a key that is an
    array index: the member ["128"] stands last in the template and first in
    the manifest. *)
Lemma genManifest_moves_index_keys :
  let template := [("name", JString (units "Viper"));
                   ("version", JString (units "0.0.0"));
                   ("128", JString (units "icon.png"))] in
  let out := [("128", JString (units "icon.png"));
              ("name", JString (units "Viper"));
              ("version", JString (units "1.2.3"))] in
  let st := Examples.after_reset
              (Examples.source_tree Examples.indexed_template []) in
  let run := genManifest Examples.stub (the_path "./src/manifest.json")
               (the_path "build/manifest.json") st in
  JSON_parse_text Examples.stub Examples.indexed_template
    = Some (JObject template) ∧
  run.1 = Some () ∧
  readFileSync (disk run.2) (the_path "build/manifest.json")
    = Some (JSON_print Examples.stub (JObject out) ++ [LF]) ∧
  JSON_print Examples.stub (JObject out)
    = quoted "{'128':'icon.png','name':'Viper','version':'1.2.3'}" ∧
  ¬ passed_through template out (units "1.2.3").
Proof.
  cbv zeta. split; [vm_compute; reflexivity|].
  split; [vm_compute; reflexivity|].
  split; [vm_compute; reflexivity|]. split; [vm_compute; reflexivity|].
  intros [_ Hothers]. vm_compute in Hothers. discriminate.
Qed.

(** C5.  At a translations directory that holds [en.json] and
    [__proto__.json]: [glob] finds both, and the table that [genTranslations]
    writes has the one key [en].  The assignment [result["__proto__"] = ...]
    sets the prototype of [result] and creates no property. *)
Theorem genTranslations_loses_proto :
  let src := the_path "./src/lang/" in
  let dst := the_path "build/translations.json" in
  let st := Examples.after_reset Examples.with_proto_file in
  let run := genTranslations Examples.stub src dst st in
  (glob_sync ".json" src st).1 = Some ["__proto__.json"; "en.json"] ∧
  JSON_parse_text Examples.stub (units "{}") = Some (JObject []) ∧
  run.1 = Some () ∧
  readFileSync (disk run.2) dst
    = Some (JSON_print Examples.stub
              (JObject [("en", JObject [("hello", JString (units "Hello"))])])
            ++ [LF]) ∧
  JSON_print Examples.stub
    (JObject [("en", JObject [("hello", JString (units "Hello"))])])
    = quoted "{'en':{'hello':'Hello'}}".
Proof.
  cbv zeta. repeat split; vm_compute; reflexivity.
Qed.

(** ** What the calls on the disk leave alone *)

Section FrameFacts.

Variable now : stat.

Lemma relative_Some root p rel :
  relative root p = Some rel ↔ p = root ++ rel.
Proof.
  revert p. induction root as [|r root IH]; intros p; simpl.
  - split; [by intros [= ->] | by intros ->].
  - destruct p as [|x p]; [split; done|].
    case_bool_decide as Hrx.
    + subst x. rewrite IH. split; [by intros -> | by intros [= ->]].
    + split; [done | intros [= ? _]; done].
Qed.

Lemma relative_app root rel : relative root (root ++ rel) = Some rel.
Proof. by apply relative_Some. Qed.

Lemma rmSync_lookup fs p q :
  rmSync fs p !! q =
    match relative p q with Some _ => None | None => fs !! q end.
Proof.
  unfold rmSync. destruct (relative p q) eqn:Hrel.
  - apply map_lookup_filter_None. right. intros x _. simpl. congruence.
  - destruct (fs !! q) as [x|] eqn:Hq.
    + by apply map_lookup_filter_Some.
    + apply map_lookup_filter_None. by left.
Qed.


Lemma copyFileSync_lookup fs fs' src dst q :
  copyFileSync now fs src dst = Some fs' → q ≠ dst → fs' !! q = fs !! q.
Proof.
  unfold copyFileSync. intros Hcp Hq.
  destruct (file_at fs src) as [[m data]|]; [|done].
  destruct (kind_at fs dst) as [[]|]; [|done|].
  - injection Hcp as <-. by apply lookup_insert_ne.
  - destruct (kind_at fs (parent dst)) as [[]|]; [done| |done].
    injection Hcp as <-. by apply lookup_insert_ne.
Qed.

Lemma cp_node_lookup opts target n fs r fs' q :
  cp_node now opts target n fs = (r, fs') → q ≠ target →
  fs' !! q = fs !! q.
Proof.
  unfold cp_node. intros Hcp Hq.
  destruct n as [m data|m], (kind_at fs target) as [[]|];
    try destruct (force opts); try destruct (errorOnExist opts);
    injection Hcp as <- <-; try done; by apply lookup_insert_ne.
Qed.

Lemma cp_nodes_lookup opts dst todo fs r fs' q :
  cp_nodes now opts dst todo fs = (r, fs') → relative dst q = None →
  fs' !! q = fs !! q.
Proof.
  revert fs. induction todo as [|[rel n] todo IH]; intros fs; simpl.
  - by intros [= <- <-].
  - intros Hcp Hq.
    destruct (cp_node now opts (dst ++ rel) n fs) as [[[]|] fs1] eqn:Hnode.
    + rewrite (IH _ Hcp Hq). eapply cp_node_lookup; [done|].
      intros ->. by rewrite relative_app in Hq.
    + injection Hcp as <- <-. eapply cp_node_lookup; [done|].
      intros ->. by rewrite relative_app in Hq.
Qed.


Lemma subtree_elem fs root rel n :
  (rel, n) ∈ subtree fs root ↔ fs !! (root ++ rel) = Some n.
Proof.
  unfold subtree. rewrite list_elem_of_omap. split.
  - intros ([k n'] & Hin%elem_of_map_to_list & Hrel). simpl in Hrel.
    destruct (relative root k) as [rel'|] eqn:Hk; [|done].
    injection Hrel as -> ->. apply relative_Some in Hk as ->. done.
  - intros Hlookup. exists (root ++ rel, n). split.
    + by apply elem_of_map_to_list.
    + simpl. by rewrite relative_app.
Qed.

End FrameFacts.

(** ** Running the script *)

Section RunFacts.

Context {A B : Type}.

Lemma bind_returns (m : M A) (k : A → M B) st b st' :
  (m ≫= k) st = (Some b, st') →
  ∃ a st1, m st = (Some a, st1) ∧ k a st1 = (Some b, st').
Proof.
  unfold mbind, M_bind. destruct (m st) as [[a|] st1]; [eauto|done].
Qed.

Lemma bind_throws_first (m : M A) (k : A → M B) st st' :
  m st = (None, st') → (m ≫= k) st = (None, st').
Proof. unfold mbind, M_bind. by intros ->. Qed.

Lemma bind_continues (m : M A) (k : A → M B) st a st1 :
  m st = (Some a, st1) → (m ≫= k) st = k a st1.
Proof. unfold mbind, M_bind. by intros ->. Qed.

Lemma result_eta (x : option A * state) a : x.1 = Some a → x = (Some a, x.2).
Proof. destruct x as [? ?]. simpl. by intros ->. Qed.

End RunFacts.

Lemma on_disk_returns f st st' :
  on_disk f st = (Some (), st') →
  ∃ fs, f (disk st) = Some fs ∧ st' = State fs (pending st) (log st).
Proof.
  unfold on_disk. destruct (f (disk st)) as [fs|]; [|done].
  intros [= <-]. eauto.
Qed.

Section StagingFacts.

Variable E : external.


Lemma kind_at_reset fs :
  kind_at (rmSync fs (the_path "build")) (the_path "build") = None ∧
  kind_at (<[the_path "build" := Dir (now E)]> (rmSync fs (the_path "build")))
    (the_path "build/assets") = None.
Proof.
  unfold kind_at. rewrite lookup_insert_ne by discriminate.
  by rewrite !rmSync_lookup.
Qed.





End StagingFacts.



(** The members of a list that is written out, one by one. *)
Ltac each_member H :=
  repeat (apply elem_of_cons in H as [->|H]);
  [..| by apply elem_of_nil in H].

Section CleanupFacts.

Variable E : external.

Lemma unlink_returns p st st' :
  on_disk (λ fs, unlinkSync fs p) st = (Some (), st') →
  st' = State (delete p (disk st)) (pending st) (log st).
Proof.
  intros (fs & Hunlink & ->)%on_disk_returns. unfold unlinkSync in Hunlink.
  destruct (kind_at (disk st) p) as [[]|]; [|done..].
  by injection Hunlink as <-.
Qed.

Lemma copy_returns src dst st st' q :
  on_disk (λ fs, copyFileSync (now E) fs src dst) st = (Some (), st') →
  q ≠ dst → disk st' !! q = disk st !! q.
Proof.
  intros (fs & Hcopy & ->)%on_disk_returns Hq. simpl.
  by eapply copyFileSync_lookup.
Qed.

End CleanupFacts.

Section CleanupSteps.

Variable E : external.

Lemma cleanup_returns st st' :
  cleanup st = (Some (), st') →
  disk st' =
    delete (the_path "build/viper_lib.js")
      (delete (the_path "build/app.js")
        (delete (the_path "build/viper_lib.css")
          (delete (the_path "build/app.css")
            (delete (the_path "build/translations.json") (disk st))))).
Proof.
  intros Hrun. unfold cleanup in Hrun.
  apply bind_returns in Hrun as ([] & s1 & ->%unlink_returns & Hrun).
  apply bind_returns in Hrun as ([] & s2 & ->%unlink_returns & Hrun).
  apply bind_returns in Hrun as ([] & s3 & ->%unlink_returns & Hrun).
  apply bind_returns in Hrun as ([] & s4 & ->%unlink_returns & Hrun).
  by apply unlink_returns in Hrun as ->.
Qed.

Lemma intermediates_not_vendored p q :
  p ∈ intermediates →
  q ∈ [ the_path "./build/assets/micropython.wasm";
        the_path "./build/micropython.mjs";
        the_path "./build/assets/mpy-cross-v6.wasm";
        the_path "./build/assets/ruff_wasm_bg.wasm" ] →
  p ≠ q.
Proof.
  intros Hp Hq. unfold intermediates in Hp.
  each_member Hp; each_member Hq; vm_compute; discriminate.
Qed.

Lemma add_assets_from_packages_lookup st st' p :
  add_assets_from_packages E st = (Some (), st') →
  p ∈ intermediates →
  disk st' !! p = disk st !! p.
Proof.
  intros Hlast Hp. unfold add_assets_from_packages in Hlast.
  apply bind_returns in Hlast as ([] & s1 & H1 & Hlast).
  apply bind_returns in Hlast as ([] & s2 & H2 & Hlast).
  apply bind_returns in Hlast as ([] & s3 & H3 & H4).
  rewrite (copy_returns E _ _ _ _ p H4), (copy_returns E _ _ _ _ p H3),
    (copy_returns E _ _ _ _ p H2), (copy_returns E _ _ _ _ p H1);
    [done|..]; apply intermediates_not_vendored; try done;
    repeat first [apply list_elem_of_here | apply list_elem_of_further].
Qed.

End CleanupSteps.

(** C8, as the code has it.  After Cleanup the merged translations and the
    separated style and script files are not in the build directory, and
    every other path is as Cleanup found it: the HTML documents and the
    assets directory, and with them the manifest and whatever else the
    earlier stages have put there.  The last stage does not bring the five
    files back. *)
Theorem cleanup_removes_intermediates E st st' :
  cleanup st = (Some (), st') →
  (∀ p, p ∈ intermediates → disk st' !! p = None) ∧
  (∀ p, p ∉ intermediates → disk st' !! p = disk st !! p) ∧
  (∀ st'' p, add_assets_from_packages E st' = (Some (), st'') →
             p ∈ intermediates → disk st'' !! p = None).
Proof.
  intros Hdisk%cleanup_returns.
  assert (∀ p, p ∈ intermediates → disk st' !! p = None) as Hgone.
  { intros p Hp. rewrite Hdisk. unfold intermediates in Hp.
    each_member Hp; rewrite !lookup_delete; repeat case_decide; done. }
  split; [exact Hgone|]. split.
  - intros p Hp. rewrite Hdisk. unfold intermediates in Hp.
    rewrite !not_elem_of_cons in Hp. destruct Hp as (?&?&?&?&?&_).
    by rewrite !lookup_delete_ne.
  - intros st'' p Hlast Hp.
    rewrite (add_assets_from_packages_lookup E _ _ _ Hlast Hp).
    by apply Hgone.
Qed.

Lemma cleanup_removes_intermediates_witness :
  let before :=
    ((prepare Examples.stub ≫= λ _, build Examples.stub ≫= λ _,
      combine_everything Examples.stub) (Examples.fresh Examples.sources)).2 in
  disk (cleanup before).2 !! the_path "build/app.css" = None.
Proof.
  intros before.
  destruct (cleanup_removes_intermediates Examples.stub before
              (cleanup before).2) as [Hgone _].
  - apply result_eta. vm_compute. reflexivity.
  - apply Hgone.
    repeat first [apply list_elem_of_here | apply list_elem_of_further].
Defined.

(** C8, as the claim states it, fails in the end-to-end scenario: after
    Cleanup the build directory also holds the manifest and the staged
    source file, which are neither HTML documents nor in the assets
    directory. *)
Lemma cleanup_leaves_manifest :
  let after :=
    ((prepare Examples.stub ≫= λ _, build Examples.stub ≫= λ _,
      combine_everything Examples.stub ≫= λ _, cleanup)
       (Examples.fresh Examples.sources)) in
  after.1 = Some () ∧
  readFileSync (disk after.2) (the_path "build/manifest.json")
    = Some (quoted "{'name':'Viper','version':'1.2.3'}" ++ [LF]) ∧
  readFileSync (disk after.2) (the_path "build/webrepl_content.js")
    = Some (units "repl()") ∧
  ((the_path "build/manifest.json") ∉ html_documents) ∧
  relative (the_path "build/assets") (the_path "build/manifest.json") = None ∧
  ((the_path "build/webrepl_content.js") ∉ html_documents) ∧
  relative (the_path "build/assets") (the_path "build/webrepl_content.js")
    = None.
Proof.
  cbv zeta. split_and!; try (vm_compute; reflexivity);
    unfold html_documents; rewrite !not_elem_of_cons;
    split_and!; try discriminate; apply not_elem_of_nil.
Qed.

Lemma combine_reads_every_asset_witness :
  let st := Examples.fresh Examples.without_app_js in
  readFileSync (disk st) (the_path "build/index.html")
    = Some Examples.plain_page ∧
  indexOf Examples.plain_page script_app_js = None ∧
  combine Examples.stub (the_path "build/index.html") st = (None, st).
Proof.
  intros st. split; [vm_compute; reflexivity|].
  split; [vm_compute; reflexivity|].
  apply (combine_reads_every_asset Examples.stub (the_path "build/index.html")
           st (the_path "build/app.js")).
  - repeat first [apply list_elem_of_here | apply list_elem_of_further].
  - vm_compute. reflexivity.
Defined.

Lemma combine_skips_absent_targets_witness :
  ∃ st1 out,
    combine Examples.stub (the_path "build/index.html")
      (Examples.fresh Examples.compiled) = (Some (), st1) ∧
    readFileSync (disk st1) (the_path "build/index.html") = Some out ∧
    ∃ st2 out2,
      combine Examples.stub (the_path "build/index.html") st1 = (Some (), st2) ∧
      readFileSync (disk st2) (the_path "build/index.html") = Some out2 ∧
      ((∀ pat q, pat ∈ placeholders → ¬ occurs_at pat q out) → out2 = out).
Proof.
  apply (combine_skips_absent_targets Examples.stub
           (the_path "build/index.html") (Examples.fresh Examples.compiled)
           Examples.some_stat Examples.page
           (units "body{margin:0}") (units ".viper{}")
           Examples.app_js_text (units "export{}")); reflexivity.
Defined.

(** ** Archives *)

Section QuietFacts.

Variable E : external.

Lemma quiet_ret {A} (a : A) : quiet (mret a : M A).
Proof. by intros st r st' [= <- <-]. Qed.

Lemma quiet_throw {A} : quiet (throw : M A).
Proof. by intros st r st' [= <- <-]. Qed.

Lemma quiet_from_disk {A} (f : files → option A) : quiet (from_disk f).
Proof. by intros st r st' [= <- <-]. Qed.

Lemma quiet_on_disk f : quiet (on_disk f).
Proof.
  intros st r st'. unfold on_disk.
  destruct (f (disk st)); by intros [= <- <-].
Qed.

Lemma quiet_cp opts src dst : quiet (cp E opts src dst).
Proof.
  intros st r st'. unfold cp.
  destruct (cpSync _ _ _ _ _). by intros [= <- <-].
Qed.

Lemma quiet_bind {A B} (m : M A) (k : A → M B) :
  quiet m → (∀ a, quiet (k a)) → quiet (m ≫= k).
Proof.
  intros Hm Hk st r st'. unfold mbind, M_bind.
  destruct (m st) as [[a|] st1] eqn:Hrun.
  - intros Hrest. destruct (Hm _ _ _ Hrun) as [<- <-]. by eapply Hk.
  - intros [= <- <-]. by eapply Hm.
Qed.

Lemma quiet_forEach {A B} (body : B → A → M B) acc l :
  (∀ b a, quiet (body b a)) → quiet (forEach body acc l).
Proof.
  intros Hbody. revert acc. induction l as [|x l IH]; intros acc; simpl.
  - apply quiet_ret.
  - apply quiet_bind; [apply Hbody | intros ?; apply IH].
Qed.

Lemma quiet_jsonfile_writeFileSync dst obj :
  quiet (jsonfile_writeFileSync E dst obj).
Proof.
  unfold jsonfile_writeFileSync.
  destruct (externalize obj); [apply quiet_on_disk | apply quiet_throw].
Qed.

Lemma quiet_genTranslations src dst : quiet (genTranslations E src dst).
Proof.
  unfold genTranslations, glob_sync.
  apply quiet_bind; [apply quiet_from_disk | intros matches].
  apply quiet_bind; [|intros ?; apply quiet_jsonfile_writeFileSync].
  apply quiet_forEach. intros result file. unfold add_translation.
  apply quiet_bind; [apply quiet_from_disk | intros ?].
  apply quiet_bind; [apply quiet_from_disk | intros ?]. apply quiet_ret.
Qed.

Lemma quiet_genManifest src dst : quiet (genManifest E src dst).
Proof.
  unfold genManifest.
  repeat (apply quiet_bind; [apply quiet_from_disk | intros ?]).
  apply quiet_jsonfile_writeFileSync.
Qed.

Lemma quiet_staging :
  quiet (reset E ≫= λ _, stage_sources E ≫= λ _, stage_assets E ≫= λ _,
         generate_documents E).
Proof.
  apply quiet_bind; [|intros _].
  { apply quiet_bind; [|intros _]; apply quiet_on_disk. }
  apply quiet_bind; [apply quiet_on_disk | intros _].
  apply quiet_bind; [apply quiet_cp | intros _].
  apply quiet_bind; [apply quiet_genTranslations | intros _].
  apply quiet_genManifest.
Qed.

(** [genTar] lists the directory and returns: the archive is a pending
    job, and the disk is as it was. *)
Lemma genTar_returns src dst st st' :
  genTar src dst st = (Some (), st') →
  ∃ fileList,
    readdirSync (disk st) src = Some fileList ∧
    st' = State (disk st)
            (pending st ++ [(TarOptions true dst src true true, fileList)])
            (log st).
Proof.
  unfold genTar. intros (fileList & st0 & Hlist & Hstart)%bind_returns.
  unfold from_disk in Hlist. injection Hlist as Hlist <-.
  unfold start_archive in Hstart. destruct fileList as [|name rest]; [done|].
  injection Hstart as <-. eauto.
Qed.

End QuietFacts.

(** C3.  When the stage that generates the intermediates has returned, and
    with it [prepare], the two archives are pending jobs: the two calls of
    [genTar] have left the disk as the manifest stamper left it.  The next
    thing [main] does is to start a command, on that disk and with both jobs
    pending. *)
Theorem archives_pending_when_tools_start E fs st1 :
  prepare E (State fs [] []) = (Some (), st1) →
  ∃ st0 tools vm,
    (reset E ≫= λ _, stage_sources E ≫= λ _, stage_assets E ≫= λ _,
     generate_documents E) (State fs [] []) = (Some (), st0) ∧
    disk st1 = disk st0 ∧
    pending st1 = [(tools_archive, tools); (vm_archive, vm)] ∧
    build E st1 =
      if existsSync (disk st1) (the_path "node_modules")
      then (awaited E "npx eslint" ≫= λ _, run E "npm run build")
             (spawned "npx eslint" st1)
      else (awaited E "npm install" ≫= λ _, run E "npx eslint" ≫= λ _,
            run E "npm run build")
             (spawned "npm install" st1).
Proof.
  intros Hrun. unfold prepare, generate in Hrun.
  apply bind_returns in Hrun as ([] & s1 & Hreset & Hrun).
  apply bind_returns in Hrun as ([] & s2 & Hsources & Hrun).
  apply bind_returns in Hrun as ([] & s3 & Hassets & Hrun).
  apply bind_returns in Hrun as ([] & st0 & Hdocs & Harchives).
  unfold start_archives in Harchives.
  apply bind_returns in Harchives as ([] & s4 & Htools & Hvm).
  apply genTar_returns in Htools as (tools & _ & ->).
  apply genTar_returns in Hvm as (vm & _ & ->).
  assert ((reset E ≫= λ _, stage_sources E ≫= λ _, stage_assets E ≫= λ _,
           generate_documents E) (State fs [] []) = (Some (), st0)) as Hstaged.
  { rewrite (bind_continues _ _ _ _ _ Hreset).
    rewrite (bind_continues _ _ _ _ _ Hsources).
    by rewrite (bind_continues _ _ _ _ _ Hassets). }
  destruct (quiet_staging E _ _ _ Hstaged) as [Hpending _].
  exists st0, tools, vm. cbn [disk pending log]. rewrite Hpending.
  split; [done|]. split; [done|]. split; [done|].
  unfold build, from_disk, run, emit, spawned, mbind, M_bind.
  cbn [disk pending log]. by destruct (existsSync _ _).
Qed.

Lemma archives_pending_when_tools_start_witness :
  let st1 := (prepare Examples.stub (State Examples.sources [] [])).2 in
  pending st1 = [(tools_archive, ["tool.py"]); (vm_archive, ["boot.py"])] ∧
  disk st1 !! the_path "build/assets/tools_vfs.tar.gz" = None ∧
  disk st1 !! the_path "build/assets/vm_vfs.tar.gz" = None ∧
  log (spawned "npx eslint" st1) = [Spawned "npx eslint"].
Proof.
  cbv zeta.
  destruct (archives_pending_when_tools_start Examples.stub Examples.sources
              (prepare Examples.stub (State Examples.sources [] [])).2)
    as (st0 & tools & vm & _ & _ & Hpending & _).
  - apply (result_eta (prepare Examples.stub (State Examples.sources [] []))).
    vm_compute. reflexivity.
  - split.
    + vm_compute. reflexivity.
    + split. { vm_compute. reflexivity. }
      split. { vm_compute. reflexivity. }
      vm_compute. reflexivity.
Defined.

Section ArchiveRuns.

Variable E : external.

Lemma settle_one job rest st :
  pending st = job :: rest →
  settle E 1 st =
    match finish_job E job (disk st) with
    | Some fs => (Some (), State fs rest (log st))
    | None => (None, State (disk st) rest (log st))
    end.
Proof. intros Hpending. unfold settle. by rewrite Hpending. Qed.

(** One archive from the call of [genTar] to the end of its job. *)
Lemma genTar_settled src dst st st' :
  pending st = [] →
  (genTar src dst ≫= λ _, settle E 1) st = (Some (), st') →
  ∃ names archive,
    readdirSync (disk st) src = Some names ∧
    tar_entries E (TarOptions true dst src true true) (disk st) names
      = Some archive ∧
    readFileSync (disk st') dst = Some (tar_bytes E true archive).
Proof.
  intros Hnone ([] & st0 & Hgen & Hsettle)%bind_returns.
  apply genTar_returns in Hgen as (names & Hnames & ->).
  rewrite Hnone in Hsettle. cbn [app] in Hsettle.
  erewrite settle_one in Hsettle by (cbn [pending]; reflexivity).
  cbn [disk log] in Hsettle.
  destruct (finish_job E _ (disk st)) as [fs|] eqn:Hjob; [|done].
  injection Hsettle as <-. unfold finish_job in Hjob.
  cbn [fst snd gzip file] in Hjob.
  apply bind_Some in Hjob as (archive & Hpack & Hwrite).
  exists names, archive. split; [done|]. split; [done|].
  destruct (writeFileSync_Some (now E) (disk st) dst
              (tar_bytes E true archive) (tar_bytes E true archive))
    as (m & Hfs & Hdst); [by rewrite Hwrite|].
  rewrite Hwrite in Hfs. injection Hfs as ->. cbn [disk].
  rewrite readFileSync_insert by done. by rewrite decide_True.
Qed.


End ArchiveRuns.



(** * Further properties of the script *)

(** ** [combine] *)

Section InlineFacts.

Lemma GetSubstitution_without_dollar matched str position tpl :
  DOLLAR ∉ tpl → GetSubstitution matched str position tpl = tpl.
Proof.
  induction tpl as [|c tpl IH]; [done|].
  rewrite not_elem_of_cons. intros [Hc Htpl]. cbn [GetSubstitution].
  destruct (c =? DOLLAR)%N eqn:Heq.
  - apply N.eqb_eq in Heq. congruence.
  - by rewrite IH.
Qed.

Lemma style_block_without_dollar css :
  DOLLAR ∉ css → DOLLAR ∉ style_block css.
Proof.
  unfold style_block. rewrite !elem_of_app. intros Hcss [H|[H|[H|[H|H]]]];
    try done; vm_compute in H;
    repeat (apply elem_of_cons in H as [H|H]; [discriminate H|]);
    by apply elem_of_nil in H.
Qed.

Lemma script_block_without_dollar js :
  DOLLAR ∉ js → DOLLAR ∉ script_block js.
Proof.
  unfold script_block. rewrite !elem_of_app. intros Hjs [H|[H|[H|[H|H]]]];
    try done; vm_compute in H;
    repeat (apply elem_of_cons in H as [H|H]; [discriminate H|]);
    by apply elem_of_nil in H.
Qed.

(** [combine], case by case on the five files it reads. *)
Lemma combine_cases E p st :
  combine E p st =
    match file_at (disk st) p,
          readFileSync (disk st) (the_path "build/app.css"),
          readFileSync (disk st) (the_path "build/viper_lib.css"),
          readFileSync (disk st) (the_path "build/app.js"),
          readFileSync (disk st) (the_path "build/viper_lib.js") with
    | Some (m, doc), Some a, Some b, Some c, Some d =>
        (Some (),
         State (<[p := File (touched (now E) m)
                         (inlined (inline_steps a b c d) doc)]> (disk st))
           (pending st) (log st))
    | _, _, _, _, _ => (None, st)
    end.
Proof.
  destruct (file_at (disk st) p) as [[m doc]|] eqn:Hp.
  2:{ apply combine_unreadable_document. unfold readFileSync. by rewrite Hp. }
  destruct (readFileSync (disk st) (the_path "build/app.css")) as [a|] eqn:Ha,
    (readFileSync (disk st) (the_path "build/viper_lib.css")) as [b|] eqn:Hb,
    (readFileSync (disk st) (the_path "build/app.js")) as [c|] eqn:Hc,
    (readFileSync (disk st) (the_path "build/viper_lib.js")) as [d|] eqn:Hd;
    try (by apply combine_reads_ok);
    unfold combine, readFile, from_disk, mbind, M_bind;
    unfold readFileSync at 1; rewrite Hp; cbn [fmap option_fmap option_map snd];
    rewrite ?Ha; cbn iota beta; rewrite ?Hb; cbn iota beta;
    rewrite ?Hc; cbn iota beta; rewrite ?Hd; reflexivity.
Qed.

End InlineFacts.

(** X1.  Where the text of a compiled file holds no dollar sign, the
    substitution that inlines it puts the block with that very text in the
    place of the first occurrence of its target. *)
Theorem inline_step_verbatim a b c d step doc p :
  DOLLAR ∉ a → DOLLAR ∉ b → DOLLAR ∉ c → DOLLAR ∉ d →
  step ∈ inline_steps a b c d →
  indexOf doc step.1 = Some p →
  replace doc step.1 step.2
    = take p doc ++ step.2 ++ drop (p + length step.1) doc.
Proof.
  intros Ha Hb Hc Hd Hstep Hfound.
  rewrite (replace_found _ _ _ _ Hfound). f_equal. f_equal.
  apply GetSubstitution_without_dollar.
  unfold inline_steps in Hstep. each_member Hstep; cbn [snd];
    auto using style_block_without_dollar, script_block_without_dollar.
Qed.

Lemma inline_step_verbatim_witness :
  replace Examples.page link_app_css (style_block (units "body{margin:0}"))
  = take 12 Examples.page ++ style_block (units "body{margin:0}")
      ++ drop (12 + length link_app_css) Examples.page.
Proof.
  apply (inline_step_verbatim (units "body{margin:0}") [] [] []
           (link_app_css, style_block (units "body{margin:0}"))
           Examples.page 12).
  - vm_compute. intros H.
    repeat (apply elem_of_cons in H as [H|H]; [discriminate H|]).
    by apply elem_of_nil in H.
  - apply not_elem_of_nil.
  - apply not_elem_of_nil.
  - apply not_elem_of_nil.
  - apply list_elem_of_here.
  - vm_compute. reflexivity.
Defined.

(** X2.  [combine] writes to the document it is given and to nothing else:
    every other path, the pending archives and the events are as before; and
    when it throws, the disk is as before. *)
Theorem combine_touches_only_its_document E p st r st' :
  combine E p st = (r, st') →
  pending st' = pending st ∧
  log st' = log st ∧
  (∀ q, q ≠ p → disk st' !! q = disk st !! q) ∧
  (r = None → st' = st).
Proof.
  rewrite combine_cases.
  destruct (file_at (disk st) p) as [[m doc]|];
    [|by intros [= <- <-]].
  destruct (readFileSync (disk st) (the_path "build/app.css")) as [a|];
    [|by intros [= <- <-]].
  destruct (readFileSync (disk st) (the_path "build/viper_lib.css")) as [b|];
    [|by intros [= <- <-]].
  destruct (readFileSync (disk st) (the_path "build/app.js")) as [c|];
    [|by intros [= <- <-]].
  destruct (readFileSync (disk st) (the_path "build/viper_lib.js")) as [d|];
    [|by intros [= <- <-]].
  intros [= <- <-]. cbn [disk pending log].
  split; [done|]. split; [done|]. split; [|done].
  intros q Hq. by apply lookup_insert_ne.
Qed.

Lemma combine_touches_only_its_document_witness :
  disk (combine Examples.stub (the_path "build/index.html")
          (Examples.fresh Examples.compiled)).2
    !! the_path "build/app.js"
  = Examples.compiled !! the_path "build/app.js".
Proof.
  destruct (combine_touches_only_its_document Examples.stub
              (the_path "build/index.html") (Examples.fresh Examples.compiled)
              (combine Examples.stub (the_path "build/index.html")
                 (Examples.fresh Examples.compiled)).1
              (combine Examples.stub (the_path "build/index.html")
                 (Examples.fresh Examples.compiled)).2)
    as (_ & _ & Hframe & _).
  - by destruct (combine _ _ _).
  - apply Hframe. discriminate.
Defined.

(** ** [genTranslations] *)

Section NameFacts.

Lemma list_of_append s1 s2 :
  String.list_ascii_of_string (String.append s1 s2)
  = String.list_ascii_of_string s1 ++ String.list_ascii_of_string s2.
Proof. induction s1 as [|a s1 IH]; simpl; [done|]. by rewrite IH. Qed.

Lemma length_list_of s :
  length (String.list_ascii_of_string s) = String.length s.
Proof. induction s as [|a s IH]; simpl; [done|]. by rewrite IH. Qed.

Lemma string_of_list_inj s1 s2 :
  String.list_ascii_of_string s1 = String.list_ascii_of_string s2 → s1 = s2.
Proof.
  intros H. rewrite <- (String.string_of_list_ascii_of_string s1),
    <- (String.string_of_list_ascii_of_string s2). by rewrite H.
Qed.

Lemma basename_append file ext :
  ends_with ext file = true → String.append (basename file ext) ext = file.
Proof.
  intros Hends. pose proof Hends as [front Hfront]%bool_decide_eq_true.
  apply string_of_list_inj. rewrite list_of_append. unfold basename.
  rewrite Hends.
  case_bool_decide as Hempty; [subst ext; simpl; by rewrite app_nil_r|].
  case_bool_decide as Hsame; [by subst file|].
  rewrite String.list_ascii_of_string_of_list_ascii.
  rewrite <- !length_list_of, Hfront, length_app.
  replace (length front + _ - _) with (length front) by lia.
  by rewrite take_app_length.
Qed.

Lemma basename_inj file1 file2 ext :
  ends_with ext file1 = true → ends_with ext file2 = true →
  basename file1 ext = basename file2 ext → file1 = file2.
Proof.
  intros H1%basename_append H2%basename_append Heq. congruence.
Qed.

End NameFacts.

(** X3.  Every name that [glob] matches against [*.json] is its language
    code followed by [.json]; the code is not empty, and two matched files
    never have the same code. *)
Theorem matched_names_have_distinct_codes file1 file2 :
  glob_star ".json" file1 = true →
  glob_star ".json" file2 = true →
  String.append (basename file1 ".json") ".json" = file1 ∧
  basename file1 ".json" ≠ EmptyString ∧
  (basename file1 ".json" = basename file2 ".json" → file1 = file2).
Proof.
  unfold glob_star. intros [He1 Hdot]%andb_true_iff [He2 _]%andb_true_iff.
  pose proof (basename_append _ _ He1) as Happ. split; [done|]. split.
  - intros Hempty. rewrite Hempty in Happ. simpl in Happ. subst file1.
    discriminate Hdot.
  - by apply basename_inj.
Qed.

Lemma matched_names_have_distinct_codes_witness :
  String.append (basename "en.json" ".json") ".json" = "en.json" ∧
  basename "en.json" ".json" ≠ EmptyString ∧
  (basename "en.json" ".json" = basename "fr.json" ".json" →
   "en.json" = "fr.json").
Proof.
  apply (matched_names_have_distinct_codes "en.json" "fr.json");
    vm_compute; reflexivity.
Defined.

Section ListingFacts.

Lemma NoDup_omap_injective {A B} (f : A → option B) (l : list A) :
  NoDup l →
  (∀ x y z, x ∈ l → y ∈ l → f x = Some z → f y = Some z → x = y) →
  NoDup (omap f l).
Proof.
  induction 1 as [|x l Hx Hl IH]; intros Hinj; csimpl; [constructor|].
  assert (NoDup (omap f l)) as Hrest.
  { apply IH. intros a b z Ha Hb. apply Hinj; by right. }
  destruct (f x) as [z|] eqn:Hfx; [|done].
  constructor; [|done].
  intros (y & Hy & Hfy)%list_elem_of_omap.
  assert (x = y) as -> by (eapply Hinj; [left|by right|done..]). done.
Qed.

Lemma NoDup_entries fs p : NoDup (entries fs p).
Proof.
  unfold entries. rewrite merge_sort_Permutation. unfold subtree.
  apply NoDup_omap_injective.
  - apply NoDup_omap_injective.
    + apply NoDup_map_to_list.
    + intros [k1 n1] [k2 n2] [rel n] H1%elem_of_map_to_list
        H2%elem_of_map_to_list Hk1 Hk2. simpl in *.
      destruct (relative p k1) as [r1|] eqn:Hr1; [|done].
      destruct (relative p k2) as [r2|] eqn:Hr2; [|done].
      injection Hk1 as -> ->. injection Hk2 as -> ->.
      apply relative_Some in Hr1 as ->. apply relative_Some in Hr2 as ->.
      done.
  - intros [r1 n1] [r2 n2] name H1 H2 Hn1 Hn2. simpl in *.
    destruct r1 as [|x1 [|? ?]]; try done. injection Hn1 as ->.
    destruct r2 as [|x2 [|? ?]]; try done. injection Hn2 as ->.
    apply subtree_elem in H1. apply subtree_elem in H2.
    fold (subtree fs p) in *. congruence.
Qed.

Lemma glob_sync_matches ext cwd st matches :
  (glob_sync ext cwd st).1 = Some matches →
  glob_sync ext cwd st = (Some matches, st) ∧
  NoDup matches ∧
  ∀ file, file ∈ matches → glob_star ext file = true.
Proof.
  unfold glob_sync, from_disk. cbn [fst].
  destruct (kind_at (disk st) cwd) as [[]|]; intros [= <-];
    try (split; [done|]; split; [constructor|]; by intros ? ?%elem_of_nil).
  split; [done|]. split.
  - apply NoDup_filter, NoDup_entries.
  - intros file [Hstar _]%list_elem_of_filter. by destruct (glob_star ext file).
Qed.

End ListingFacts.

Section TableFacts.

Variable E : external.

Lemma obj_set_ordinary (props : properties) k v :
  k ≠ "__proto__" →
  obj_set ObjectPrototype props k v = (ObjectPrototype, define k v props).
Proof.
  intros Hk. unfold obj_set. destruct (has_own k props); [done|].
  cbn [climb]. by rewrite bool_decide_eq_false_2.
Qed.

(** The loop of [genTranslations] reads and parses; it changes nothing. *)
Lemma add_translations_stay src acc files st r st' :
  forEach (add_translation E src) acc files st = (r, st') → st' = st.
Proof.
  revert acc. induction files as [|file files IH]; intros acc; cbn [forEach].
  - by intros [= _ <-].
  - unfold mbind, M_bind, add_translation, readFile, JSON_parse, from_disk,
      mbind, M_bind, mret, M_ret.
    destruct (readFileSync (disk st) (src ++ [file])) as [text|];
      [|by intros [= _ <-]].
    destruct (JSON_parse_text E text) as [doc|]; cbn;
      [apply IH | by intros [= _ <-]].
Qed.

Lemma add_translations_run src acc files docs st :
  Forall2 (λ file doc, parsed_at E (disk st) src file = Some doc) files docs →
  forEach (add_translation E src) acc files st =
    (Some (foldl (λ result fd,
                    obj_set result.1 result.2 (basename fd.1 ".json")
                      (internalize fd.2))
             acc (zip files docs)),
     st).
Proof.
  intros Hall. revert acc.
  induction Hall as [|file doc files docs Hdoc _ IH]; intros acc; [done|].
  cbn [forEach zip zip_with foldl].
  unfold parsed_at in Hdoc. apply bind_Some in Hdoc as (text & Htext & Hdoc).
  unfold mbind at 1, M_bind at 1, add_translation, readFile, JSON_parse,
    from_disk, mbind, M_bind, mret, M_ret.
  rewrite Htext, Hdoc. cbn. apply IH.
Qed.

Lemma add_translations_throw src acc files st :
  Exists (λ file, parsed_at E (disk st) src file = None) files →
  forEach (add_translation E src) acc files st = (None, st).
Proof.
  intros Hbad. revert acc.
  induction Hbad as [file files Hfile|file files _ IH]; intros acc;
    cbn [forEach];
    unfold mbind at 1, M_bind at 1, add_translation, readFile, JSON_parse,
      from_disk, mbind, M_bind, mret, M_ret; unfold parsed_at in *.
  - destruct (readFileSync (disk st) (src ++ [file])) as [text|]; [|done].
    cbn in Hfile. by rewrite Hfile.
  - destruct (readFileSync (disk st) (src ++ [file])) as [text|]; [|done].
    destruct (JSON_parse_text E text) as [doc|]; cbn; [apply IH | done].
Qed.

Lemma fold_obj_set_ordinary (pairs : list (string * json)) props :
  (∀ fd, fd ∈ pairs → basename fd.1 ".json" ≠ "__proto__") →
  foldl (λ result fd,
           obj_set result.1 result.2 (basename fd.1 ".json")
             (internalize fd.2))
    (ObjectPrototype, props) pairs
  = (ObjectPrototype,
     foldl (λ acc fd, define (basename fd.1 ".json") (internalize fd.2) acc)
       props pairs).
Proof.
  revert props. induction pairs as [|fd pairs IH]; intros props Hkeys;
    cbn [foldl]; [done|].
  cbn [fst snd]. rewrite obj_set_ordinary by (apply Hkeys; left).
  apply IH. intros fd' Hin. apply Hkeys. by right.
Qed.

Lemma insert_index_perm {A} (n : N) (x : A) acc :
  (insert_index n x acc).*2 ≡ₚ x :: acc.*2.
Proof.
  induction acc as [|[m y] acc IH]; simpl; [done|].
  destruct (n <? m)%N; csimpl; [done|]. rewrite IH. apply Permutation_swap.
Qed.

(** [own_properties] lists every property, once. *)
Lemma own_properties_perm {A} (l : list (string * A)) : own_properties l ≡ₚ l.
Proof.
  unfold own_properties, indexed, named.
  induction l as [|[k v] l IH]; [done|]. cbn [foldr fst].
  destruct (array_index k) eqn:Hidx.
  - rewrite filter_cons_False by (simpl; congruence).
    rewrite insert_index_perm. csimpl. by rewrite IH.
  - rewrite filter_cons_True by done.
    rewrite <- Permutation_middle. by rewrite IH.
Qed.

Lemma get_own_elem {A} (l : list (string * A)) k v :
  NoDup l.*1 → (k, v) ∈ l → get_own k l = Some v.
Proof.
  induction l as [|[k' v'] l IH]; csimpl; [by intros _ ?%elem_of_nil|].
  intros [Hk' Hl]%NoDup_cons [[= -> ->]|Hin]%elem_of_cons.
  - by rewrite bool_decide_eq_true_2.
  - rewrite bool_decide_eq_false_2; [by apply IH|].
    intros ->. apply Hk'. apply list_elem_of_fmap. by exists (k, v).
Qed.

Lemma present_all {A B} (f : A → option B) (g : A → B) (l : list (string * A)) :
  (∀ x, f x = Some (g x)) →
  present (prod_map id f <$> l) = prod_map id g <$> l.
Proof.
  intros Hfg. unfold present. induction l as [|[k v] l IH]; csimpl; [done|].
  rewrite Hfg. csimpl. by rewrite IH.
Qed.

Lemma externalize_reserialized doc :
  externalize (internalize doc) = Some (reserialized doc).
Proof.
  unfold reserialized. by destruct (externalize_internalize doc) as [j ->].
Qed.

Lemma foldl_define_keys {A B} (key : B → string) (val : B → A)
    (pairs : list B) acc :
  NoDup (acc.*1 ++ (key <$> pairs)) →
  foldl (λ acc fd, define (key fd) (val fd) acc) acc pairs
    = acc ++ ((λ fd, (key fd, val fd)) <$> pairs).
Proof.
  revert acc. induction pairs as [|fd pairs IH]; intros acc Hnd; csimpl.
  - by rewrite app_nil_r.
  - csimpl in Hnd. apply NoDup_app in Hnd as (Hacc & Hdisj & Hms).
    apply NoDup_cons in Hms as [Hk Hms].
    rewrite define_fresh by (intros Hin; apply (Hdisj _ Hin); left).
    rewrite IH; [by rewrite <- app_assoc|].
    rewrite fmap_app. csimpl. apply NoDup_app. split_and!; [|  |done].
    + apply NoDup_app. split_and!; [done| |apply NoDup_singleton].
      intros k' Hin ->%list_elem_of_singleton. apply (Hdisj _ Hin). left.
    + intros k' [Hin| ->%list_elem_of_singleton]%elem_of_app Hin'.
      * apply (Hdisj _ Hin). by right.
      * done.
Qed.

(** What [genTranslations] writes when every matched file parses and none
    is named [__proto__.json]. *)
Lemma table_members (pairs : list (string * json)) :
  NoDup ((λ fd, basename fd.1 ".json") <$> pairs) →
  ∃ out,
    externalize
      (VObject ObjectPrototype
         (foldl (λ acc fd,
                   define (basename fd.1 ".json") (internalize fd.2) acc)
            [] pairs))
    = Some (JObject out) ∧
    out ≡ₚ (λ fd, (basename fd.1 ".json", reserialized fd.2)) <$> pairs.
Proof.
  intros Hnd. eexists. split; [apply externalize_object|].
  rewrite (foldl_define_keys (λ fd : string * json, basename fd.1 ".json")
             (λ fd, internalize fd.2)) by done.
  cbn [app]. unfold present. rewrite own_properties_perm.
  fold (@present json). rewrite <- list_fmap_compose.
  induction pairs as [|[file doc] pairs IH]; csimpl; [done|].
  unfold present. csimpl. rewrite externalize_reserialized. csimpl.
  apply Permutation_skip. apply IH. by apply NoDup_cons in Hnd as [_ ?].
Qed.

End TableFacts.

Section TranslationRuns.

Variable E : external.

Lemma genTranslations_runs src dst st matches docs :
  (glob_sync ".json" src st).1 = Some matches →
  Forall2 (λ file doc, parsed_at E (disk st) src file = Some doc) matches docs →
  "__proto__.json" ∉ matches →
  ∃ out,
    genTranslations E src dst st =
      on_disk (λ fs, writeFileSync (now E) fs dst
                       (JSON_print E (JObject out) ++ [LF])) st ∧
    out ≡ₚ (λ fd, (basename fd.1 ".json", reserialized fd.2))
             <$> zip matches docs.
Proof.
  intros (Hglob & Hnd & Hstar)%glob_sync_matches Hdocs Hproto.
  assert ((zip matches docs).*1 = matches) as Hfst.
  { apply fst_zip. by rewrite (Forall2_length _ _ _ Hdocs). }
  assert (∀ fd, fd ∈ zip matches docs → glob_star ".json" fd.1 = true)
    as Hstar'.
  { intros fd Hin. apply Hstar. rewrite <- Hfst.
    apply list_elem_of_fmap. by exists fd. }
  assert (∀ fd, fd ∈ zip matches docs →
                ends_with ".json" fd.1 = true) as Hends.
  { intros fd [? _]%Hstar'%andb_true_iff. done. }
  destruct (table_members (zip matches docs)) as (out & Hout & Hperm).
  { assert ((λ fd : string * json, basename fd.1 ".json") <$> zip matches docs
            = (λ file, basename file ".json") <$> matches) as ->.
    { rewrite <- Hfst at 2. by rewrite <- list_fmap_compose. }
    apply NoDup_fmap_2_strong; [|done].
    intros fd1 fd2 H1 H2.
    apply basename_inj.
    - by destruct (proj1 (andb_true_iff _ _) (Hstar _ H1)).
    - by destruct (proj1 (andb_true_iff _ _) (Hstar _ H2)). }
  exists out. split; [|done].
  unfold genTranslations. rewrite (bind_continues _ _ _ _ _ Hglob).
  rewrite (bind_continues _ _ _ _ _
             (add_translations_run E src _ matches docs st Hdocs)).
  rewrite fold_obj_set_ordinary.
  - cbn [fst snd]. unfold jsonfile_writeFileSync. by rewrite Hout.
  - intros fd Hin Hkey. apply Hproto. rewrite <- Hfst.
    apply list_elem_of_fmap. exists fd. split; [|done].
    rewrite <- (basename_append fd.1 ".json") by by apply Hends.
    by rewrite Hkey.
Qed.

End TranslationRuns.

(** X4.  Where every file that [glob] matches in the source directory can
    be read and parsed, and none is named [__proto__.json], the table that
    [genTranslations] writes has one member for each matched file: its key
    is the name of the file without [.json], its value is what serializing
    the parsed document gives.  No other path of the disk changes. *)
Theorem genTranslations_table E src dst st matches docs :
  (glob_sync ".json" src st).1 = Some matches →
  Forall2 (λ file doc, parsed_at E (disk st) src file = Some doc) matches docs →
  "__proto__.json" ∉ matches →
  is_Some (writeFileSync (now E) (disk st) dst []) →
  ∃ out st',
    genTranslations E src dst st = (Some (), st') ∧
    readFileSync (disk st') dst = Some (JSON_print E (JObject out) ++ [LF]) ∧
    out ≡ₚ (λ fd, (basename fd.1 ".json", reserialized fd.2))
             <$> zip matches docs ∧
    (∀ q, q ≠ dst → disk st' !! q = disk st !! q).
Proof.
  intros Hglob Hdocs Hproto Hwritable.
  destruct (genTranslations_runs E src dst st matches docs Hglob Hdocs Hproto)
    as (out & Hrun & Hperm).
  destruct (writeFileSync_Some (now E) _ _ _
              (JSON_print E (JObject out) ++ [LF]) Hwritable)
    as (m & Hwrite & Hdst).
  eexists out, _. rewrite Hrun. unfold on_disk. rewrite Hwrite.
  split; [done|]. cbn [disk]. split.
  - rewrite readFileSync_insert by done. by rewrite decide_True.
  - split; [done|]. intros q Hq. by apply lookup_insert_ne.
Qed.

Lemma genTranslations_table_witness :
  ∃ out st',
    genTranslations Examples.stub (the_path "./src/lang/")
      (the_path "build/translations.json")
      (Examples.after_reset Examples.sources) = (Some (), st') ∧
    readFileSync (disk st') (the_path "build/translations.json")
      = Some (JSON_print Examples.stub (JObject out) ++ [LF]) ∧
    out ≡ₚ (λ fd, (basename fd.1 ".json", reserialized fd.2))
             <$> zip ["en.json"; "fr.json"]
                   [JObject [("hello", JString (units "Hello"))];
                    JObject [("hello", JString (units "Bonjour"))]] ∧
    (∀ q, q ≠ the_path "build/translations.json" →
          disk st' !! q = disk (Examples.after_reset Examples.sources) !! q).
Proof.
  apply (genTranslations_table Examples.stub).
  - vm_compute. reflexivity.
  - constructor; [vm_compute; reflexivity|].
    constructor; [vm_compute; reflexivity|]. constructor.
  - intros H. repeat (apply elem_of_cons in H as [H|H]; [discriminate H|]).
    by apply elem_of_nil in H.
  - apply writeFileSync_new; vm_compute; reflexivity.
Defined.

(** X5.  A source directory that does not exist, or is no directory, is no
    error for [genTranslations]: it writes the empty table. *)
Theorem genTranslations_without_directory E src dst st :
  kind_at (disk st) src ≠ Some KDir →
  is_Some (writeFileSync (now E) (disk st) dst []) →
  ∃ st',
    genTranslations E src dst st = (Some (), st') ∧
    readFileSync (disk st') dst = Some (JSON_print E (JObject []) ++ [LF]).
Proof.
  intros Hsrc Hwritable.
  destruct (genTranslations_runs E src dst st [] []) as (out & Hrun & Hperm).
  { unfold glob_sync, from_disk. cbn [fst].
    by destruct (kind_at (disk st) src) as [[]|]. }
  { constructor. }
  { apply not_elem_of_nil. }
  apply Permutation_nil_r in Hperm as ->.
  destruct (writeFileSync_Some (now E) _ _ _
              (JSON_print E (JObject []) ++ [LF]) Hwritable)
    as (m & Hwrite & Hdst).
  eexists. rewrite Hrun. unfold on_disk. rewrite Hwrite.
  split; [done|]. cbn [disk].
  rewrite readFileSync_insert by done. by rewrite decide_True.
Qed.

Lemma genTranslations_without_directory_witness :
  ∃ st',
    genTranslations Examples.stub (the_path "./src/nowhere/")
      (the_path "build/translations.json")
      (Examples.after_reset Examples.sources) = (Some (), st') ∧
    readFileSync (disk st') (the_path "build/translations.json")
      = Some (JSON_print Examples.stub (JObject []) ++ [LF]).
Proof.
  apply (genTranslations_without_directory Examples.stub).
  - vm_compute. discriminate.
  - apply writeFileSync_new; vm_compute; reflexivity.
Defined.

(** X6.  A matched file that cannot be read, or whose text is no JSON
    document, is fatal for [genTranslations]: it throws, and it has written
    nothing, whatever the other files hold. *)
Theorem genTranslations_fatal E src dst st matches :
  (glob_sync ".json" src st).1 = Some matches →
  Exists (λ file, parsed_at E (disk st) src file = None) matches →
  genTranslations E src dst st = (None, st).
Proof.
  intros (Hglob & _)%glob_sync_matches Hbad.
  unfold genTranslations. rewrite (bind_continues _ _ _ _ _ Hglob).
  apply bind_throws_first. by apply add_translations_throw.
Qed.

Lemma genTranslations_fatal_witness :
  genTranslations Examples.stub (the_path "./src/lang/")
    (the_path "build/translations.json")
    (Examples.after_reset Examples.with_broken_file)
  = (None, Examples.after_reset Examples.with_broken_file).
Proof.
  apply (genTranslations_fatal Examples.stub _ _ _
           (default [] (glob_sync ".json" (the_path "./src/lang/")
              (Examples.after_reset Examples.with_broken_file)).1)).
  - vm_compute. reflexivity.
  - apply Exists_exists. exists "xx.json". split.
    + vm_compute. repeat first [apply list_elem_of_here | apply list_elem_of_further].
    + vm_compute. reflexivity.
Defined.

(** ** [genManifest] *)

Section VersionFacts.

Lemma define_keys {A} k (x : A) (l : list (string * A)) :
  (define k x l).*1 = if bool_decide (k ∈ l.*1) then l.*1 else l.*1 ++ [k].
Proof.
  induction l as [|[k' v'] l IH]; [done|].
  cbn [define]. rewrite fmap_cons. cbn [fst].
  destruct (decide (k' = k)) as [->|Hne].
  - rewrite !bool_decide_eq_true_2; [done|left|done].
  - rewrite (bool_decide_eq_false_2 (k' = k)) by done.
    rewrite fmap_cons, IH. cbn [fst].
    destruct (decide (k ∈ l.*1)) as [Hin|Hnotin].
    + rewrite !bool_decide_eq_true_2; [done|by right|done].
    + rewrite !bool_decide_eq_false_2; [done| |done].
      rewrite not_elem_of_cons. split; [congruence|done].
Qed.

Lemma NoDup_define {A} k (x : A) (l : list (string * A)) :
  NoDup l.*1 → NoDup (define k x l).*1.
Proof.
  intros Hnd. rewrite define_keys. case_bool_decide as Hin; [done|].
  apply NoDup_app. split_and!; [done| |apply NoDup_singleton].
  intros k' Hk' ->%list_elem_of_singleton. done.
Qed.

(** The own properties of a parsed object have distinct keys. *)
Lemma NoDup_parsed_keys (members : list (string * json)) acc :
  NoDup acc.*1 →
  NoDup (foldl (λ acc kj, define kj.1 (internalize kj.2) acc) acc members).*1.
Proof.
  revert acc. induction members as [|[k j] members IH]; intros acc Hnd;
    cbn [foldl]; [done|].
  apply IH. by apply NoDup_define.
Qed.

Lemma NoDup_named_keys {A} (l : list (string * A)) :
  NoDup l.*1 → NoDup (named l).*1.
Proof.
  unfold named. induction l as [|[k v] l IH]; csimpl; [done|].
  intros [Hk Hl]%NoDup_cons. destruct (array_index k) eqn:Hidx.
  - rewrite filter_cons_False by (simpl; congruence). by apply IH.
  - rewrite filter_cons_True by done. csimpl. apply NoDup_cons.
    split; [|by apply IH].
    intros ([k' v'] & -> & [_ Hin]%list_elem_of_filter)%list_elem_of_fmap.
    apply Hk. apply list_elem_of_fmap. by exists (k', v').
Qed.

Lemma get_own_absent {A} k (l : list (string * A)) :
  k ∉ l.*1 → get_own k l = None.
Proof.
  induction l as [|[k' v'] l IH]; csimpl; [done|].
  rewrite not_elem_of_cons. intros [Hne Hnotin].
  by rewrite bool_decide_eq_false_2, IH.
Qed.

Lemma keys_fmap {A B} (f : A → B) (l : list (string * A)) :
  (prod_map id f <$> l).*1 = l.*1.
Proof. induction l as [|[k v] l IH]; csimpl; [done|]. by rewrite IH. Qed.

Lemma others_absent {A} k (l : list (string * A)) :
  k ∉ l.*1 → others k l = l.
Proof.
  unfold others. induction l as [|[k' v'] l IH]; csimpl; [done|].
  rewrite not_elem_of_cons. intros [Hne Hnotin].
  rewrite filter_cons_True by (simpl; congruence). by rewrite IH.
Qed.

Lemma present_define_undefined {A} k (l : list (string * option A)) :
  NoDup l.*1 →
  (k ∉ (present (define k None l)).*1) ∧
  others k (present (define k None l)) = others k (present l).
Proof.
  unfold others, present. induction l as [|[k' x] l IH]; csimpl.
  - intros _. split; [apply not_elem_of_nil | done].
  - intros [Hk' Hl]%NoDup_cons. case_bool_decide as Hk; csimpl.
    + subst k'. split.
      * intros Hin%present_keys. done.
      * destruct x; csimpl; [|done].
        by rewrite filter_cons_False by (simpl; tauto).
    + destruct (IH Hl) as [Hnotin Hothers]. destruct x as [v|]; csimpl.
      * split; [rewrite not_elem_of_cons; done|].
        by rewrite !filter_cons_True, Hothers by done.
      * done.
Qed.

(** The members written for a parsed object after [version] is set to
    undefined. *)
Lemma unstamped_members (props : properties) :
  NoDup props.*1 →
  ∃ out plain,
    externalize (VObject ObjectPrototype (define "version" VUndefined props))
      = Some (JObject out) ∧
    externalize (VObject ObjectPrototype props) = Some (JObject plain) ∧
    get_own "version" out = None ∧
    out = others "version" plain.
Proof.
  intros Hnd. eexists _, _. rewrite !externalize_object.
  split; [done|]. split; [done|].
  rewrite (define_fmap externalize "version" VUndefined props).
  cbn [externalize]. rewrite own_properties_define by done.
  unfold own_properties. rewrite !present_app, !others_app.
  set (eprops := prod_map id externalize <$> props).
  assert (NoDup (named eprops).*1) as Hnamed.
  { apply NoDup_named_keys. unfold eprops. by rewrite keys_fmap. }
  destruct (present_define_undefined "version" (named eprops) Hnamed)
    as [Hnotin Hothers].
  assert ("version" ∉ (present (indexed eprops).*2).*1) as Hidx.
  { intros Hin%present_keys%indexed_keys. by destruct Hin. }
  split.
  - apply get_own_absent. rewrite fmap_app, elem_of_app. tauto.
  - rewrite <- Hothers. f_equal; symmetry; apply others_absent; done.
Qed.

End VersionFacts.

(** X7.  Where [package.json] declares no version, the manifest has no
    version: the assignment stores undefined, which [JSON.stringify] leaves
    out, so a version that the template had is gone.  The other members are
    written as for the template itself. *)
Theorem genManifest_without_project_version
    E src dst st pkg_text pkg tpl_text members :
  readFileSync (disk st) (the_path "package.json") = Some pkg_text →
  JSON_parse_text E pkg_text = Some pkg →
  value_get (internalize pkg) "version" = Some VUndefined →
  readFileSync (disk st) src = Some tpl_text →
  JSON_parse_text E tpl_text = Some (JObject members) →
  is_Some (writeFileSync (now E) (disk st) dst []) →
  ∃ out plain st',
    genManifest E src dst st = (Some (), st') ∧
    readFileSync (disk st') dst = Some (JSON_print E (JObject out) ++ [LF]) ∧
    reserialized (JObject members) = JObject plain ∧
    get_own "version" out = None ∧
    out = others "version" plain.
Proof.
  intros Hpkg Hparse Hget Htpl Hparse' Hwritable.
  set (props := foldl (λ acc kj, define kj.1 (internalize kj.2) acc) []
                  members).
  destruct (unstamped_members props)
    as (out & plain & Hout & Hplain & Hversion & Hothers).
  { by apply NoDup_parsed_keys, NoDup_nil. }
  destruct (writeFileSync_Some (now E) _ _ _
              (JSON_print E (JObject out) ++ [LF]) Hwritable)
    as (m & Hwrite & Hdst).
  exists out, plain. eexists.
  rewrite (genManifest_runs E src dst st pkg_text pkg tpl_text
             (JObject members) VUndefined
             (VObject ObjectPrototype (define "version" VUndefined props))
             (JObject out)); try done.
  - unfold on_disk. rewrite Hwrite. split; [done|]. cbn [disk]. split.
    + rewrite readFileSync_insert by done. by rewrite decide_True.
    + split; [|done]. unfold reserialized. rewrite internalize_object.
      fold props. by rewrite Hplain.
  - rewrite internalize_object. apply value_set_version.
Qed.

Lemma genManifest_without_project_version_witness :
  ∃ out plain st',
    genManifest Examples.stub (the_path "./src/manifest.json")
      (the_path "build/manifest.json")
      (Examples.after_reset Examples.without_version) = (Some (), st') ∧
    readFileSync (disk st') (the_path "build/manifest.json")
      = Some (JSON_print Examples.stub (JObject out) ++ [LF]) ∧
    reserialized (JObject [("name", JString (units "Viper"));
                           ("version", JString (units "0.0.0"))])
      = JObject plain ∧
    get_own "version" out = None ∧
    out = others "version" plain.
Proof.
  apply (genManifest_without_project_version Examples.stub
           (the_path "./src/manifest.json") (the_path "build/manifest.json")
           (Examples.after_reset Examples.without_version)
           (units "{}") (JObject [])
           (quoted "{'name':'Viper','version':'0.0.0'}")).
  - vm_compute. reflexivity.
  - vm_compute. reflexivity.
  - vm_compute. reflexivity.
  - vm_compute. reflexivity.
  - vm_compute. reflexivity.
  - apply writeFileSync_new; vm_compute; reflexivity.
Defined.

(** X8.  [genManifest] throws, and has written nothing, when [package.json]
    or the template cannot be read, when the text of either is no JSON
    document, and when either document is [null]. *)
Theorem genManifest_fatal E src dst st :
  let pkg :=
    readFileSync (disk st) (the_path "package.json") ≫= JSON_parse_text E in
  let template := readFileSync (disk st) src ≫= JSON_parse_text E in
  pkg = None ∨ template = None ∨ pkg = Some JNull ∨ template = Some JNull →
  genManifest E src dst st = (None, st).
Proof.
  cbv zeta.
  unfold genManifest, readFile, JSON_parse, from_disk, mbind at 3 4 5 6 7 8,
    M_bind.
  destruct (readFileSync (disk st) ["package.json"]) as [pkg_text|];
    [|done]. cbn [mbind option_bind].
  destruct (JSON_parse_text E pkg_text) as [pkg|]; [|done].
  cbn [fmap option_fmap option_map].
  destruct (readFileSync (disk st) src) as [tpl_text|]; [|done].
  cbn [mbind option_bind].
  destruct (JSON_parse_text E tpl_text) as [tpl|]; [|done].
  cbn [fmap option_fmap option_map].
  intros [Hbad|[Hbad|[[= ->]|[= ->]]]]; try done.
  destruct (value_get (internalize pkg) "version"); done.
Qed.

Lemma genManifest_fatal_witness :
  genManifest Examples.stub (the_path "./src/none.json")
    (the_path "build/manifest.json") (Examples.after_reset Examples.sources)
  = (None, Examples.after_reset Examples.sources).
Proof.
  apply (genManifest_fatal Examples.stub). right. left.
  vm_compute. reflexivity.
Defined.

(** ** [run] and [main] *)

Section EventFacts.

Variable E : external.

Lemma quiet_mute {A} (m : M A) : quiet m → mute m.
Proof. intros Hq st r st' Hrun. by destruct (Hq _ _ _ Hrun). Qed.

Lemma mute_bind {A B} (m : M A) (k : A → M B) :
  mute m → (∀ a, mute (k a)) → mute (m ≫= k).
Proof.
  intros Hm Hk st r st'. unfold mbind, M_bind.
  destruct (m st) as [[a|] st1] eqn:Hrun.
  - intros Hrest. rewrite <- (Hm _ _ _ Hrun). by eapply Hk.
  - intros [= <- <-]. by eapply Hm.
Qed.

Lemma mute_on_disk f : mute (on_disk f).
Proof. apply quiet_mute, quiet_on_disk. Qed.

Lemma mute_settle n : mute (settle E n).
Proof.
  induction n as [|n IH]; intros st r st'; cbn [settle].
  - by intros [= <- <-].
  - destruct (pending st) as [|job rest]; [by intros [= <- <-]|].
    destruct (finish_job E job (disk st)) as [fs|].
    + intros Hrest. by rewrite (IH _ _ _ Hrest).
    + by intros [= <- <-].
Qed.

Lemma mute_genTar src dst : mute (genTar src dst).
Proof.
  intros st r st'. unfold genTar, from_disk, start_archive, mbind, M_bind.
  destruct (readdirSync (disk st) src) as [[|name names]|];
    by intros [= <- <-].
Qed.

Lemma mute_combine p : mute (combine E p).
Proof.
  intros st r st'. rewrite combine_cases.
  destruct (file_at (disk st) p) as [[m doc]|],
    (readFileSync (disk st) (the_path "build/app.css")),
    (readFileSync (disk st) (the_path "build/viper_lib.css")),
    (readFileSync (disk st) (the_path "build/app.js")),
    (readFileSync (disk st) (the_path "build/viper_lib.js"));
    by intros [= <- <-].
Qed.

Lemma mute_prepare : mute (prepare E).
Proof.
  unfold prepare, generate, generate_documents, start_archives.
  apply mute_bind; [|intros _].
  { apply mute_bind; [|intros _]; apply mute_on_disk. }
  apply mute_bind; [apply mute_on_disk | intros _].
  apply mute_bind; [apply quiet_mute, quiet_cp | intros _].
  apply mute_bind; [|intros _].
  { apply mute_bind; [apply quiet_mute, quiet_genTranslations | intros _].
    apply quiet_mute, quiet_genManifest. }
  apply mute_bind; [apply mute_genTar | intros _]. apply mute_genTar.
Qed.

Lemma mute_finishing :
  mute (combine_everything E ≫= λ _, cleanup ≫= λ _,
        add_assets_from_packages E).
Proof.
  apply mute_bind; [|intros _].
  { repeat (apply mute_bind; [apply mute_combine | intros _]).
    apply mute_combine. }
  apply mute_bind; [|intros _].
  { repeat (apply mute_bind; [apply mute_on_disk | intros _]).
    apply mute_on_disk. }
  repeat (apply mute_bind; [apply mute_on_disk | intros _]).
  apply mute_on_disk.
Qed.

(** The events of one [run]: the command is started; it is reported as
    completed only if it has succeeded, and [run] returns only if it has
    been reported as completed. *)
Lemma run_events cmd st r st' :
  run E cmd st = (r, st') →
  ∃ evs,
    log st' = evs ++ Spawned cmd :: log st ∧
    ((r = Some () ∧ evs = [Completed cmd]) ∨
     (r = None ∧ (evs = [] ∨ evs = [Failed cmd] ∨ evs = [Completed cmd]))) ∧
    (Completed cmd ∈ evs → ∃ fs, is_Some (command E cmd fs)).
Proof.
  unfold run, emit. unfold mbind at 1, M_bind at 1. unfold awaited.
  intros Hrun.
  destruct (settle E (settled_before E cmd)
              (State (disk st) (pending st) (Spawned cmd :: log st)))
    as [[[]|] s1] eqn:Hbefore.
  2:{ rewrite (bind_throws_first _ _ _ _ Hbefore) in Hrun.
      injection Hrun as <- <-. exists [].
      rewrite (mute_settle _ _ _ _ Hbefore). cbn [log app].
      split; [done|]. split; [right; split; [done|by left]|].
      by intros ?%elem_of_nil. }
  rewrite (bind_continues _ _ _ _ _ Hbefore) in Hrun.
  pose proof (mute_settle _ _ _ _ Hbefore) as Hlog1. cbn [log] in Hlog1.
  unfold mbind at 1, M_bind at 1 in Hrun.
  destruct (command E cmd (disk s1)) as [fs|] eqn:Hcmd.
  - unfold on_disk, emit in Hrun. unfold mbind at 1 2, M_bind in Hrun.
    cbn [disk pending log] in Hrun.
    pose proof (mute_settle _ _ _ _ Hrun) as Hlog. cbn [log] in Hlog.
    exists [Completed cmd]. rewrite Hlog, Hlog1. split; [done|]. split.
    + destruct r as [[]|]; [by left | right; split; [done|by right; right]].
    + intros _. exists (disk s1). by rewrite Hcmd.
  - unfold emit, throw in Hrun. unfold mbind, M_bind in Hrun.
    injection Hrun as <- <-. cbn [log]. exists [Failed cmd]. rewrite Hlog1.
    split; [done|]. split; [right; split; [done|by right; left]|].
    intros [[=]|?%elem_of_nil]%elem_of_cons. done.
Qed.

End EventFacts.

Section ConfinedFacts.

Variable E : external.

Lemma confined_bind {A B} (root : path) (m : M A) (k : A → M B) :
  confined root m → (∀ a, confined root (k a)) → confined root (m ≫= k).
Proof.
  intros Hm Hk st r st' q. unfold mbind, M_bind.
  destruct (m st) as [[a|] st1] eqn:Hrun.
  - intros Hrest Hq. rewrite <- (Hm _ _ _ _ Hrun Hq). by eapply Hk.
  - intros [= <- <-]. by eapply Hm.
Qed.

Lemma confined_from_disk {A} (root : path) (f : files → option A) :
  confined root (from_disk f).
Proof. by intros st r st' q [= <- <-]. Qed.

Lemma confined_on_disk (root : path) f :
  (∀ fs fs' q, f fs = Some fs' → relative root q = None → fs' !! q = fs !! q) →
  confined root (on_disk f).
Proof.
  intros Hf st r st' q. unfold on_disk.
  destruct (f (disk st)) as [fs'|] eqn:Hfs; intros [= <- <-]; [|done].
  cbn [disk]. by eapply Hf.
Qed.

Lemma mkdirs_lookup_below fs fs' base todo q :
  mkdirs (now E) fs base todo = Some fs' →
  (∀ n, q ≠ base ++ take (S n) todo) →
  fs' !! q = fs !! q.
Proof.
  revert fs base. induction todo as [|name rest IH]; intros fs base; simpl.
  - by intros [= ->].
  - intros Hmk Hq.
    assert (∀ n, q ≠ (base ++ [name]) ++ take (S n) rest) as Hq'.
    { intros n. rewrite <- app_assoc. apply (Hq (S n)). }
    destruct (kind_at fs (base ++ [name])) as [[]|]; [done|by eapply IH|].
    rewrite (IH _ _ Hmk Hq'). apply lookup_insert_ne.
    intros Heq. by apply (Hq 0).
Qed.

Lemma writeFileSync_lookup fs fs' p data q :
  writeFileSync (now E) fs p data = Some fs' → q ≠ p → fs' !! q = fs !! q.
Proof.
  intros Hwrite Hq.
  destruct (writeFileSync_Some (now E) fs p data data) as (m & Hfs & _);
    [by rewrite Hwrite|].
  rewrite Hwrite in Hfs. injection Hfs as ->. by apply lookup_insert_ne.
Qed.

(** A path that is not below [root] is not below any path below [root]. *)
Lemma relative_outside (root rel q : path) :
  relative root q = None → relative (root ++ rel) q = None.
Proof.
  intros Hq. destruct (relative (root ++ rel) q) as [rest|] eqn:Hrel; [|done].
  apply relative_Some in Hrel as ->. rewrite <- app_assoc in Hq.
  by rewrite relative_app in Hq.
Qed.

Lemma outside_ne (root rel q : path) : relative root q = None → q ≠ root ++ rel.
Proof. intros Hq ->. by rewrite relative_app in Hq. Qed.

Lemma confined_write (root rel : path) (data : files → jsstring) :
  confined root
    (on_disk (λ fs, writeFileSync (now E) fs (root ++ rel) (data fs))).
Proof.
  apply confined_on_disk. intros fs fs' q Hwrite Hq.
  eapply writeFileSync_lookup; [done|]. by apply outside_ne.
Qed.

Lemma confined_jsonfile (root rel : path) obj :
  confined root (jsonfile_writeFileSync E (root ++ rel) obj).
Proof.
  unfold jsonfile_writeFileSync. destruct (externalize obj) as [doc|].
  - apply (confined_write root rel (λ _, JSON_print E doc ++ [LF])).
  - by intros st r st' q [= <- <-].
Qed.

Lemma confined_forEach {A B} (root : path) (body : B → A → M B) acc l :
  (∀ b a, confined root (body b a)) → confined root (forEach body acc l).
Proof.
  intros Hbody. revert acc. induction l as [|x l IH]; intros acc; simpl.
  - by intros st r st' q [= <- <-].
  - apply confined_bind; [apply Hbody | intros ?; apply IH].
Qed.

Lemma confined_genTranslations (root src rel : path) :
  confined root (genTranslations E src (root ++ rel)).
Proof.
  unfold genTranslations, glob_sync.
  apply confined_bind; [apply confined_from_disk | intros matches].
  apply confined_bind; [|intros ?; apply confined_jsonfile].
  apply confined_forEach. intros result file. unfold add_translation.
  apply confined_bind; [apply confined_from_disk | intros ?].
  apply confined_bind; [apply confined_from_disk | intros ?].
  by intros st r st' q [= <- <-].
Qed.

Lemma confined_genManifest (root src rel : path) :
  confined root (genManifest E src (root ++ rel)).
Proof.
  unfold genManifest.
  repeat (apply confined_bind; [apply confined_from_disk | intros ?]).
  apply confined_jsonfile.
Qed.

Lemma confined_genTar (root src dst : path) : confined root (genTar src dst).
Proof.
  intros st r st' q. unfold genTar, from_disk, start_archive, mbind, M_bind.
  destruct (readdirSync (disk st) src) as [[|name names]|];
    by intros [= <- <-].
Qed.

Lemma confined_reset : confined (the_path "build") (reset E).
Proof.
  unfold reset. apply confined_bind; [|intros _].
  - apply confined_on_disk. intros fs fs' q [= <-] Hq.
    rewrite rmSync_lookup. by rewrite Hq.
  - apply confined_on_disk. intros fs fs' q Hmk Hq.
    eapply mkdirs_lookup_below; [exact Hmk|].
    intros n ->. destruct n as [|[|n]]; vm_compute in Hq; discriminate.
Qed.

Lemma confined_stage_sources : confined (the_path "build") (stage_sources E).
Proof.
  apply confined_on_disk. intros fs fs' q Hcopy Hq.
  eapply copyFileSync_lookup; [exact Hcopy|].
  apply (outside_ne ["build"] ["webrepl_content.js"]), Hq.
Qed.

Lemma cpSync_lookup_below opts src dst fs r fs' q :
  cpSync (now E) opts src dst fs = (r, fs') →
  relative dst q = None → (∀ n, q ≠ take (S n) (parent dst)) →
  fs' !! q = fs !! q.
Proof.
  unfold cpSync. intros Hcp Hq Hparent.
  destruct (kind_at fs src) as [k|]; [|by injection Hcp as <- <-].
  case_bool_decide; [by injection Hcp as <- <-|].
  assert (∀ fs1, mkdirs (now E) fs [] (parent dst) = Some fs1 →
                 cp_nodes (now E) opts dst (subtree fs src) fs1 = (r, fs') →
                 fs' !! q = fs !! q) as Hgo.
  { intros fs1 Hmk Hnodes. rewrite (cp_nodes_lookup _ _ _ _ _ _ _ _ Hnodes Hq).
    by eapply mkdirs_lookup_below. }
  destruct k, (recursive opts);
    try (by injection Hcp as <- <-);
    (destruct (mkdirs (now E) fs [] (parent dst)) as [fs1|] eqn:Hmk;
       [by eapply Hgo | by injection Hcp as <- <-]).
Qed.

Lemma confined_stage_assets : confined (the_path "build") (stage_assets E).
Proof.
  intros st r st' q. unfold stage_assets, cp.
  destruct (cpSync _ _ _ _ _) as [r' fs'] eqn:Hcp. intros [= <- <-] Hq.
  cbn [disk]. eapply cpSync_lookup_below; [exact Hcp| |].
  - by apply (relative_outside ["build"] ["assets"]).
  - intros n ->. destruct n; vm_compute in Hq; discriminate.
Qed.

Lemma confined_prepare : confined (the_path "build") (prepare E).
Proof.
  unfold prepare, generate, generate_documents, start_archives.
  apply confined_bind; [apply confined_reset | intros _].
  apply confined_bind; [apply confined_stage_sources | intros _].
  apply confined_bind; [apply confined_stage_assets | intros _].
  apply confined_bind; [|intros _].
  - apply confined_bind; [|intros _].
    + apply (confined_genTranslations ["build"] _ ["translations.json"]).
    + apply (confined_genManifest ["build"] _ ["manifest.json"]).
  - apply confined_bind; [|intros _]; apply confined_genTar.
Qed.

Lemma prepare_keeps_node_modules st r st' :
  prepare E st = (r, st') →
  existsSync (disk st') (the_path "node_modules")
  = existsSync (disk st) (the_path "node_modules").
Proof.
  intros Hrun. unfold existsSync, kind_at.
  by rewrite (confined_prepare _ _ _ (the_path "node_modules") Hrun).
Qed.

Lemma mute_combine_everything : mute (combine_everything E).
Proof.
  repeat (apply mute_bind; [apply mute_combine | intros _]).
  apply mute_combine.
Qed.

Lemma mute_cleanup : mute cleanup.
Proof.
  repeat (apply mute_bind; [apply mute_on_disk | intros _]).
  apply mute_on_disk.
Qed.

Lemma mute_add_assets_from_packages : mute (add_assets_from_packages E).
Proof.
  repeat (apply mute_bind; [apply mute_on_disk | intros _]).
  apply mute_on_disk.
Qed.

(** A [run] that returns has reported its command as completed. *)
Lemma run_returns cmd st st' :
  run E cmd st = (Some (), st') →
  log st' = Completed cmd :: Spawned cmd :: log st.
Proof.
  intros Hrun. destruct (run_events E _ _ _ _ Hrun) as (evs & -> & Hshape & _).
  by destruct Hshape as [[_ ->] | [[=] _]].
Qed.


(** The events of the install step. *)
Lemma install_events st r st' :
  (if negb (existsSync (disk st) (the_path "node_modules"))
   then run E "npm install" else mret ()) st = (r, st') →
  ∃ evs, log st' = evs ++ log st ∧
    (r = Some () →
     evs = if existsSync (disk st) (the_path "node_modules") then []
           else [Completed "npm install"; Spawned "npm install"]) ∧
    (∀ e, e ∈ evs → e = Spawned "npm install" ∨ e = Completed "npm install"
                    ∨ e = Failed "npm install").
Proof.
  destruct (existsSync _ _); cbn [negb].
  - intros [= <- <-]. exists []. split; [done|]. split; [done|].
    by intros e ?%elem_of_nil.
  - intros Hrun. destruct (run_events E _ _ _ _ Hrun) as (evs & -> & Hshape & _).
    exists (evs ++ [Spawned "npm install"]). rewrite <- app_assoc.
    split; [done|]. split.
    + intros ->. by destruct Hshape as [[_ ->] | [[=] _]].
    + intros e [Hin|Hin%list_elem_of_singleton]%elem_of_app; [|by left].
      destruct Hshape as [[_ ->] | [_ [-> | [-> | ->]]]].
      * apply list_elem_of_singleton in Hin. by right; left.
      * by apply elem_of_nil in Hin.
      * apply list_elem_of_singleton in Hin. by right; right.
      * apply list_elem_of_singleton in Hin. by right; left.
Qed.

End ConfinedFacts.

(** X9.  The preparation stage changes the disk below [build] only: every
    other path, the sources among them, is as it was, whether the stage
    returns or throws. *)
Theorem prepare_confined_to_build E st r st' q :
  prepare E st = (r, st') →
  relative (the_path "build") q = None →
  disk st' !! q = disk st !! q.
Proof.
  intros Hrun Hq. by eapply confined_prepare.
Qed.

Lemma prepare_confined_to_build_witness :
  disk (prepare Examples.stub (Examples.fresh Examples.sources)).2
    !! the_path "src/manifest.json"
  = Examples.sources !! the_path "src/manifest.json".
Proof.
  apply (prepare_confined_to_build Examples.stub
           (Examples.fresh Examples.sources)
           (prepare Examples.stub (Examples.fresh Examples.sources)).1
           (prepare Examples.stub (Examples.fresh Examples.sources)).2
           (the_path "src/manifest.json")).
  - by destruct (prepare _ _).
  - reflexivity.
Defined.



(** X11.  A [main] that returns has run its commands one after the other, each
    started after the one before it was reported as completed, and has printed
    the completion message last; [npm install] is run exactly when
    [node_modules] did not exist when the script started. *)
Theorem main_runs_commands_in_order E st st' :
  main E st = (Some (), st') →
  log st' =
    Said (String "010" "Build complete.")
    :: Completed "npm run build" :: Spawned "npm run build"
    :: Completed "npx eslint" :: Spawned "npx eslint"
    :: (if existsSync (disk st) (the_path "node_modules") then []
        else [Completed "npm install"; Spawned "npm install"])
    ++ log st.
Proof.
  unfold main.
  intros ([] & s1 & Hprepare & Hrest)%bind_returns.
  apply bind_returns in Hrest as ([] & s2 & Hbuild & Hrest).
  apply bind_returns in Hrest as ([] & s3 & Hcombine & Hrest).
  apply bind_returns in Hrest as ([] & s4 & Hcleanup & Hrest).
  apply bind_returns in Hrest as ([] & s5 & Hadd & Hrest).
  injection Hrest as <-. cbn [log].
  rewrite (mute_add_assets_from_packages E _ _ _ Hadd).
  rewrite (mute_cleanup _ _ _ Hcleanup).
  rewrite (mute_combine_everything E _ _ _ Hcombine).
  rewrite <- (prepare_keeps_node_modules E _ _ _ Hprepare).
  rewrite <- (mute_prepare E _ _ _ Hprepare). clear Hprepare.
  unfold build in Hbuild.
  unfold mbind at 1, M_bind at 1, from_disk in Hbuild.
  apply bind_returns in Hbuild as ([] & s & Hinstall & Hbuild).
  apply bind_returns in Hbuild as ([] & s' & Hlint & Hbuild).
  rewrite (run_returns E _ _ _ Hbuild), (run_returns E _ _ _ Hlint).
  destruct (install_events E _ _ _ Hinstall) as (evs & -> & Hevs & _).
  by rewrite (Hevs eq_refl).
Qed.

Lemma main_runs_commands_in_order_witness :
  log (main Examples.stub (Examples.fresh Examples.sources)).2 =
    [ Said (String "010" "Build complete.");
      Completed "npm run build"; Spawned "npm run build";
      Completed "npx eslint"; Spawned "npx eslint" ].
Proof.
  apply (main_runs_commands_in_order Examples.stub
           (Examples.fresh Examples.sources)).
  apply result_eta. vm_compute. reflexivity.
Defined.

(** ** The stages that finish the build *)

Section FinishingFacts.

Variable E : external.

Lemma unlink_cases p st :
  on_disk (λ fs, unlinkSync fs p) st =
    match kind_at (disk st) p with
    | Some KFile => (Some (), State (delete p (disk st)) (pending st) (log st))
    | _ => (None, st)
    end.
Proof.
  unfold on_disk, unlinkSync. by destruct (kind_at (disk st) p) as [[]|].
Qed.

Lemma kind_at_delete (fs : files) p q :
  p ≠ q → kind_at (delete p fs) q = kind_at fs q.
Proof.
  intros Hpq. unfold kind_at. destruct q; [done|].
  by rewrite lookup_delete_ne.
Qed.

Lemma file_at_lookup (fs' fs : files) p :
  fs' !! p = fs !! p → file_at fs' p = file_at fs p.
Proof. intros Hp. unfold file_at. destruct p; [done|]. by rewrite Hp. Qed.

Lemma copyFileSync_Some fs fs' src dst :
  copyFileSync (now E) fs src dst = Some fs' →
  ∃ m data, file_at fs src = Some (m, data) ∧
            fs' = <[dst := File (created_like (now E) m) data]> fs.
Proof.
  unfold copyFileSync. destruct (file_at fs src) as [[m data]|]; [|done].
  intros Hcopy. exists m, data. split; [done|].
  destruct (kind_at fs dst) as [[]|]; [by injection Hcopy|done|].
  destruct (kind_at fs (parent dst)) as [[]|]; [done|by injection Hcopy|done].
Qed.

Lemma combine_returns p st st' :
  combine E p st = (Some (), st') →
  is_Some (file_at (disk st') p) ∧
  ∀ q, q ≠ p → disk st' !! q = disk st !! q.
Proof.
  rewrite combine_cases.
  destruct (file_at (disk st) p) as [[m doc]|] eqn:Hp; [|done].
  destruct (readFileSync (disk st) (the_path "build/app.css")); [|done].
  destruct (readFileSync (disk st) (the_path "build/viper_lib.css")); [|done].
  destruct (readFileSync (disk st) (the_path "build/app.js")); [|done].
  destruct (readFileSync (disk st) (the_path "build/viper_lib.js")); [|done].
  intros [= <-]. cbn [disk]. split.
  - rewrite file_at_insert, decide_True by (done || by intros ->). eauto.
  - intros q Hq. by apply lookup_insert_ne.
Qed.

Lemma add_assets_from_packages_returns st st' :
  add_assets_from_packages E st = (Some (), st') →
  ∃ m1 d1 m2 d2 m3 d3 m4 d4,
    file_at (disk st) (the_path "node_modules/@micropython/micropython-webassembly-pyscript/micropython.wasm")
      = Some (m1, d1) ∧
    file_at (disk st) (the_path "node_modules/@micropython/micropython-webassembly-pyscript/micropython.mjs")
      = Some (m2, d2) ∧
    file_at (disk st) (the_path "node_modules/@pybricks/mpy-cross-v6/build/mpy-cross-v6.wasm")
      = Some (m3, d3) ∧
    file_at (disk st) (the_path "node_modules/@astral-sh/ruff-wasm-web/ruff_wasm_bg.wasm")
      = Some (m4, d4) ∧
    disk st' =
      <[the_path "./build/assets/ruff_wasm_bg.wasm"
          := File (created_like (now E) m4) d4]>
      (<[the_path "./build/assets/mpy-cross-v6.wasm"
          := File (created_like (now E) m3) d3]>
      (<[the_path "./build/micropython.mjs"
          := File (created_like (now E) m2) d2]>
      (<[the_path "./build/assets/micropython.wasm"
          := File (created_like (now E) m1) d1]> (disk st)))).
Proof.
  unfold add_assets_from_packages.
  intros ([] & s1 & (fs1 & H1 & ->)%on_disk_returns & Hrun)%bind_returns.
  apply bind_returns in Hrun
    as ([] & s2 & (fs2 & H2 & ->)%on_disk_returns & Hrun).
  apply bind_returns in Hrun
    as ([] & s3 & (fs3 & H3 & ->)%on_disk_returns & Hrun).
  apply on_disk_returns in Hrun as (fs4 & H4 & ->).
  cbn [disk pending log] in *.
  apply copyFileSync_Some in H1 as (m1 & d1 & Hsrc1 & ->).
  apply copyFileSync_Some in H2 as (m2 & d2 & Hsrc2 & ->).
  apply copyFileSync_Some in H3 as (m3 & d3 & Hsrc3 & ->).
  apply copyFileSync_Some in H4 as (m4 & d4 & Hsrc4 & ->).
  repeat (rewrite file_at_insert, decide_False in Hsrc2 by discriminate).
  repeat (rewrite file_at_insert, decide_False in Hsrc3 by discriminate).
  repeat (rewrite file_at_insert, decide_False in Hsrc4 by discriminate).
  by exists m1, d1, m2, d2, m3, d3, m4, d4.
Qed.

End FinishingFacts.

(** X12.  Cleanup returns exactly when each of the five intermediates is a
    file when it starts: one that is missing, or is a directory, makes it
    throw. *)
Theorem cleanup_needs_every_intermediate st :
  (cleanup st).1 = Some () ↔
  ∀ p, p ∈ intermediates → kind_at (disk st) p = Some KFile.
Proof.
  unfold cleanup, mbind, M_bind.
  rewrite unlink_cases.
  destruct (kind_at (disk st) (the_path "build/translations.json"))
    as [[]|] eqn:H1;
    [|split; [done|]; intros Hall; rewrite Hall in H1; [done|];
      repeat first [apply list_elem_of_here | apply list_elem_of_further]..].
  rewrite unlink_cases. cbn [disk pending log].
  rewrite !kind_at_delete by discriminate.
  destruct (kind_at (disk st) (the_path "build/app.css")) as [[]|] eqn:H2;
    [|split; [done|]; intros Hall; rewrite Hall in H2; [done|];
      repeat first [apply list_elem_of_here | apply list_elem_of_further]..].
  rewrite unlink_cases. cbn [disk pending log].
  rewrite !kind_at_delete by discriminate.
  destruct (kind_at (disk st) (the_path "build/viper_lib.css"))
    as [[]|] eqn:H3;
    [|split; [done|]; intros Hall; rewrite Hall in H3; [done|];
      repeat first [apply list_elem_of_here | apply list_elem_of_further]..].
  rewrite unlink_cases. cbn [disk pending log].
  rewrite !kind_at_delete by discriminate.
  destruct (kind_at (disk st) (the_path "build/app.js")) as [[]|] eqn:H4;
    [|split; [done|]; intros Hall; rewrite Hall in H4; [done|];
      repeat first [apply list_elem_of_here | apply list_elem_of_further]..].
  rewrite unlink_cases. cbn [disk pending log].
  rewrite !kind_at_delete by discriminate.
  destruct (kind_at (disk st) (the_path "build/viper_lib.js"))
    as [[]|] eqn:H5;
    [|split; [done|]; intros Hall; rewrite Hall in H5; [done|];
      repeat first [apply list_elem_of_here | apply list_elem_of_further]..].
  split; [|done]. intros _ p Hp. unfold intermediates in Hp.
  by each_member Hp.
Qed.

(** X13.  When the last stage returns, each of the four places in the build
    holds a copy of its package file: the same bytes and the same mode, owned
    by the process and dated by its clock.  Nothing else on the disk has
    changed. *)
Theorem add_assets_from_packages_copies E st st' :
  add_assets_from_packages E st = (Some (), st') →
  (∀ src dst, (src, dst) ∈ vendored →
     ∃ m data, file_at (disk st) src = Some (m, data) ∧
               disk st' !! dst = Some (File (created_like (now E) m) data)) ∧
  (∀ q, q ∉ vendored.*2 → disk st' !! q = disk st !! q).
Proof.
  intros (m1 & d1 & m2 & d2 & m3 & d3 & m4 & d4 &
          Hsrc1 & Hsrc2 & Hsrc3 & Hsrc4 & ->)%add_assets_from_packages_returns.
  split.
  - intros src dst Hin. unfold vendored in Hin.
    repeat (apply elem_of_cons in Hin as [[= -> ->]|Hin]);
      [..|by apply elem_of_nil in Hin].
    + exists m1, d1. split; [done|].
      rewrite !lookup_insert_ne by discriminate. apply lookup_insert_eq.
    + exists m2, d2. split; [done|].
      rewrite !lookup_insert_ne by discriminate. apply lookup_insert_eq.
    + exists m3, d3. split; [done|].
      rewrite !lookup_insert_ne by discriminate. apply lookup_insert_eq.
    + exists m4, d4. split; [done|]. apply lookup_insert_eq.
  - intros q Hq.
    rewrite !lookup_insert_ne; [done|intros <-; apply Hq..];
      repeat first [apply list_elem_of_here | apply list_elem_of_further].
Qed.

Lemma add_assets_from_packages_copies_witness :
  let before :=
    ((prepare Examples.stub ≫= λ _, build Examples.stub ≫= λ _,
      combine_everything Examples.stub ≫= λ _, cleanup)
       (Examples.fresh Examples.sources)).2 in
  ∃ m data,
    file_at (disk before)
      (the_path "node_modules/@astral-sh/ruff-wasm-web/ruff_wasm_bg.wasm")
    = Some (m, data) ∧
    disk (add_assets_from_packages Examples.stub before).2
      !! the_path "./build/assets/ruff_wasm_bg.wasm"
    = Some (File (created_like Examples.build_time m) data).
Proof.
  intros before.
  destruct (add_assets_from_packages_copies Examples.stub before
              (add_assets_from_packages Examples.stub before).2) as [Hcopies _].
  - apply result_eta. vm_compute. reflexivity.
  - apply Hcopies.
    repeat first [apply list_elem_of_here | apply list_elem_of_further].
Defined.

(** X14.  [genTar] looks at its source only: the call returns exactly when
    the source is a directory that lists at least one entry, whatever stands
    at the destination.  When it throws, for a source that is no directory or
    for one that is empty, it has started no archive and changed nothing. *)
Theorem genTar_checks_only_the_source src dst st :
  ((genTar src dst st).1 = Some () ↔
   ∃ name names, readdirSync (disk st) src = Some (name :: names)) ∧
  ((genTar src dst st).1 = None → (genTar src dst st).2 = st).
Proof.
  unfold genTar, from_disk, start_archive, mbind, M_bind.
  destruct (readdirSync (disk st) src) as [[|name names]|]; cbn [fst snd].
  - split; [|done]. split; [done|]. by intros (? & ? & [=]).
  - split; [|done]. split; [eauto|done].
  - split; [|done]. split; [done|]. by intros (? & ? & [=]).
Qed.

(** X15.  An archive that cannot be written does not stop [genTar]: for a
    source directory that is not empty the call returns, and the failure comes
    when the event loop reaches the job, which then ends the process without a
    file at the destination. *)
Theorem genTar_fails_when_settled E src dst st :
  kind_at (disk st) src = Some KDir →
  entries (disk st) src ≠ [] →
  pending st = [] →
  (∀ data, writeFileSync (now E) (disk st) dst data = None) →
  ∃ st1, genTar src dst st = (Some (), st1) ∧
         settle E 1 st1 = (None, State (disk st) [] (log st)).
Proof.
  intros Hsrc Hsome Hnone Hwrite.
  exists (State (disk st)
            (pending st
               ++ [(TarOptions true dst src true true, entries (disk st) src)])
            (log st)).
  split.
  - unfold genTar, from_disk, start_archive, mbind, M_bind, readdirSync.
    rewrite Hsrc. by destruct (entries (disk st) src).
  - cbn [settle pending disk log]. rewrite Hnone. cbn [app].
    unfold finish_job. cbn [fst snd file].
    destruct (tar_entries _ _ _ _) as [archive|]; cbn; [|done].
    by rewrite Hwrite.
Qed.

Lemma genTar_fails_when_settled_witness :
  ∃ st1,
    genTar (the_path "src/tools_vfs")
      (the_path "build/assets/tools_vfs.tar.gz")
      (Examples.fresh Examples.sources) = (Some (), st1) ∧
    settle Examples.stub 1 st1
    = (None, State (disk (Examples.fresh Examples.sources)) []
               (log (Examples.fresh Examples.sources))).
Proof.
  apply (genTar_fails_when_settled Examples.stub).
  - vm_compute. reflexivity.
  - vm_compute. discriminate.
  - reflexivity.
  - intros data. vm_compute. reflexivity.
Defined.

(** X16.  Reset never throws: whatever stands at [build], a file, a tree or
    nothing, is removed with all below it, and [build] is made anew with an
    empty [assets] directory in it. *)
Theorem reset_makes_empty_build E st :
  reset E st =
    (Some (),
     State (<[the_path "build/assets" := Dir (now E)]>
              (<[the_path "build" := Dir (now E)]>
                 (rmSync (disk st) (the_path "build"))))
       (pending st) (log st)).
Proof.
  destruct (kind_at_reset E (disk st)) as [Hbuild Hassets].
  unfold reset, mbind, M_bind, on_disk, mkdirSync.
  cbn [disk pending log mkdirs app]. rewrite Hbuild.
  cbn [mkdirs app]. by rewrite Hassets.
Qed.

(** X17.  A [main] that returns leaves a finished build: the three pages and
    the four package files are files in the build directory, and none of the
    five intermediates is left. *)
Theorem main_returns_with_build E st st' :
  main E st = (Some (), st') →
  (∀ page, page ∈ html_documents → is_Some (file_at (disk st') page)) ∧
  (∀ src dst, (src, dst) ∈ vendored → is_Some (file_at (disk st') dst)) ∧
  (∀ p, p ∈ intermediates → disk st' !! p = None).
Proof.
  unfold main.
  intros ([] & s1 & _ & Hrest)%bind_returns.
  apply bind_returns in Hrest as ([] & s2 & _ & Hrest).
  apply bind_returns in Hrest as ([] & s3 & Hcombine & Hrest).
  apply bind_returns in Hrest as ([] & s4 & Hcleanup & Hrest).
  apply bind_returns in Hrest as ([] & s5 & Hadd & Hrest).
  injection Hrest as <-. cbn [disk].
  unfold combine_everything in Hcombine.
  apply bind_returns in Hcombine as ([] & sa & [Hindex _]%combine_returns & Hcombine).
  apply bind_returns in Hcombine
    as ([] & sb & [Hbridge Hframe1]%combine_returns
           & [Hbenchmark Hframe2]%combine_returns).
  pose proof (cleanup_returns _ _ Hcleanup) as Hdisk4.
  pose proof Hadd as (m1 & d1 & m2 & d2 & m3 & d3 & m4 & d4 &
          _ & _ & _ & _ & Hdisk5)%add_assets_from_packages_returns.
  split; [|split].
  - intros page Hpage. rewrite Hdisk5.
    repeat (rewrite file_at_insert by discriminate).
    unfold html_documents in Hpage.
    each_member Hpage; rewrite !decide_False by discriminate;
      rewrite (file_at_lookup (disk s4) (disk s3))
        by (rewrite Hdisk4; by rewrite !lookup_delete_ne by discriminate).
    + rewrite (file_at_lookup (disk s3) (disk sb)) by (by apply Hframe2).
      by rewrite (file_at_lookup (disk sb) (disk sa)) by (by apply Hframe1).
    + by rewrite (file_at_lookup (disk s3) (disk sb)) by (by apply Hframe2).
    + done.
  - intros src dst Hin. rewrite Hdisk5. unfold vendored in Hin.
    repeat (apply elem_of_cons in Hin as [[= -> ->]|Hin]);
      [..|by apply elem_of_nil in Hin];
      repeat (rewrite file_at_insert by discriminate);
      repeat first [rewrite decide_True by done
                   |rewrite decide_False by discriminate]; eauto.
  - intros p Hp.
    rewrite (add_assets_from_packages_lookup E _ _ _ Hadd Hp), Hdisk4.
    unfold intermediates in Hp.
    each_member Hp; rewrite !lookup_delete; repeat case_decide; done.
Qed.

Lemma main_returns_with_build_witness :
  is_Some (file_at (disk (main Examples.stub
                            (Examples.fresh Examples.sources)).2)
             (the_path "build/index.html")).
Proof.
  destruct (main_returns_with_build Examples.stub
              (Examples.fresh Examples.sources)
              (main Examples.stub (Examples.fresh Examples.sources)).2)
    as [Hpages _].
  - apply result_eta. vm_compute. reflexivity.
  - apply Hpages.
    repeat first [apply list_elem_of_here | apply list_elem_of_further].
Defined.

(** ** The copy of the asset tree *)

Section CopyFacts.

Variable E : external.

Lemma NoDup_subtree fs root : NoDup (subtree fs root).*1.
Proof.
  apply NoDup_fmap_2_strong.
  - intros [rel1 n1] [rel2 n2] H1%subtree_elem H2%subtree_elem Hrel.
    simpl in Hrel. subst rel2. rewrite H1 in H2. by injection H2 as ->.
  - unfold subtree. apply NoDup_omap_injective; [apply NoDup_map_to_list|].
    intros [k1 n1] [k2 n2] [rel n] H1 H2 Hk1 Hk2. simpl in *.
    destruct (relative root k1) as [r1|] eqn:Hr1; [|done].
    destruct (relative root k2) as [r2|] eqn:Hr2; [|done].
    injection Hk1 as -> ->. injection Hk2 as -> ->.
    apply relative_Some in Hr1 as ->. by apply relative_Some in Hr2 as ->.
Qed.

Lemma cp_node_file opts target m data fs fs' :
  force opts = true →
  cp_node (now E) opts target (File m data) fs = (Some (), fs') →
  fs' !! target = Some (File (created_like (now E) m) data).
Proof.
  intros Hforce. unfold cp_node. rewrite Hforce.
  destruct (kind_at fs target) as [[]|]; intros [= <-];
    apply lookup_insert_eq.
Qed.

Lemma cp_nodes_elsewhere opts dst todo fs r fs' rel :
  rel ∉ todo.*1 →
  cp_nodes (now E) opts dst todo fs = (r, fs') →
  fs' !! (dst ++ rel) = fs !! (dst ++ rel).
Proof.
  revert fs. induction todo as [|[rel0 n0] todo IH]; intros fs; simpl.
  - by intros _ [= <- <-].
  - intros [Hhead Htail]%not_elem_of_cons Hcp.
    assert (dst ++ rel ≠ dst ++ rel0) as Hne by (by intros ?%app_inv_head).
    destruct (cp_node (now E) opts (dst ++ rel0) n0 fs) as [[[]|] fs1] eqn:Hnode.
    + rewrite (IH _ Htail Hcp). by eapply cp_node_lookup.
    + injection Hcp as <- <-. by eapply cp_node_lookup.
Qed.

Lemma cp_nodes_file opts dst todo fs fs' rel m data :
  force opts = true →
  NoDup todo.*1 →
  cp_nodes (now E) opts dst todo fs = (Some (), fs') →
  (rel, File m data) ∈ todo →
  fs' !! (dst ++ rel) = Some (File (created_like (now E) m) data).
Proof.
  intros Hforce. revert fs.
  induction todo as [|[rel0 n0] todo IH]; intros fs; simpl.
  - by intros _ _ ?%elem_of_nil.
  - intros [Hfresh Hrest]%NoDup_cons Hcp Hin.
    destruct (cp_node (now E) opts (dst ++ rel0) n0 fs) as [[[]|] fs1] eqn:Hnode;
      [|done].
    apply elem_of_cons in Hin as [[= <- <-]|Hin].
    + rewrite (cp_nodes_elsewhere _ _ _ _ _ _ _ Hfresh Hcp).
      by eapply cp_node_file.
    + by eapply IH.
Qed.

End CopyFacts.

(** X18.  When the copy of the asset tree returns, every file at or below
    [assets] has its copy at the same place below [build/assets]: the same
    bytes and the same mode, owned by the process and dated by its clock,
    whether or not a file stood there before. *)
Theorem stage_assets_copies_every_file E st st' rel m data :
  stage_assets E st = (Some (), st') →
  file_at (disk st) (the_path "./assets" ++ rel) = Some (m, data) →
  disk st' !! (the_path "./build/assets" ++ rel)
  = Some (File (created_like (now E) m) data).
Proof.
  unfold stage_assets, cp, cpSync. intros Hrun Hfile.
  assert ((rel, File m data) ∈ subtree (disk st) (the_path "./assets"))
    as Hin.
  { apply subtree_elem. unfold file_at in Hfile. cbn [app] in *.
    by destruct (disk st !! _) as [[]|]; simplify_eq. }
  destruct (kind_at (disk st) (the_path "./assets")) as [k|];
    [|by injection Hrun].
  rewrite bool_decide_false in Hrun by (by intros [? [=]]).
  assert (∀ fs1,
    (let '(r, fs) := cp_nodes (now E) staging_options
                       (the_path "./build/assets")
                       (subtree (disk st) (the_path "./assets")) fs1
     in (r, State fs (pending st) (log st))) = (Some (), st') →
    disk st' !! (the_path "./build/assets" ++ rel)
    = Some (File (created_like (now E) m) data)) as Hgo.
  { intros fs1.
    destruct (cp_nodes _ _ _ _ fs1) as [r fs'] eqn:Hnodes.
    intros [= -> <-]. cbn [disk].
    eapply (cp_nodes_file E staging_options);
      [reflexivity|apply NoDup_subtree|exact Hnodes|exact Hin]. }
  destruct k; cbn [recursive staging_options] in Hrun;
    (destruct (mkdirs (now E) (disk st) [] (parent (the_path "./build/assets")))
       as [fs1|]; [by apply (Hgo fs1) | by injection Hrun]).
Qed.

Lemma stage_assets_copies_every_file_witness :
  disk (stage_assets Examples.stub
          (Examples.after_reset Examples.sources)).2
    !! the_path "build/assets/logo.svg"
  = Some (File (created_like Examples.build_time Examples.some_stat)
            (units "<svg/>")).
Proof.
  apply (stage_assets_copies_every_file Examples.stub
           (Examples.after_reset Examples.sources)
           (stage_assets Examples.stub
              (Examples.after_reset Examples.sources)).2
           ["logo.svg"]).
  - apply result_eta. vm_compute. reflexivity.
  - vm_compute. reflexivity.
Defined.

(** ** The archive of a directory *)

Section OrderFacts.

Lemma name_leb_total a b : name_leb a b = true ∨ name_leb b a = true.
Proof.
  revert b. induction a as [|x a IH]; intros [|y b]; simpl; auto.
  destruct (N.ltb_spec (N_of_ascii x) (N_of_ascii y)); [by left|].
  destruct (N.ltb_spec (N_of_ascii y) (N_of_ascii x)); [by right|].
  rewrite (proj2 (N.eqb_eq (N_of_ascii x) (N_of_ascii y))) by lia.
  rewrite (proj2 (N.eqb_eq (N_of_ascii y) (N_of_ascii x))) by lia.
  apply IH.
Qed.

Lemma name_leb_trans a b c :
  name_leb a b = true → name_leb b c = true → name_leb a c = true.
Proof.
  revert b c. induction a as [|x a IH]; intros [|y b] [|z c]; simpl; try done.
  destruct (N.ltb_spec (N_of_ascii x) (N_of_ascii y)) as [Hxy|Hxy].
  - intros _.
    destruct (N.ltb_spec (N_of_ascii y) (N_of_ascii z)) as [Hyz|Hyz].
    + intros _. by rewrite (proj2 (N.ltb_lt _ _)) by lia.
    + destruct (N.eqb_spec (N_of_ascii y) (N_of_ascii z)) as [Heq|]; [|done].
      intros _. by rewrite (proj2 (N.ltb_lt _ _)) by lia.
  - destruct (N.eqb_spec (N_of_ascii x) (N_of_ascii y)) as [Heq|]; [|done].
    rewrite Heq. intros Hab.
    destruct (N.ltb_spec (N_of_ascii y) (N_of_ascii z)); [done|].
    destruct (N.eqb_spec (N_of_ascii y) (N_of_ascii z)); [|done].
    by apply IH.
Qed.

Lemma name_leb_antisym a b :
  name_leb a b = true → name_leb b a = true → a = b.
Proof.
  revert b. induction a as [|x a IH]; intros [|y b]; simpl; try done.
  destruct (N.ltb_spec (N_of_ascii x) (N_of_ascii y)) as [Hxy|Hxy].
  - intros _. rewrite (proj2 (N.ltb_ge _ _)) by lia.
    by rewrite (proj2 (N.eqb_neq _ _)) by lia.
  - destruct (N.eqb_spec (N_of_ascii x) (N_of_ascii y)) as [Heq|]; [|done].
    rewrite Heq, N.ltb_irrefl, N.eqb_refl. intros Hab Hba.
    rewrite (IH b Hab Hba). f_equal.
    rewrite <- (ascii_N_embedding x), <- (ascii_N_embedding y).
    by rewrite Heq.
Qed.

Lemma name_le_total : Total name_le.
Proof. intros a b. apply name_leb_total. Qed.

Lemma name_le_trans : Transitive name_le.
Proof. intros a b c. apply name_leb_trans. Qed.

Lemma name_le_antisym : AntiSymm (=) name_le.
Proof. intros a b. apply name_leb_antisym. Qed.

Lemma entries_elem fs p name :
  name ∈ entries fs p ↔ is_Some (fs !! (p ++ [name])).
Proof.
  unfold entries. rewrite merge_sort_Permutation, list_elem_of_omap. split.
  - intros ([rel n] & Hin%subtree_elem & Hname). simpl in Hname.
    destruct rel as [|x [|? ?]]; try done. injection Hname as ->. eauto.
  - intros [n Hn]. exists ([name], n). split; [by apply subtree_elem | done].
Qed.

(** Two directories that hold the same names list them alike. *)
Lemma entries_same fs1 p1 fs2 p2 :
  (∀ name, is_Some (fs1 !! (p1 ++ [name]))
           ↔ is_Some (fs2 !! (p2 ++ [name]))) →
  entries fs1 p1 = entries fs2 p2.
Proof.
  intros Hnames.
  apply (@Sorted_unique _ name_le name_le_trans name_le_antisym);
    [apply (@Sorted_merge_sort _ name_le _ name_le_total)..|].
  apply NoDup_Permutation; [apply NoDup_entries..|].
  intros name. by rewrite !entries_elem.
Qed.

End OrderFacts.

Section WalkFacts.

Lemma kind_at_lookup (fs : files) p :
  p ≠ [] →
  kind_at fs p
  = (λ n, match n with File _ _ => KFile | Dir _ => KDir end) <$> fs !! p.
Proof.
  intros Hp. unfold kind_at. destruct p; [done|].
  by destruct (fs !! _) as [[]|].
Qed.

Lemma tree_within_lookup fs1 root1 fs2 root2 rel n1 :
  tree_within fs1 root1 fs2 root2 →
  rel ≠ [] →
  fs1 !! (root1 ++ rel) = Some n1 →
  ∃ n2, fs2 !! (root2 ++ rel) = Some n2 ∧ same_node n1 n2.
Proof.
  unfold tree_within. rewrite Forall_forall.
  intros Hwithin Hrel Hn1%subtree_elem. specialize (Hwithin _ Hn1).
  simpl in Hwithin. destruct rel; [done|].
  destruct (fs2 !! _) as [n2|]; [eauto | done].
Qed.

(** Below two directories with identical contents, the same path leads to
    nodes with the same content, or to nothing in both. *)
Lemma same_tree_lookup fs1 root1 fs2 root2 rel :
  same_tree fs1 root1 fs2 root2 →
  rel ≠ [] →
  option_Forall2 same_node (fs1 !! (root1 ++ rel)) (fs2 !! (root2 ++ rel)).
Proof.
  intros [H12 H21] Hrel.
  destruct (fs1 !! (root1 ++ rel)) as [n1|] eqn:H1.
  - destruct (tree_within_lookup _ _ _ _ _ _ H12 Hrel H1) as (n2 & -> & ?).
    by constructor.
  - destruct (fs2 !! (root2 ++ rel)) as [n2|] eqn:H2; [|constructor].
    destruct (tree_within_lookup _ _ _ _ _ _ H21 Hrel H2) as (n1 & Hn1 & _).
    congruence.
Qed.

Lemma same_tree_kind fs1 root1 fs2 root2 rel :
  same_tree fs1 root1 fs2 root2 →
  rel ≠ [] →
  kind_at fs1 (root1 ++ rel) = kind_at fs2 (root2 ++ rel).
Proof.
  intros Hsame Hrel.
  rewrite !kind_at_lookup by (by intros [_ ?]%app_eq_nil).
  destruct (same_tree_lookup _ _ _ _ rel Hsame Hrel) as [n1 n2 Hn|]; [|done].
  by destruct n1, n2.
Qed.

Lemma same_tree_entries fs1 root1 fs2 root2 rel :
  same_tree fs1 root1 fs2 root2 →
  entries fs1 (root1 ++ rel) = entries fs2 (root2 ++ rel).
Proof.
  intros Hsame. apply entries_same. intros name. rewrite <- !app_assoc.
  assert (rel ++ [name] ≠ []) as Hne by (by destruct rel).
  destruct (same_tree_lookup _ _ _ _ _ Hsame Hne); split; by eauto.
Qed.

Lemma next_level_same fs1 root1 fs2 root2 level :
  same_tree fs1 root1 fs2 root2 →
  Forall (λ p, p ≠ []) level →
  next_level fs1 root1 level = next_level fs2 root2 level.
Proof.
  intros Hsame. unfold next_level.
  induction 1 as [|p level Hp _ IH]; csimpl; [done|].
  rewrite IH, (same_tree_kind _ _ _ _ p Hsame Hp).
  by rewrite (same_tree_entries _ _ _ _ p Hsame).
Qed.

Lemma next_level_members fs cwd level p' :
  p' ∈ next_level fs cwd level →
  ∃ p name, p ∈ level ∧ p' = p ++ [name] ∧ is_Some (fs !! (cwd ++ p')).
Proof.
  unfold next_level. intros (p & Hp' & Hp)%list_elem_of_bind.
  destruct (kind_at fs (cwd ++ p)) as [[]|]; try by apply elem_of_nil in Hp'.
  apply list_elem_of_fmap in Hp' as (name & -> & Hname%entries_elem).
  exists p, name. by rewrite app_assoc.
Qed.

Lemma next_level_nonempty fs cwd level :
  Forall (λ p, p ≠ []) (next_level fs cwd level).
Proof.
  apply Forall_forall. intros p' (p & name & _ & -> & _)%next_level_members.
  by destruct p.
Qed.

(** The queue is the same below two directories with identical contents,
    level by level. *)
Lemma walk_same fs1 root1 fs2 root2 depth level :
  same_tree fs1 root1 fs2 root2 →
  Forall (λ p, p ≠ []) level →
  walk depth fs1 root1 level = walk depth fs2 root2 level.
Proof.
  intros Hsame. revert level.
  induction depth as [|depth IH]; intros level Hlevel; simpl; [done|].
  rewrite (next_level_same _ _ _ _ level Hsame Hlevel). f_equal.
  apply IH, next_level_nonempty.
Qed.

Lemma height_bound (fs : files) p n : fs !! p = Some n → length p ≤ height fs.
Proof.
  intros Hp%elem_of_map_to_list. unfold height.
  induction (map_to_list fs) as [|[q m] l IH]; [by apply elem_of_nil in Hp|].
  apply elem_of_cons in Hp as [[= <- <-]|Hp]; simpl; [lia|].
  specialize (IH Hp). lia.
Qed.

Lemma walk_nil depth fs cwd : walk depth fs cwd [] = [].
Proof. induction depth as [|depth IH]; [done|]. simpl. apply IH. Qed.

(** Below the longest path of the disk there is nothing to list. *)
Lemma next_level_empty fs cwd level :
  (∀ p, p ∈ level → height fs ≤ length p) →
  next_level fs cwd level = [].
Proof.
  intros Hdeep.
  destruct (next_level fs cwd level) as [|p' rest] eqn:Hnext; [done|].
  destruct (next_level_members fs cwd level p')
    as (p & name & Hp & -> & [n Hn]); [rewrite Hnext; left|].
  apply height_bound in Hn. specialize (Hdeep p Hp).
  rewrite !length_app in Hn. simpl in Hn. lia.
Qed.

(** The levels that [queue] walks are all there are: walking further adds
    nothing. *)
Lemma walk_stable fs cwd depth level k more :
  (∀ p, p ∈ level → k ≤ length p) →
  height fs ≤ k + depth →
  walk (S depth + more) fs cwd level = walk (S depth) fs cwd level.
Proof.
  revert level k. induction depth as [|depth IH]; intros level k Hk Hheight.
  - simpl. rewrite next_level_empty, walk_nil; [done|].
    intros p Hp. specialize (Hk p Hp). lia.
  - change (level ++ walk (S depth + more) fs cwd (next_level fs cwd level)
            = level ++ walk (S depth) fs cwd (next_level fs cwd level)).
    f_equal. apply (IH _ (S k)); [|lia].
    intros p' (p & name & Hp & -> & _)%next_level_members.
    specialize (Hk p Hp). rewrite length_app. simpl. lia.
Qed.

Lemma walk_nonempty depth fs cwd level :
  Forall (λ p, p ≠ []) level → Forall (λ p, p ≠ []) (walk depth fs cwd level).
Proof.
  revert level. induction depth as [|depth IH]; intros level Hlevel; simpl.
  - constructor.
  - apply Forall_app. split; [done|]. apply IH, next_level_nonempty.
Qed.

Lemma queue_nonempty opts fs names :
  Forall (λ p, p ≠ []) (queue opts fs names).
Proof.
  apply walk_nonempty, Forall_fmap, Forall_true. done.
Qed.

Lemma queue_same opts1 opts2 fs1 fs2 names :
  same_tree fs1 (cwd opts1) fs2 (cwd opts2) →
  queue opts1 fs1 names = queue opts2 fs2 names.
Proof.
  intros Hsame. unfold queue.
  assert (∀ p : path, p ∈ (λ name : string, [name]) <$> names → 1 ≤ length p)
    as Hone.
  { by intros p (name & -> & _)%list_elem_of_fmap. }
  rewrite <- (walk_stable fs1 _ (height fs1) _ 1 (height fs2)) by (done || lia).
  rewrite <- (walk_stable fs2 _ (height fs2) _ 1 (height fs1)) by (done || lia).
  replace (S (height fs2) + height fs1) with (S (height fs1) + height fs2)
    by lia.
  apply walk_same; [done|]. apply Forall_fmap, Forall_true. done.
Qed.

Lemma entry_of_same opts1 opts2 p n1 n2 :
  portable opts1 = true → noMtime opts1 = true →
  portable opts2 = true → noMtime opts2 = true →
  same_node n1 n2 → entry_of opts1 p n1 = entry_of opts2 p n2.
Proof.
  intros Hp1 Hm1 Hp2 Hm2 Hsame. unfold entry_of.
  rewrite Hp1, Hm1, Hp2, Hm2.
  destruct n1 as [m1 d1|m1], n2 as [m2 d2|m2]; simpl in Hsame; try done.
  - destruct Hsame as [-> ->]. done.
  - by rewrite Hsame.
Qed.

Lemma entry_of_stripped opts p n :
  portable opts = true → noMtime opts = true →
  stripped (entry_of opts p n).1 ∧ h_path (entry_of opts p n).1 = p.
Proof.
  intros Hp Hm. unfold entry_of, stripped. rewrite Hp, Hm.
  by destruct n.
Qed.

Lemma pack_same opts1 opts2 fs1 fs2 names :
  portable opts1 = true → noMtime opts1 = true →
  portable opts2 = true → noMtime opts2 = true →
  same_tree fs1 (cwd opts1) fs2 (cwd opts2) →
  pack opts1 fs1 names = pack opts2 fs2 names.
Proof.
  intros Hp1 Hm1 Hp2 Hm2 Hsame. unfold pack.
  rewrite <- (queue_same opts1 opts2 fs1 fs2 names Hsame).
  induction (queue_nonempty opts1 fs1 names) as [|p l Hp _ IH]; [done|].
  cbn [mapM]. rewrite IH.
  destruct (same_tree_lookup _ _ _ _ p Hsame Hp) as [n1 n2 Hn|]; [|done].
  cbn [fmap option_fmap option_map].
  by rewrite (entry_of_same opts1 opts2 p n1 n2).
Qed.

Lemma pack_entries opts fs names a e :
  pack opts fs names = Some a → e ∈ a →
  ∃ p n, p ≠ [] ∧ fs !! (cwd opts ++ p) = Some n ∧ e = entry_of opts p n.
Proof.
  unfold pack. intros Hpack%mapM_Some_1 Hin.
  pose proof (queue_nonempty opts fs names) as Hne.
  induction Hpack as [|p e' l k He' _ IH]; [by apply elem_of_nil in Hin|].
  apply Forall_cons in Hne as [Hp Hne].
  apply elem_of_cons in Hin as [->|Hin]; [|by apply IH].
  apply fmap_Some in He' as (n & Hn & ->). by exists p, n.
Qed.

Lemma tar_entries_plain E opts fs names :
  Forall (λ name, archive_reference name = None) names →
  tar_entries E opts fs names = pack opts fs names.
Proof.
  intros Hplain. unfold tar_entries.
  assert (omap archive_reference names = []) as ->; [|done].
  induction Hplain as [|name names Hname _ IH]; csimpl; [done|].
  by rewrite Hname.
Qed.

End WalkFacts.

(** X19.  The archive of a directory none of whose entries has a name that
    begins with [@] is the same for every directory with the same contents,
    whatever the place of the directory, the owner and the timestamps of its
    nodes, and the clock of the run: two runs that write an archive write the
    same bytes.  No header of the archive holds an owner or a time, and every
    entry is named by the path of a node relative to the source directory. *)
Theorem genTar_deterministic E1 E2 src1 dst1 src2 dst2 st1 st2 st1' st2' :
  tar_bytes E1 = tar_bytes E2 →
  same_tree (disk st1) src1 (disk st2) src2 →
  Forall (λ name, archive_reference name = None) (entries (disk st1) src1) →
  pending st1 = [] →
  pending st2 = [] →
  (genTar src1 dst1 ≫= λ _, settle E1 1) st1 = (Some (), st1') →
  (genTar src2 dst2 ≫= λ _, settle E2 1) st2 = (Some (), st2') →
  ∃ archive,
    readFileSync (disk st1') dst1 = Some (tar_bytes E1 true archive) ∧
    readFileSync (disk st2') dst2 = Some (tar_bytes E1 true archive) ∧
    Forall (λ e, stripped e.1 ∧ names_node (disk st1) src1 e) archive.
Proof.
  intros Hcodec Hsame Hplain Hnone1 Hnone2 Hrun1 Hrun2.
  apply genTar_settled in Hrun1 as (names1 & a1 & Hnames1 & Hpack1 & Hread1);
    [|done].
  apply genTar_settled in Hrun2 as (names2 & a2 & Hnames2 & Hpack2 & Hread2);
    [|done].
  assert (names1 = entries (disk st1) src1 ∧ names2 = names1) as [-> ->].
  { unfold readdirSync in Hnames1, Hnames2.
    destruct (kind_at (disk st1) src1) as [[]|]; [done| |done].
    destruct (kind_at (disk st2) src2) as [[]|]; [done| |done].
    injection Hnames1 as <-. injection Hnames2 as <-. split; [done|].
    pose proof (same_tree_entries _ _ _ _ [] Hsame) as Hlist.
    by rewrite !app_nil_r in Hlist. }
  rewrite tar_entries_plain in Hpack1, Hpack2 by done.
  rewrite <- (pack_same (TarOptions true dst1 src1 true true)
                (TarOptions true dst2 src2 true true)
                (disk st1) (disk st2)) in Hpack2 by done.
  rewrite Hpack1 in Hpack2. injection Hpack2 as <-.
  exists a1. rewrite <- Hcodec in Hread2. split; [done|]. split; [done|].
  apply Forall_forall. intros e He.
  destruct (pack_entries _ _ _ _ _ Hpack1 He) as (p & n & Hp & Hn & ->).
  destruct (entry_of_stripped (TarOptions true dst1 src1 true true)
              p n eq_refl eq_refl) as [Hstripped Hpath].
  split; [done|]. unfold names_node. rewrite Hpath. split; [done|].
  cbn [cwd] in Hn. by rewrite Hn.
Qed.

Lemma genTar_deterministic_witness :
  readFileSync
    (disk ((genTar (the_path "src/tools_vfs") (the_path "out/tools.tgz")
              ≫= λ _, settle Examples.stub 1)
             (Examples.fresh Examples.nested_here)).2)
    (the_path "out/tools.tgz")
  = readFileSync
      (disk ((genTar (the_path "home/ci/a") (the_path "out/a.tgz")
                ≫= λ _, settle Examples.stub 1)
               (Examples.fresh Examples.nested_there)).2)
      (the_path "out/a.tgz").
Proof.
  destruct (genTar_deterministic Examples.stub Examples.stub
              (the_path "src/tools_vfs") (the_path "out/tools.tgz")
              (the_path "home/ci/a") (the_path "out/a.tgz")
              (Examples.fresh Examples.nested_here)
              (Examples.fresh Examples.nested_there)
              ((genTar (the_path "src/tools_vfs") (the_path "out/tools.tgz")
                  ≫= λ _, settle Examples.stub 1)
                 (Examples.fresh Examples.nested_here)).2
              ((genTar (the_path "home/ci/a") (the_path "out/a.tgz")
                  ≫= λ _, settle Examples.stub 1)
                 (Examples.fresh Examples.nested_there)).2)
    as (archive & -> & -> & _).
  - reflexivity.
  - split; unfold tree_within.
    + assert (∀ l, l = subtree (disk (Examples.fresh Examples.nested_here))
                         (the_path "src/tools_vfs") →
                   Forall (λ rn,
                     match rn.1, disk (Examples.fresh Examples.nested_there)
                                   !! (the_path "home/ci/a" ++ rn.1) with
                     | [], _ => True
                     | _, Some n => same_node rn.2 n
                     | _, None => False
                     end) l) as Hwithin; [|by apply Hwithin].
      intros l Hl. vm_compute in Hl. subst l.
      repeat (constructor; [vm_compute; by repeat split|]). constructor.
    + assert (∀ l, l = subtree (disk (Examples.fresh Examples.nested_there))
                         (the_path "home/ci/a") →
                   Forall (λ rn,
                     match rn.1, disk (Examples.fresh Examples.nested_here)
                                   !! (the_path "src/tools_vfs" ++ rn.1) with
                     | [], _ => True
                     | _, Some n => same_node rn.2 n
                     | _, None => False
                     end) l) as Hwithin; [|by apply Hwithin].
      intros l Hl. vm_compute in Hl. subst l.
      repeat (constructor; [vm_compute; by repeat split|]). constructor.
  - assert (∀ l, l = entries (disk (Examples.fresh Examples.nested_here))
                       (the_path "src/tools_vfs") →
                 Forall (λ name, archive_reference name = None) l) as Hplain;
      [|by apply Hplain].
    intros l Hl. vm_compute in Hl. subst l. by repeat constructor.
  - reflexivity.
  - reflexivity.
  - apply result_eta. vm_compute. reflexivity.
  - apply result_eta. vm_compute. reflexivity.
  - reflexivity.
Defined.
